(** * IndexTTS2 multi-character long-text generator: markup parsing,
      segmentation and dispatch

    A shallow embedding of the parsing, segmentation and dispatch code of
    [multi_person_support/scripts/multi_character_emotion_generator.py] and
    [multi_person_support/scripts/long_text_emotion_generator.py], with the
    properties the design document states about them, followed by further
    properties of that code and of [process_direct_script] of
    [multi_person_support/scripts/ssh_n8n_processor.py].

    Python values are modelled as follows.
    - [str] is a list of Unicode code points ([pystr]).
    - [float] is IEEE binary64, Rocq's primitive [float]; the value a
      float32 tensor holds is the binary64 number of the same value.
    - [dict] with string keys is a [gmap pystr _].
    - An exception that leaves a function is a [Raise] result. *)

From Stdlib Require Import ZArith NArith List String Ascii Bool Lia.
From Stdlib Require Import Floats Sorted.
From stdpp Require Import base option list gmap.
Import ListNotations.

Set Warnings "-inexact-float".
Local Open Scope nat_scope.

(** ** Python strings *)

Definition pychar : Type := N.
Definition pystr : Type := list N.

(** Decoder for the UTF-8 bytes of a literal of this file, so that the
    string constants of the source can be written as they are there. *)
Fixpoint utf8_cont (n : nat) (acc : N) (s : string) : N * string :=
  match n with
  | O => (acc, s)
  | S n' =>
      match s with
      | EmptyString => (acc, s)
      | String c s' =>
          utf8_cont n' (acc * 64 + (N_of_ascii c) mod 64)%N s'
      end
  end.

Fixpoint utf8_fuel (fuel : nat) (s : string) : pystr :=
  match fuel with
  | O => []
  | S fuel' =>
      match s with
      | EmptyString => []
      | String c s' =>
          let b := N_of_ascii c in
          let '(cp, rest) :=
            if (b <? 128)%N then (b, s')
            else if (b <? 224)%N then utf8_cont 1 (b mod 32)%N s'
            else if (b <? 240)%N then utf8_cont 2 (b mod 16)%N s'
            else utf8_cont 3 (b mod 8)%N s' in
          cp :: utf8_fuel fuel' rest
      end
  end.

Definition utf8 (s : string) : pystr := utf8_fuel (String.length s) s.

(** [str.isspace] on one code point: the white space [str.strip()] removes. *)
Definition py_isspace (c : pychar) : bool :=
  ((9 <=? c) && (c <=? 13) || (28 <=? c) && (c <=? 32)
   || (c =? 133) || (c =? 160) || (c =? 5760)
   || (8192 <=? c) && (c <=? 8202)
   || (c =? 8232) || (c =? 8233) || (c =? 8239) || (c =? 8287)
   || (c =? 12288))%N.

Fixpoint lstrip (s : pystr) : pystr :=
  match s with
  | [] => []
  | c :: s' => if py_isspace c then lstrip s' else s
  end.

Definition rstrip (s : pystr) : pystr := rev (lstrip (rev s)).

(** [s.strip()] *)
Definition strip (s : pystr) : pystr := rstrip (lstrip s).

(** Truth value of a string: [if s:] holds for the non-empty ones. *)
Definition truthy (s : pystr) : bool :=
  match s with [] => false | _ :: _ => true end.

(** [s.split(sep)] for a one-character separator. *)
Fixpoint split_on (sep : pychar) (s : pystr) : list pystr :=
  match s with
  | [] => [[]]
  | c :: s' =>
      if (c =? sep)%N then [] :: split_on sep s'
      else match split_on sep s' with
           | l :: ls => (c :: l) :: ls
           | [] => [[c]]
           end
  end.

(** [s[a:b]] for indices [0 <= a] and [0 <= b]. *)
Definition slice (s : pystr) (a b : nat) : pystr := take (b - a) (drop a s).

(** The longest prefix of [s] whose characters satisfy [p], and the rest. *)
Fixpoint span (p : pychar -> bool) (s : pystr) : pystr * pystr :=
  match s with
  | [] => ([], [])
  | c :: s' =>
      if p c then let '(a, b) := span p s' in (c :: a, b) else ([], s)
  end.

(** A literal of a pattern: [Some rest] when [s] starts with [lit]. *)
Fixpoint expect (lit s : pystr) : option pystr :=
  match lit, s with
  | [], _ => Some s
  | a :: lit', c :: s' => if (a =? c)%N then expect lit' s' else None
  | _ :: _, [] => None
  end.

(** ** Regular-expression scanning

    A match object of [re.finditer]: [start()], [end()] and [group(1)]. *)
Record ReMatch : Type := mkReMatch {
  m_start : nat;
  m_end : nat;
  m_group1 : pystr
}.

(** [re.finditer] for a pattern given by its matcher at one position: the
    matcher returns [group(1)] and the text left after the match. Matches
    are taken leftmost first and do not overlap; [skip] counts the
    characters of the current match still to pass. Both patterns of the
    source match at least two characters. *)
Fixpoint finditer_from (matcher : pystr -> option (pystr * pystr))
    (s : pystr) (i skip : nat) : list ReMatch :=
  match s with
  | [] => []
  | _ :: s' =>
      match skip with
      | S k => finditer_from matcher s' (S i) k
      | O =>
          match matcher s with
          | Some (g, rest) =>
              let n := length s - length rest in
              mkReMatch i (i + n) g :: finditer_from matcher s' (S i) (n - 1)
          | None => finditer_from matcher s' (S i) 0
          end
      end
  end.

Definition finditer (matcher : pystr -> option (pystr * pystr))
    (s : pystr) : list ReMatch :=
  finditer_from matcher s 0 0.

(** ** Python floats *)

(** [min(a, b)] and [max(a, b)] of two floats, as the builtins compute
    them: the first argument is kept unless the second compares smaller
    (larger). *)
Definition pymin (a b : float) : float := if PrimFloat.ltb b a then b else a.
Definition pymax (a b : float) : float := if PrimFloat.ltb a b then b else a.

(** The value a [float32] tensor of torch holds after the assignment of a
    Python float: the binary64 number rounded to binary32, to nearest with
    ties to even; what exceeds the range becomes an infinity. It is given
    here as the binary64 number of the same value. *)
Definition float32 (x : float) : float :=
  match Prim2SF x with
  | S754_finite s m e =>
      SF2Prim (SpecFloat.binary_normalize 24 128
                 (SpecFloat.cond_Zopp s (Zpos m)) e s)
  | _ => x
  end.

(** ** The Python runtime

    Three builtins depend on the Unicode database or on the float reader
    and are taken as they are:
    - [py_float s] is [float(s)], [None] standing for [ValueError];
    - [py_isalnum c] is [str.isalnum] on a code point above ASCII;
    - [py_lower s] is [s.lower()]. *)
Class PyBuiltins : Type := {
  py_float : pystr -> option float;
  py_isalnum : pychar -> bool;
  py_lower : pystr -> pystr
}.

(** [\w] of a [str] pattern: letters, digits and the underscore. *)
Definition is_word `{PyBuiltins} (c : pychar) : bool :=
  if (c <? 128)%N then
    ((48 <=? c) && (c <=? 57) || (65 <=? c) && (c <=? 90)
     || (97 <=? c) && (c <=? 122) || (c =? 95))%N
  else py_isalnum c.

(** A runtime for the concrete runs below, which use ASCII text only. Its
    float reader takes the plain decimal literals of these runs, such as
    [0.5], and rejects text that is no number; signs, exponents, [inf] and
    [nan] are left to the parameter [py_float] of the general statements. *)
Fixpoint decimal_digits (s : pystr) (acc : Z) : option Z :=
  match s with
  | [] => Some acc
  | c :: s' =>
      if ((48 <=? c) && (c <=? 57))%N
      then decimal_digits s' (10 * acc + Z.of_N (c - 48))%Z
      else None
  end.

Definition decimal_float (s : pystr) : option float :=
  let s := strip s in
  let '(ip, rest) := span (fun c => (48 <=? c) && (c <=? 57))%N s in
  match ip, rest with
  | _ :: _, [] =>
      m ← decimal_digits ip 0;
      if (m <? 2 ^ 53)%Z then Some (PrimFloat.of_uint63 (Uint63.of_Z m))
      else None
  | _ :: _, 46%N :: ((_ :: _) as fp) =>
      m ← decimal_digits (ip ++ fp) 0;
      if ((m <? 2 ^ 53) && (Z.of_nat (length fp) <=? 15))%Z
      then Some (PrimFloat.of_uint63 (Uint63.of_Z m)
                 / PrimFloat.of_uint63
                     (Uint63.of_Z (10 ^ Z.of_nat (length fp))))%float
      else None
  | _, _ => None
  end.

Definition ascii_lower (s : pystr) : pystr :=
  map (fun c => if (65 <=? c) && (c <=? 90) then c + 32 else c)%N s.

Definition ascii_builtins : PyBuiltins := {|
  py_float := decimal_float;
  py_isalnum := fun _ => false;
  py_lower := ascii_lower
|}.

(** ** Variant A: [long_text_emotion_generator.py] *)

Module LongText.

(** The segment dictionaries of [parse_emotion_tags], with the keys
    ['text'], ['emotion'], ['alpha'] and ['position']. *)
Record EmotionSegment : Type := mkEmotionSegment {
  text : pystr;
  emotion : pystr;
  alpha : float;
  position : nat
}.

(** [EmotionTagParser.EMOTION_MAPPING], in the order of the source. *)
Definition EMOTION_MAPPING_items : list (string * string) :=
  [ ("happy", "happy"); ("happiness", "happy"); ("joy", "happy");
    ("excited", "happy");
    ("sad", "sad"); ("sadness", "sad"); ("melancholy", "melancholic");
    ("melancholic", "melancholic"); ("depressed", "melancholic");
    ("angry", "angry"); ("anger", "angry"); ("rage", "angry");
    ("fury", "angry");
    ("afraid", "afraid"); ("fear", "afraid"); ("scared", "afraid");
    ("terrified", "afraid");
    ("disgusted", "disgusted"); ("disgust", "disgusted");
    ("revolted", "disgusted");
    ("surprised", "surprised"); ("surprise", "surprised");
    ("amazed", "surprised"); ("shocked", "surprised");
    ("calm", "calm"); ("neutral", "calm"); ("normal", "calm");
    ("peaceful", "calm");
    ("高兴", "happy"); ("快乐", "happy"); ("愤怒", "angry");
    ("生气", "angry"); ("悲伤", "sad"); ("难过", "sad");
    ("恐惧", "afraid"); ("害怕", "afraid"); ("反感", "disgusted");
    ("厌恶", "disgusted"); ("低落", "melancholic");
    ("忧郁", "melancholic"); ("惊讶", "surprised");
    ("吃惊", "surprised"); ("自然", "calm"); ("平静", "calm") ]%string.

(** A dict display: a later item with the same key replaces the earlier. *)
Definition dict_of_items (items : list (string * string))
    : gmap pystr pystr :=
  fold_left (fun m kv => <[utf8 (fst kv) := utf8 (snd kv)]> m) items ∅.

Definition EMOTION_MAPPING : gmap pystr pystr :=
  dict_of_items EMOTION_MAPPING_items.

(** The pattern [\[([^\]]+)\]] at one position. *)
Definition match_bracket_tag (s : pystr) : option (pystr * pystr) :=
  match expect (utf8 "[") s with
  | Some s1 =>
      let '(body, s2) := span (fun c => negb (c =? 93)%N) s1 in
      match body with
      | [] => None
      | _ :: _ =>
          match expect (utf8 "]") s2 with
          | Some rest => Some (body, rest)
          | None => None
          end
      end
  | None => None
  end.

(** [tag_content.split(':', 1)] when [':' in tag_content]: the text before
    the first colon and the text after it. *)
Definition split_colon (s : pystr) : option (pystr * pystr) :=
  let '(a, b) := span (fun c => negb (c =? 58)%N) s in
  match b with
  | [] => None
  | _ :: b' => Some (a, b')
  end.

Section Parser.
Context `{PyBuiltins}.

(** The loop state of [parse_emotion_tags]. *)
Record ParseState : Type := mkParseState {
  segments : list EmotionSegment;
  current_pos : nat;
  current_emotion : pystr;
  current_alpha : float
}.

(** The emotion and alpha a tag sets. *)
Definition tag_emotion_alpha (default_emotion : pystr) (m : ReMatch)
    : pystr * float :=
  let tag_content := strip (py_lower (m_group1 m)) in
  let '(emotion_name, alpha_value) :=
    match split_colon tag_content with
    | Some (emotion_part, alpha_part) =>
        (strip emotion_part,
         match py_float (strip alpha_part) with
         | Some alpha_value => pymax 0 (pymin 1 alpha_value)
         | None => 1%float
         end)
    | None => (tag_content, 1%float)
    end in
  (default (default_emotion) (EMOTION_MAPPING !! emotion_name),
   alpha_value).

(** One iteration of [for i, match in enumerate(matches)]. *)
Definition tag_step (default_emotion : pystr) (txt : pystr)
    (st : ParseState) (m : ReMatch) : ParseState :=
  let '(emotion, alpha_value) := tag_emotion_alpha default_emotion m in
  let segs :=
    if current_pos st <? m_start m then
      let segment_text := strip (slice txt (current_pos st) (m_start m)) in
      if truthy segment_text then
        segments st ++
          [mkEmotionSegment segment_text (current_emotion st)
             (current_alpha st) (current_pos st)]
      else segments st
    else segments st in
  mkParseState segs (m_end m) emotion alpha_value.

Definition parse_emotion_tags (default_emotion : pystr) (txt : pystr)
    : list EmotionSegment :=
  let matches := finditer match_bracket_tag txt in
  match matches with
  | [] => [mkEmotionSegment (strip txt) default_emotion 1 0]
  | _ :: _ =>
      let st :=
        fold_left (tag_step default_emotion txt) matches
          (mkParseState [] 0 default_emotion 1) in
      if current_pos st <? length txt then
        let remaining_text := strip (drop (current_pos st) txt) in
        if truthy remaining_text then
          segments st ++
            [mkEmotionSegment remaining_text (current_emotion st)
               (current_alpha st) (current_pos st)]
        else segments st
      else segments st
  end.
End Parser.

End LongText.

(** ** Variant B: [multi_character_emotion_generator.py] *)

Module MultiCharacter.

Record CharacterConfig : Type := mkCharacterConfig {
  name : pystr;
  voice_file : pystr;
  default_emotion : pystr;
  emotion_intensity : float;
  speech_rate : float;
  pitch : float;
  volume : float;
  description : pystr
}.

Record DialogueSegment : Type := mkDialogueSegment {
  text : pystr;
  character : pystr;
  emotion : pystr;
  alpha : float;
  is_dialogue : bool;
  position : nat;
  emo_text : option pystr
}.

(** The third component [_extract_character_content] returns: a float for
    a numeric tag value, the string itself for a descriptive one. *)
Inductive TagValue : Type :=
  | Intensity (intensity : float)
  | Description (value : pystr).

(** [isinstance(value, str)] *)
Definition is_str (v : TagValue) : bool :=
  match v with Description _ => true | Intensity _ => false end.

Definition narrator : pystr := utf8 "narrator".
Definition calm : pystr := utf8 "calm".

(** *** [CharacterDialogueParser] *)

(** [_parse_characters]: one entry per item of the ['characters'] object of
    the configuration, under the same id. *)
Definition _parse_characters (config_characters : list (pystr * CharacterConfig))
    : gmap pystr CharacterConfig :=
  fold_left (fun characters item => <[fst item := snd item]> characters)
    config_characters ∅.

Section Parser.
Context `{PyBuiltins}.

(** The tag [{[character]:[emotion:value]}] at one position: the three
    groups and the text after the tag. Each repetition of the pattern is
    followed by a character it cannot contain, so it takes the longest
    run. *)
Definition match_char_tag (s : pystr)
    : option (pystr * pystr * pystr * pystr) :=
  s1 ← expect (utf8 "{[") s;
  let '(char_id, s2) := span is_word s1 in
  if truthy char_id then
    s3 ← expect (utf8 "]:[") s2;
    let '(emo, s4) := span is_word s3 in
    if truthy emo then
      s5 ← expect (utf8 ":") s4;
      let '(value, s6) := span (fun c => negb (c =? 93)%N) s5 in
      if truthy value then
        rest ← expect (utf8 "]}") s6;
        Some (char_id, emo, value, rest)
      else None
    else None
  else None.

(** [char_pattern]: the tag pattern as one group. *)
Definition char_pattern (s : pystr) : option (pystr * pystr) :=
  match match_char_tag s with
  | Some (_, _, _, rest) => Some (take (length s - length rest) s, rest)
  | None => None
  end.

Definition _extract_character_content (line : pystr)
    : pystr * pystr * TagValue * pystr :=
  match match_char_tag line with
  | Some (character, emotion, value, rest) =>
      (* group 4: the rest of the text, up to a line break *)
      let content := strip (fst (span (fun c => negb (c =? 10)%N) rest)) in
      match py_float value with
      | Some intensity =>
          let intensity := pymax 0 (pymin 1 intensity) in
          (character, emotion, Intensity intensity, content)
      | None => (character, emotion, Description value, content)
      end
  | None => (narrator, calm, Intensity 0, line)
  end.

(** [f"{emotion}: {value}"] *)
Definition emo_text_of (emotion value : pystr) : pystr :=
  emotion ++ utf8 ": " ++ value.

(** The loop state of [parse_text_with_characters]. *)
Definition ParseState : Type := list DialogueSegment * nat.

(** The segment one tag adds, from the tag and the text that follows it. *)
Definition tag_segment (characters : gmap pystr CharacterConfig)
    (tag_text following_text : pystr) (position : nat) : DialogueSegment :=
  let '(char_id, emotion, value, tag_content) :=
    _extract_character_content tag_text in
  if bool_decide (is_Some (characters !! char_id)) && truthy following_text
  then
    match value with
    | Description value =>
        mkDialogueSegment following_text char_id emotion 0.8 true position
          (Some (emo_text_of emotion value))
    | Intensity value =>
        mkDialogueSegment following_text char_id emotion value true
          position None
    end
  else
    match value with
    | Description value =>
        mkDialogueSegment following_text narrator emotion 0.8 false
          position (Some (emo_text_of emotion value))
    | Intensity value =>
        mkDialogueSegment following_text narrator emotion value false
          position None
    end.

(** [for i, match in enumerate(matches)]: [matches] holds the matches from
    the current one on. *)
Fixpoint tags_loop (characters : gmap pystr CharacterConfig)
    (line : pystr) (matches : list ReMatch) (st : ParseState)
    : ParseState :=
  match matches with
  | [] => st
  | m :: later =>
      let tag_text := m_group1 m in
      let start_pos := m_end m in
      let following_text :=
        match later with
        | next :: _ => strip (slice line start_pos (m_start next))
        | [] => strip (drop start_pos line)
        end in
      let '(segments, position) := st in
      tags_loop characters line later
        (segments ++
           [tag_segment characters tag_text following_text position],
         position + 1)
  end.

Definition narration (txt : pystr) (position : nat) : DialogueSegment :=
  mkDialogueSegment txt narrator calm 0 false position None.

(** One iteration of [for line in lines]. *)
Definition line_step (characters : gmap pystr CharacterConfig)
    (st : ParseState) (line : pystr) : ParseState :=
  let line := strip line in
  if truthy line then
    let matches := finditer char_pattern line in
    let '(segments, position) := st in
    match matches with
    | [] => (segments ++ [narration line position], position + 1)
    | first_match :: _ =>
        let st :=
          if 0 <? m_start first_match then
            let pre_text := strip (take (m_start first_match) line) in
            if truthy pre_text then
              (segments ++ [narration pre_text position], position + 1)
            else st
          else st in
        tags_loop characters line matches st
    end
  else st.

Definition parse_text_with_characters
    (characters : gmap pystr CharacterConfig) (txt : pystr)
    : list DialogueSegment :=
  let lines := split_on 10%N txt in
  fst (fold_left (line_step characters) lines ([], 0)).

(** [_map_emotion], with the mapping in the order of the source. *)
Definition emotion_mapping_items : list (string * string) :=
  [ ("happy", "happy"); ("happiness", "happy"); ("joy", "happy");
    ("excited", "happy");
    ("sad", "sad"); ("sadness", "sad"); ("melancholy", "melancholic");
    ("melancholic", "melancholic"); ("depressed", "melancholic");
    ("angry", "angry"); ("anger", "angry"); ("rage", "angry");
    ("fury", "angry");
    ("afraid", "afraid"); ("fear", "afraid"); ("scared", "afraid");
    ("terrified", "afraid");
    ("disgusted", "disgusted"); ("disgust", "disgusted");
    ("revolted", "disgusted");
    ("surprised", "surprised"); ("surprise", "surprised");
    ("amazed", "surprised"); ("shocked", "surprised");
    ("calm", "calm"); ("neutral", "calm"); ("normal", "calm");
    ("peaceful", "calm");
    ("高兴", "happy"); ("快乐", "happy"); ("愤怒", "angry");
    ("生气", "angry");
    ("悲伤", "sad"); ("难过", "sad"); ("恐惧", "afraid");
    ("害怕", "afraid");
    ("反感", "disgusted"); ("厌恶", "disgusted"); ("惊讶", "surprised");
    ("吃惊", "surprised");
    ("低落", "melancholic"); ("忧郁", "melancholic"); ("自然", "calm");
    ("平静", "calm");
    ("determined", "angry"); ("resolved", "angry");
    ("courageous", "angry");
    ("thoughtful", "calm"); ("wise", "calm"); ("serene", "calm");
    ("alarmed", "afraid"); ("shocked", "surprised");
    ("amazed", "surprised");
    ("outraged", "angry"); ("furious", "angry");
    ("disgusted", "disgusted");
    ("reverent", "calm"); ("respectful", "calm"); ("content", "happy");
    ("nostalgic", "melancholic"); ("longing", "sad");
    ("yearning", "sad") ]%string.

Definition emotion_mapping : gmap pystr pystr :=
  LongText.dict_of_items emotion_mapping_items.

Definition _map_emotion (emotion_name : pystr) : pystr :=
  default calm (emotion_mapping !! py_lower emotion_name).
End Parser.

(** *** [TextSegmenter] *)

Record TextSegmenter : Type := mkTextSegmenter {
  max_chars : Z;
  overlap_chars : Z
}.

(** [len(s)] *)
Definition len (s : pystr) : Z := Z.of_nat (length s).

(** The sentence ends of [_split_long_segment]: the ideographic full stop,
    the fullwidth exclamation and question marks, and [.], [!], [?]. *)
Definition is_sentence_end (c : pychar) : bool :=
  ((c =? 12290) || (c =? 65281) || (c =? 65311)
   || (c =? 46) || (c =? 33) || (c =? 63))%N.

(** [re.split] on a one-character pattern in a group: the pieces between
    the separators alternate with the separators themselves. *)
Fixpoint re_split (is_sep : pychar -> bool) (s : pystr) : list pystr :=
  match s with
  | [] => [[]]
  | c :: s' =>
      if is_sep c then [] :: [c] :: re_split is_sep s'
      else match re_split is_sep s' with
           | piece :: pieces => (c :: piece) :: pieces
           | [] => [[c]]
           end
  end.

(** The segments [_split_long_segment] builds: [emo_text] is not among the
    arguments of the constructor call and takes its default. *)
Definition sub_segment (segment : DialogueSegment) (current_text : pystr)
    : DialogueSegment :=
  mkDialogueSegment current_text (character segment) (emotion segment)
    (alpha segment) (is_dialogue segment) (position segment) None.

(** The body of [for i in range(0, len(sentences), 2)] once [sentence] is
    known; the state is [current_text] and [segments]. *)
Definition sentence_step (self : TextSegmenter) (segment : DialogueSegment)
    (sentence : pystr) (st : pystr * list DialogueSegment)
    : pystr * list DialogueSegment :=
  let '(current_text, segments) := st in
  let '(current_text, segments) :=
    if (max_chars self <? len (current_text ++ sentence))%Z
       && truthy current_text
    then
      (if (0 <? overlap_chars self)%Z then
         let overlap_start :=
           Z.max 0 (len current_text - overlap_chars self) in
         drop (Z.to_nat overlap_start) current_text
       else [],
       segments ++ [sub_segment segment current_text])
    else (current_text, segments) in
  (current_text ++ sentence, segments).

Fixpoint sentences_loop (self : TextSegmenter) (segment : DialogueSegment)
    (sentences : list pystr) (st : pystr * list DialogueSegment)
    : pystr * list DialogueSegment :=
  match sentences with
  | [] => st
  | [last] => sentence_step self segment last st
  | piece :: sep :: later =>
      sentences_loop self segment later
        (sentence_step self segment (piece ++ sep) st)
  end.

Definition _split_long_segment (self : TextSegmenter)
    (segment : DialogueSegment) : list DialogueSegment :=
  let sentences := re_split is_sentence_end (text segment) in
  let '(current_text, segments) :=
    sentences_loop self segment sentences ([], []) in
  if truthy current_text
  then segments ++ [sub_segment segment current_text]
  else segments.

Definition segment_dialogue (self : TextSegmenter)
    (segments : list DialogueSegment) : list DialogueSegment :=
  fold_left
    (fun segmented segment =>
       if (len (text segment) <=? max_chars self)%Z
       then segmented ++ [segment]
       else segmented ++ _split_long_segment self segment)
    segments [].

(** *** [MultiCharacterEmotionGenerator] *)

Inductive PyExn : Type :=
  | KeyError (key : pystr).

Inductive Result (A : Type) : Type :=
  | Ok (a : A)
  | Raise (e : PyExn).
Arguments Ok {A} a.
Arguments Raise {A} e.

(** The canonical emotions, in the order of the emotion vector. *)
Definition emotions : list pystr :=
  map utf8 ["happy"; "angry"; "sad"; "afraid"; "disgusted"; "melancholic";
            "surprised"; "calm"]%string.

(** [emotions.index(emotion)], when [emotion in emotions]. *)
Fixpoint index_of (x : pystr) (l : list pystr) : option nat :=
  match l with
  | [] => None
  | y :: l' => if bool_decide (x = y) then Some 0 else S <$> index_of x l'
  end.

(** The vector [_create_emotion_vector] returns is the [float32] tensor of
    [torch.zeros(8)] with one slot assigned: it is zero but for that slot,
    which holds [alpha] rounded to [float32]. It is given by that slot and
    the weight it holds. *)
Record EmotionVector : Type := mkEmotionVector {
  slot : nat;
  weight : float
}.

Definition _create_emotion_vector (emotion : pystr) (alpha : float)
    : EmotionVector :=
  match index_of emotion emotions with
  | Some i => mkEmotionVector i (float32 alpha)
  | None => mkEmotionVector 7 (float32 alpha)
  end.

(** The keyword arguments of one [tts.infer] call; an argument the call
    leaves out is [None]. *)
Record InferRequest : Type := mkInferRequest {
  spk_audio_prompt : pystr;
  infer_text : pystr;
  output_path : nat;
  infer_emo_text : option pystr;
  emo_vector : option EmotionVector;
  emo_alpha : option float;
  use_speed : nat
}.

(** The synthesis model: [true] when [infer] returns, [false] when it
    raises. *)
Definition TTSModel : Type := InferRequest -> bool.

(** The alpha handed on, from the stored alpha of the segment. *)
Definition adjust_alpha (alpha : float) (is_dialogue : bool) : float :=
  if PrimFloat.leb alpha 0.1 then 0%float
  else if is_dialogue then pymin 1 (alpha * 1.2)
  else (alpha * 0.8)%float.

(** The call [_generate_segment_audio] makes; the output path is
    [segment_NNNN.wav] for the index of the segment. *)
Definition infer_request (character : CharacterConfig)
    (segment : DialogueSegment) (segment_index : nat) : InferRequest :=
  let adjusted_alpha := adjust_alpha (alpha segment) (is_dialogue segment) in
  let output_path := segment_index in
  let voice_file := voice_file character in
  let use_speed :=
    if PrimFloat.leb 1.3 (speech_rate character) then 1
    else if PrimFloat.leb (speech_rate character) 0.8 then 0
    else 0 in
  if PrimFloat.ltb 0 adjusted_alpha then
    match emo_text segment with
    | Some ((_ :: _) as emo_text) =>
        mkInferRequest voice_file (text segment) output_path
          (Some emo_text) None (Some adjusted_alpha) use_speed
    | _ =>
        let emotion_vector :=
          _create_emotion_vector (emotion segment) adjusted_alpha in
        mkInferRequest voice_file (text segment) output_path
          None (Some emotion_vector) (Some adjusted_alpha) use_speed
    end
  else
    mkInferRequest voice_file (text segment) output_path
      None None None use_speed.

(** A run of a method of the generator: the [tts.infer] calls it made, in
    order, and how it ended. *)
Record Run (A : Type) : Type := mkRun {
  infer_calls : list InferRequest;
  outcome : Result A
}.
Arguments mkRun {A} infer_calls outcome.
Arguments infer_calls {A} r.
Arguments outcome {A} r.

(** The result holds the segment object as the call leaves it and the
    path returned. *)
Definition _generate_segment_audio (characters : gmap pystr CharacterConfig)
    (tts_model : option TTSModel) (segment : DialogueSegment)
    (segment_index : nat) : Run (DialogueSegment * option nat) :=
  match tts_model with
  | None => mkRun [] (Ok (segment, None))
  | Some tts =>
      match characters !! character segment with
      | None => mkRun [] (Raise (KeyError (character segment)))
      | Some character =>
          let request := infer_request character segment segment_index in
          mkRun [request]
            (if tts request
             then Ok (segment, Some segment_index)
             else Ok (segment, None))
      end
  end.

(** [for i, segment in enumerate(segmented_dialogue)] *)
Fixpoint dispatch (characters : gmap pystr CharacterConfig)
    (tts_model : option TTSModel) (segmented : list DialogueSegment)
    (i : nat) (audio_segments : list nat) : Run (list nat) :=
  match segmented with
  | [] => mkRun [] (Ok audio_segments)
  | segment :: later =>
      let call := _generate_segment_audio characters tts_model segment i in
      match outcome call with
      | Raise e => mkRun (infer_calls call) (Raise e)
      | Ok (_, audio_segment) =>
          let audio_segments :=
            match audio_segment with
            | Some audio_segment => audio_segments ++ [audio_segment]
            | None => audio_segments
            end in
          let rest :=
            dispatch characters tts_model later (S i) audio_segments in
          mkRun (infer_calls call ++ infer_calls rest) (outcome rest)
      end
  end.

(** How [generate_audio] ends when no exception leaves it: the segments
    are concatenated, or the warning that none was generated is printed. *)
Inductive Report : Type :=
  | Generated (audio_segments : list nat)
  | NoAudioSegments.

Definition generate_audio `{PyBuiltins}
    (characters : gmap pystr CharacterConfig) (tts_model : option TTSModel)
    (input_text : pystr) (segment_chars : Z) : Run Report :=
  let dialogue_segments := parse_text_with_characters characters input_text in
  let segmenter := mkTextSegmenter segment_chars 30 in
  let segmented_dialogue := segment_dialogue segmenter dialogue_segments in
  let run := dispatch characters tts_model segmented_dialogue 0 [] in
  mkRun (infer_calls run)
    match outcome run with
    | Raise e => Raise e
    | Ok [] => Ok NoAudioSegments
    | Ok ((_ :: _) as audio_segments) => Ok (Generated audio_segments)
    end.

End MultiCharacter.

(** ** Variant A: segmentation and synthesis

    [EmotionTagParser.emotion_to_vector], [TextSegmenter] and
    [LongTextEmotionGenerator] of [long_text_emotion_generator.py]. *)

Module LongTextGenerator.

(** [EmotionTagParser.emotion_to_vector]: the dictionary in the order of
    the source. *)
Definition emotion_vectors_items : list (string * list float) :=
  [ ("happy", [1; 0; 0; 0; 0; 0; 0; 0]);
    ("angry", [0; 1; 0; 0; 0; 0; 0; 0]);
    ("sad", [0; 0; 1; 0; 0; 0; 0; 0]);
    ("afraid", [0; 0; 0; 1; 0; 0; 0; 0]);
    ("disgusted", [0; 0; 0; 0; 1; 0; 0; 0]);
    ("melancholic", [0; 0; 0; 0; 0; 1; 0; 0]);
    ("surprised", [0; 0; 0; 0; 0; 0; 1; 0]);
    ("calm", [0; 0; 0; 0; 0; 0; 0; 1]) ]%float%string.

Definition emotion_vectors : gmap pystr (list float) :=
  fold_left (fun m kv => <[utf8 (fst kv) := snd kv]> m)
    emotion_vectors_items ∅.

Definition emotion_to_vector (emotion : pystr) : list float :=
  default (emotion_vectors !!! utf8 "calm") (emotion_vectors !! emotion).

(** The segment dictionaries of [segment_text], with the keys ['text'],
    ['emotion'], ['alpha'], ['start_char'] and ['end_char']. *)
Record Segment : Type := mkSegment {
  text : pystr;
  emotion : pystr;
  alpha : float;
  start_char : nat;
  end_char : nat
}.

Record TextSegmenter : Type := mkTextSegmenter {
  max_chars : Z;
  min_chars : Z
}.

Definition len (s : pystr) : Z := Z.of_nat (length s).

(** The characters of the lookbehind of the sentence pattern. *)
Definition is_sentence_end (c : pychar) : bool :=
  ((c =? 46) || (c =? 33) || (c =? 63)
   || (c =? 12290) || (c =? 65281) || (c =? 65311))%N.

Definition push (c : pychar) (pieces : list pystr) : list pystr :=
  match pieces with
  | piece :: later => (c :: piece) :: later
  | [] => [[c]]
  end.

(** [re.split] on a run of white space that follows a sentence end: the
    run is left out and the text is cut there. [in_sep] holds inside such
    a run, [prev_end] when the character before is a sentence end. *)
Fixpoint split_sentences_from (in_sep prev_end : bool) (s : pystr)
    : list pystr :=
  match s with
  | [] => [[]]
  | c :: s' =>
      if py_isspace c then
        if in_sep then split_sentences_from true false s'
        else if prev_end then [] :: split_sentences_from true false s'
        else push c (split_sentences_from false false s')
      else push c (split_sentences_from false (is_sentence_end c) s')
  end.

Definition split_sentences (s : pystr) : list pystr :=
  split_sentences_from false false s.

Definition close (current_segment : pystr) (emotion : pystr) (alpha : float)
    (start_char : nat) : Segment :=
  mkSegment (strip current_segment) emotion alpha start_char
    (start_char + length (strip current_segment)).

(** The body of [for sentence in sentences]; the state is [segments],
    [current_segment] and [start_char]. *)
Definition sentence_step (self : TextSegmenter) (emotion : pystr)
    (alpha : float) (st : list Segment * pystr * nat) (sentence : pystr)
    : list Segment * pystr * nat :=
  let '(segments, current_segment, start_char) := st in
  let sentence := strip sentence in
  if negb (truthy sentence) then st
  else if (max_chars self <? len current_segment + len sentence + 1)%Z
          && truthy current_segment
  then
    let segments :=
      segments ++ [close current_segment emotion alpha start_char] in
    let current_segment := sentence in
    (segments, current_segment,
     start_char + (length (strip current_segment) + 1))
  else
    (segments,
     (if truthy current_segment
      then current_segment ++ utf8 " " ++ sentence
      else sentence),
     start_char).

Definition segment_text (self : TextSegmenter) (txt : pystr)
    (emotion : pystr) (alpha : float) : list Segment :=
  if (len txt <=? max_chars self)%Z then
    [mkSegment txt emotion alpha 0 (length txt)]
  else
    let sentences := split_sentences txt in
    let '(segments, current_segment, start_char) :=
      fold_left (sentence_step self emotion alpha) sentences ([], [], 0) in
    if truthy current_segment
    then segments ++ [close current_segment emotion alpha start_char]
    else segments.

(** The keyword arguments of the [tts.infer] call of [generate_segments];
    [use_random] and [verbose] are always [False]. The output path is
    [segment_NNN.wav] for the index of the segment. *)
Record InferRequest : Type := mkInferRequest {
  spk_audio_prompt : pystr;
  infer_text : pystr;
  output_path : nat;
  emo_vector : list float;
  emo_alpha : float
}.

(** What a call of [tts.infer] leaves: an exception, or a return with or
    without a file at the output path. *)
Inductive InferOutcome : Type :=
  | Raised
  | Written
  | NotWritten.

Definition TTSModel : Type := InferRequest -> InferOutcome.

(** [for i, segment in enumerate(segments)]: the calls made and the
    [audio_files] collected. The dictionaries of [parse_emotion_tags] and
    [segment_text] always hold the key ['alpha']. *)
Fixpoint generate_segments_from (voice_prompt_path : pystr) (tts : TTSModel)
    (segments : list Segment) (i : nat) (audio_files : list nat)
    : list InferRequest * list nat :=
  match segments with
  | [] => ([], audio_files)
  | segment :: later =>
      let alpha := alpha segment in
      let emo_vector := emotion_to_vector (emotion segment) in
      let output_path := i in
      let request :=
        mkInferRequest voice_prompt_path (text segment) output_path
          emo_vector alpha in
      let audio_files :=
        match tts request with
        | Written => audio_files ++ [output_path]
        | NotWritten => audio_files
        | Raised => audio_files
        end in
      let '(calls, audio_files) :=
        generate_segments_from voice_prompt_path tts later (S i)
          audio_files in
      (request :: calls, audio_files)
  end.

Definition generate_segments (voice_prompt_path : pystr) (tts : TTSModel)
    (segments : list Segment) : list InferRequest * list nat :=
  generate_segments_from voice_prompt_path tts segments 0 [].

(** [concatenate_audio]: nothing to concatenate fails; [assemble] stands
    for loading, joining and saving the files, [false] when that raises
    or finds no audio data. *)
Definition concatenate_audio (assemble : list nat -> bool)
    (audio_files : list nat) : bool :=
  match audio_files with
  | [] => false
  | _ :: _ => assemble audio_files
  end.

(** [generate_from_text]: the calls made and the value returned. The
    parser of the generator is built with the default emotion ['calm']. *)
Definition generate_from_text `{PyBuiltins} (voice_prompt_path : pystr)
    (tts : TTSModel) (assemble : list nat -> bool)
    (text_segmenter : TextSegmenter) (txt : pystr)
    : list InferRequest * bool :=
  let emotion_segments := LongText.parse_emotion_tags (utf8 "calm") txt in
  match emotion_segments with
  | [] => ([], false)
  | _ :: _ =>
      let all_segments :=
        fold_left
          (fun all_segments emotion_segment =>
             all_segments ++
               segment_text text_segmenter (LongText.text emotion_segment)
                 (LongText.emotion emotion_segment)
                 (LongText.alpha emotion_segment))
          emotion_segments [] in
      let '(calls, audio_files) :=
        generate_segments voice_prompt_path tts all_segments in
      match audio_files with
      | [] => (calls, false)
      | _ :: _ => (calls, concatenate_audio assemble audio_files)
      end
  end.

End LongTextGenerator.

(** ** The script processor: [ssh_n8n_processor.py] *)

Module N8NProcessor.
Import MultiCharacter.

(** [SSHN8NProcessor.process_direct_script]: the calls made and the value
    returned. [generator] is [self.generator], which is [None] until a
    configuration is given; the call on [None] raises inside the [try].
    [concatenate] tells whether [_concatenate_audio_segments] returns for
    the audio segments, [false] when it raises. *)
Definition process_direct_script `{PyBuiltins}
    (generator : option (gmap pystr CharacterConfig * option TTSModel))
    (concatenate : list nat -> bool) (script_text : pystr)
    : list InferRequest * bool :=
  match generator with
  | None => ([], false)
  | Some (characters, tts_model) =>
      let run := generate_audio characters tts_model script_text 200 in
      (infer_calls run,
       match outcome run with
       | Raise _ => false
       | Ok NoAudioSegments => true
       | Ok (Generated audio_segments) => concatenate audio_segments
       end)
  end.

End N8NProcessor.

#[global] Arguments LongText.EMOTION_MAPPING : simpl never.
#[global] Arguments MultiCharacter.emotion_mapping : simpl never.

(** * Vocabulary of the properties *)

(** A bracket tag in a text, as the pattern of Variant A reads it: an
    opening bracket, one or more characters other than the closing
    bracket, and the closing bracket. *)
Definition has_bracket_tag (txt : pystr) : Prop :=
  exists pre body post,
    txt = pre ++ [91%N] ++ body ++ [93%N] ++ post
    /\ body <> [] /\ Forall (fun c => c <> 93%N) body.

(** A registry for the concrete runs: [sarah] and [narrator], as in the
    example configurations of the repository. *)
Definition sample_config (name : string) : MultiCharacter.CharacterConfig :=
  MultiCharacter.mkCharacterConfig (utf8 name) (utf8 "voice.wav")
    (utf8 "calm") 0.5 1 1 1 [].

Definition sample_characters : gmap pystr MultiCharacter.CharacterConfig :=
  MultiCharacter._parse_characters
    [(utf8 "sarah", sample_config "Sarah");
     (utf8 "narrator", sample_config "Narrator")].

(** A configuration that defines [sarah] only. *)
Definition sarah_only : gmap pystr MultiCharacter.CharacterConfig :=
  MultiCharacter._parse_characters [(utf8 "sarah", sample_config "Sarah")].

(** The emotions of the closed enumeration. *)
Definition canonical (emotion : pystr) : Prop :=
  In emotion MultiCharacter.emotions.

(** A descriptive segment of 21 characters, and the script it comes from. *)
Definition great_news : MultiCharacter.DialogueSegment :=
  MultiCharacter.mkDialogueSegment (utf8 "Great news! It works.")
    (utf8 "sarah") (utf8 "excited") 0.8 true 0
    (Some (utf8 "excited: very enthusiastic")).

Definition great_news_script : pystr :=
  utf8 "{[sarah]:[excited:very enthusiastic]}Great news! It works.".


(** The invariant of the tag loop of Variant A: the current emotion and
    the emotions of the segments are canonical. *)
Definition canonical_state (st : LongText.ParseState) : Prop :=
  canonical (LongText.current_emotion st)
  /\ Forall (fun seg => canonical (LongText.emotion seg))
       (LongText.segments st).

(** The segments [_split_long_segment] builds from a parent. *)
Definition from_parent (segment chunk : MultiCharacter.DialogueSegment)
    : Prop :=
  exists current_text,
    chunk = MultiCharacter.sub_segment segment current_text.



(** The text of a character tag with its three parts. *)
Definition tag_of (char_id token value : pystr) : pystr :=
  utf8 "{[" ++ char_id ++ utf8 "]:[" ++ token ++ utf8 ":" ++ value
  ++ utf8 "]}".

(** A character tag in a line, as the pattern of Variant B reads it: the
    character id and the emotion token are non-empty runs of word
    characters, the value is non-empty and has no closing bracket. *)
Definition has_character_tag `{PyBuiltins} (line : pystr) : Prop :=
  exists pre char_id token value post,
    line = pre ++ tag_of char_id token value ++ post
    /\ (char_id <> [] /\ Forall (fun c => is_word c = true) char_id)
    /\ (token <> [] /\ Forall (fun c => is_word c = true) token)
    /\ (value <> [] /\ Forall (fun c => c <> 93%N) value).

(** A line of Variant B read from left to right: a text without a tag,
    then the tags of the line, each with its character id, its emotion
    token, its value and the text that follows it up to the next tag.
    [tagged parts] is the text of the tags with what follows them. *)
Definition TaggedPart : Type := pystr * pystr * pystr * pystr.

Fixpoint tagged (parts : list TaggedPart) : pystr :=
  match parts with
  | [] => []
  | (char_id, token, value, following) :: later =>
      tag_of char_id token value ++ following ++ tagged later
  end.

(** The three parts of a tag as the pattern reads them. *)
Definition tag_parts `{PyBuiltins} (char_id token value : pystr) : Prop :=
  (char_id <> [] /\ Forall (fun c => is_word c = true) char_id)
  /\ (token <> [] /\ Forall (fun c => is_word c = true) token)
  /\ (value <> [] /\ Forall (fun c => c <> 93%N) value).

(** [pre ++ tagged parts] shows every tag of the line: the parts are
    tags, and no tag lies in [pre] or in the text that follows a tag. *)
Definition well_tagged `{PyBuiltins} (pre : pystr) (parts : list TaggedPart)
    : Prop :=
  ~ has_character_tag pre
  /\ Forall (fun part : TaggedPart =>
               let '(char_id, token, value, following) := part in
               tag_parts char_id token value
               /\ ~ has_character_tag following)
       parts.

(** The matches of the tags of [tagged parts], the first starting at
    [i]. *)
Fixpoint matches_of (i : nat) (parts : list TaggedPart) : list ReMatch :=
  match parts with
  | [] => []
  | (char_id, token, value, following) :: later =>
      let tag := tag_of char_id token value in
      mkReMatch i (i + length tag) tag
      :: matches_of (i + length tag + length following) later
  end.

(** The segment of a tag, stated from the parts of the tag: the text is
    the trimmed text that follows the tag; it is dialogue of the character
    when the character is registered and that text is not empty, and
    narration otherwise; the emotion is the token as written; a value that
    reads as a float is clamped to give the alpha, any other value gives
    alpha 0.8 and the emotion text. *)
Definition part_segment `{PyBuiltins}
    (characters : gmap pystr MultiCharacter.CharacterConfig)
    (part : TaggedPart) (position : nat) : MultiCharacter.DialogueSegment :=
  let '(char_id, token, value, following) := part in
  let spoken :=
    bool_decide (is_Some (characters !! char_id))
    && truthy (strip following) in
  MultiCharacter.mkDialogueSegment (strip following)
    (if spoken then char_id else MultiCharacter.narrator)
    token
    (match py_float value with
     | Some intensity => pymax 0 (pymin 1 intensity)
     | None => 0.8%float
     end)
    spoken position
    (match py_float value with
     | Some _ => None
     | None => Some (token ++ utf8 ": " ++ value)
     end).

(** The narration of the text before the first tag of a line, or of a
    line without a tag: one segment when the text is not blank, none
    otherwise. *)
Definition pre_segments (pre : pystr) (position : nat)
    : list MultiCharacter.DialogueSegment :=
  if truthy (strip pre)
  then [MultiCharacter.narration (strip pre) position]
  else [].

(** The segments of the line [pre ++ tagged parts], the first at
    [position]: the narration of [pre], then one segment for each tag. *)
Definition line_segments `{PyBuiltins}
    (characters : gmap pystr MultiCharacter.CharacterConfig)
    (pre : pystr) (parts : list TaggedPart) (position : nat)
    : list MultiCharacter.DialogueSegment :=
  pre_segments pre position
  ++ imap (fun j part =>
             part_segment characters part
               (position + length (pre_segments pre position) + j))
       parts.

(** A text of white space only. *)
Definition blank (s : pystr) : Prop :=
  Forall (fun c => py_isspace c = true) s.

(** The matches [re.finditer] yields from position [cur] on, as a scan of
    the text: no match starts between [cur] and the first match, a match
    is not empty and ends where the text it leaves begins, and the scan
    goes on from its end. *)
Inductive scanned (matcher : pystr -> option (pystr * pystr)) (txt : pystr)
    : nat -> list ReMatch -> Prop :=
  | scanned_nil cur :
      (forall k, cur <= k < length txt -> matcher (drop k txt) = None) ->
      scanned matcher txt cur []
  | scanned_cons cur m ms rest :
      (forall k, cur <= k < m_start m -> matcher (drop k txt) = None) ->
      matcher (drop (m_start m) txt) = Some (m_group1 m, rest) ->
      cur <= m_start m ->
      m_start m < m_end m ->
      m_end m = length txt - length rest ->
      scanned matcher txt (m_end m) ms ->
      scanned matcher txt cur (m :: ms).

(** A float within [0.0, 1.0]. *)
Definition unit_interval (x : float) : Prop :=
  PrimFloat.leb 0 x = true /\ PrimFloat.leb x 1 = true.

(** The text of a segment of Variant A is a trimmed piece of the input that
    starts at the position of the segment, and it holds no tag. *)
Definition piece_of (txt : pystr) (seg : LongText.EmotionSegment) : Prop :=
  (exists n, LongText.text seg
             = strip (take n (drop (LongText.position seg) txt)))
  /\ ~ has_bracket_tag (LongText.text seg).

(** A segment of Variant B with its position moved up by [n]. *)
Definition shift_position (n : nat) (seg : MultiCharacter.DialogueSegment)
    : MultiCharacter.DialogueSegment :=
  MultiCharacter.mkDialogueSegment (MultiCharacter.text seg)
    (MultiCharacter.character seg) (MultiCharacter.emotion seg)
    (MultiCharacter.alpha seg) (MultiCharacter.is_dialogue seg)
    (n + MultiCharacter.position seg) (MultiCharacter.emo_text seg).

(** The counter of the Variant B parser is the number of segments so far,
    and the segments are numbered from 0 in the order they were added. *)
Definition numbered (st : MultiCharacter.ParseState) : Prop :=
  snd st = length (fst st)
  /\ map MultiCharacter.position (fst st) = seq 0 (length (fst st)).

(** The sentences of the loop of [_split_long_segment]: each piece of the
    split with the separator after it; the last piece has none. *)
Fixpoint pair_up (pieces : list pystr) : list pystr :=
  match pieces with
  | [] => []
  | [last] => [last]
  | piece :: sep :: later => (piece ++ sep) :: pair_up later
  end.

Definition sentences_of (txt : pystr) : list pystr :=
  pair_up (MultiCharacter.re_split MultiCharacter.is_sentence_end txt).

(** What [segment_dialogue] adds for one segment. *)
Definition chunks_of (self : MultiCharacter.TextSegmenter)
    (segment : MultiCharacter.DialogueSegment)
    : list MultiCharacter.DialogueSegment :=
  if (MultiCharacter.len (MultiCharacter.text segment)
      <=? MultiCharacter.max_chars self)%Z
  then [segment]
  else MultiCharacter._split_long_segment self segment.

(** The end of a chunk that [_split_long_segment] repeats at the start of
    the next one: its last [overlap_chars] characters, or nothing when
    [overlap_chars] is not positive. *)
Definition carry (self : MultiCharacter.TextSegmenter) (current_text : pystr)
    : pystr :=
  if (0 <? MultiCharacter.overlap_chars self)%Z then
    drop (Z.to_nat (Z.max 0 (MultiCharacter.len current_text
                              - MultiCharacter.overlap_chars self)))
      current_text
  else [].

(** The text [next] of a chunk starts with what the chunk before it
    carries over. *)
Definition repeats (self : MultiCharacter.TextSegmenter)
    (chunk : MultiCharacter.DialogueSegment) (next : pystr) : Prop :=
  exists rest, next = carry self (MultiCharacter.text chunk) ++ rest.

(** Every chunk but the first starts with what the chunk before it
    carries over. *)
Definition chained (self : MultiCharacter.TextSegmenter)
    (chunks : list MultiCharacter.DialogueSegment) : Prop :=
  forall i chunk next,
    chunks !! i = Some chunk -> chunks !! S i = Some next ->
    repeats self chunk (MultiCharacter.text next).

(** A request of Variant B that sets no emotion parameter. *)
Definition no_emotion (request : MultiCharacter.InferRequest) : Prop :=
  MultiCharacter.infer_emo_text request = None
  /\ MultiCharacter.emo_vector request = None
  /\ MultiCharacter.emo_alpha request = None.

(** The three shapes of a request of Variant B: an emotion text with a
    positive alpha; an emotion vector that holds at one of its eight slots
    the positive alpha of the call, rounded to float32 as the tensor
    stores it; or no emotion parameter. *)
Definition request_shape (request : MultiCharacter.InferRequest) : Prop :=
  match MultiCharacter.infer_emo_text request,
        MultiCharacter.emo_vector request,
        MultiCharacter.emo_alpha request with
  | Some _, None, Some emo_alpha => PrimFloat.ltb 0 emo_alpha = true
  | None, Some emotion_vector, Some emo_alpha =>
      MultiCharacter.weight emotion_vector = float32 emo_alpha
      /\ MultiCharacter.slot emotion_vector < 8
      /\ PrimFloat.ltb 0 emo_alpha = true
  | None, None, None => True
  | _, _, _ => False
  end.

(** Narration as the parser of Variant B emits it for text outside every
    tag: alpha 0.0, not dialogue. *)
Definition plain (seg : MultiCharacter.DialogueSegment) : Prop :=
  MultiCharacter.alpha seg = 0%float
  /\ MultiCharacter.is_dialogue seg = false.

(** The vector of eight floats that is 1.0 at slot [i] and 0.0 elsewhere. *)
Definition one_hot (i : nat) : list float :=
  map (fun k => if k =? i then 1%float else 0%float) (seq 0 8).

(** A text that starts with a character other than white space. *)
Definition starts_solid (s : pystr) : Prop :=
  match s with
  | c :: _ => py_isspace c = false
  | [] => False
  end.

(** A non-empty text with no white space at either end. *)
Definition trimmed (s : pystr) : Prop :=
  starts_solid s /\ starts_solid (rev s).

(** [sep.join(l)] *)
Fixpoint join (sep : pystr) (l : list pystr) : pystr :=
  match l with
  | [] => []
  | [x] => x
  | x :: l' => x ++ sep ++ join sep l'
  end.

(** The sentences [segment_text] of Variant A keeps: trimmed, the empty
    ones left out. *)
Definition kept_sentences (txt : pystr) : list pystr :=
  List.filter truthy (map strip (LongTextGenerator.split_sentences txt)).

(** The call [generate_segments] makes for segment [i]. *)
Definition request_of (voice_prompt_path : pystr) (i : nat)
    (segment : LongTextGenerator.Segment) : LongTextGenerator.InferRequest :=
  LongTextGenerator.mkInferRequest voice_prompt_path
    (LongTextGenerator.text segment) i
    (LongTextGenerator.emotion_to_vector (LongTextGenerator.emotion segment))
    (LongTextGenerator.alpha segment).

(** The call returned and left a file at its output path. *)
Definition written (tts : LongTextGenerator.TTSModel)
    (request : LongTextGenerator.InferRequest) : bool :=
  match tts request with
  | LongTextGenerator.Written => true
  | _ => false
  end.

(** The segments [generate_from_text] hands to [generate_segments]. *)
Definition all_segments_of `{PyBuiltins}
    (text_segmenter : LongTextGenerator.TextSegmenter) (txt : pystr)
    : list LongTextGenerator.Segment :=
  flat_map
    (fun emotion_segment =>
       LongTextGenerator.segment_text text_segmenter
         (LongText.text emotion_segment) (LongText.emotion emotion_segment)
         (LongText.alpha emotion_segment))
    (LongText.parse_emotion_tags (utf8 "calm") txt).

(** A narration segment without a sentence-ending character. *)
Definition no_full_stop : MultiCharacter.DialogueSegment :=
  MultiCharacter.mkDialogueSegment (utf8 "no full stop, only commas, here")
    MultiCharacter.narrator MultiCharacter.calm 0 false 0 None.

(** * Properties *)

Import MultiCharacter.

(** ** Float comparisons *)

Lemma SFcompare_antisym (x y : spec_float) :
  SFcompare y x = option_map CompOpp (SFcompare x y).
Proof.
  destruct x as [sx|sx| |sx mx ex], y as [sy|sy| |sy my ey]; simpl;
    try reflexivity;
    try (destruct sx; reflexivity); try (destruct sy; reflexivity);
    try (destruct sx, sy; reflexivity).
  destruct sx, sy; simpl; try reflexivity;
    rewrite (Z.compare_antisym ey ex);
    destruct (ey ?= ex)%Z; simpl; try reflexivity;
    change (PosDef.Pos.compare_cont Eq my mx) with (Pos.compare my mx);
    change (PosDef.Pos.compare_cont Eq mx my) with (Pos.compare mx my);
    rewrite (Pos.compare_antisym my mx);
    destruct (my ?= mx)%positive; reflexivity.
Qed.

Lemma float_ltb_not_leb (x y : float) :
  PrimFloat.ltb x y = true -> PrimFloat.leb y x = false.
Proof.
  rewrite ltb_spec, leb_spec. unfold SFltb, SFleb.
  rewrite (SFcompare_antisym (Prim2SF x) (Prim2SF y)).
  destruct (SFcompare (Prim2SF x) (Prim2SF y)) as [[]|]; simpl; congruence.
Qed.

Lemma float_ltb_leb (x y : float) :
  PrimFloat.ltb x y = true -> PrimFloat.leb x y = true.
Proof.
  rewrite ltb_spec, leb_spec. unfold SFltb, SFleb.
  destruct (SFcompare (Prim2SF x) (Prim2SF y)) as [[]|]; simpl; congruence.
Qed.

(** [max(0.0, min(1.0, x))] lies between 0 and 1, whatever [x] is. *)
Lemma clamp_unit_interval (x : float) :
  PrimFloat.leb 0 (pymax 0 (pymin 1 x)) = true
  /\ PrimFloat.leb (pymax 0 (pymin 1 x)) 1 = true.
Proof.
  unfold pymin. destruct (PrimFloat.ltb x 1) eqn:Hx1.
  - unfold pymax. destruct (PrimFloat.ltb 0 x) eqn:H0x.
    + split; apply float_ltb_leb; assumption.
    + split; reflexivity.
  - split; reflexivity.
Qed.

(** ** The alpha policy *)

(** C1: the alpha handed to the synthesis model is 0.0 when the stored
    alpha is at most 0.1, [min(1.0, alpha * 1.2)] for dialogue above 0.1 and
    [alpha * 0.8] for narration above 0.1; so 0.05 gives 0.0, 0.5 gives 0.6
    in dialogue and 0.4 in narration, and 0.9 in dialogue is clamped to
    1.0. A call that sets emotion parameters passes exactly this value as
    [emo_alpha], and [_generate_segment_audio] leaves the segment, hence
    its stored alpha, as it was. *)
Theorem alpha_policy :
  (forall alpha is_dialogue,
     PrimFloat.leb alpha 0.1 = true ->
     adjust_alpha alpha is_dialogue = 0%float)
  /\ (forall alpha,
        PrimFloat.ltb 0.1 alpha = true ->
        adjust_alpha alpha true = pymin 1 (alpha * 1.2))
  /\ (forall alpha,
        PrimFloat.ltb 0.1 alpha = true ->
        adjust_alpha alpha false = (alpha * 0.8)%float)
  /\ (adjust_alpha 0.05 true = 0%float
      /\ adjust_alpha 0.5 true = 0.6%float
      /\ adjust_alpha 0.5 false = 0.4%float
      /\ adjust_alpha 0.9 true = 1%float)
  /\ (forall character segment i,
        let adjusted := adjust_alpha (alpha segment) (is_dialogue segment) in
        emo_alpha (infer_request character segment i)
        = if PrimFloat.ltb 0 adjusted then Some adjusted else None)
  /\ (forall characters tts_model segment i request,
        In request
          (infer_calls (_generate_segment_audio characters tts_model segment i)) ->
        let adjusted := adjust_alpha (alpha segment) (is_dialogue segment) in
        emo_alpha request
        = if PrimFloat.ltb 0 adjusted then Some adjusted else None)
  /\ (forall characters tts_model segment i segment' path,
        outcome (_generate_segment_audio characters tts_model segment i)
        = Ok (segment', path) ->
        segment' = segment /\ alpha segment' = alpha segment).
Proof.
  assert (Hrequest : forall c seg i,
             emo_alpha (infer_request c seg i)
             = if PrimFloat.ltb 0 (adjust_alpha (alpha seg) (is_dialogue seg))
               then Some (adjust_alpha (alpha seg) (is_dialogue seg))
               else None).
  { intros c seg i. unfold infer_request.
    destruct (PrimFloat.ltb 0 (adjust_alpha (alpha seg) (is_dialogue seg)));
      [destruct (emo_text seg) as [[|]|]|]; reflexivity. }
  assert (Hkept : forall characters tts_model segment i segment' path,
             outcome (_generate_segment_audio characters tts_model segment i)
             = Ok (segment', path) ->
             segment' = segment).
  { intros characters tts_model segment i segment' path.
    unfold _generate_segment_audio.
    destruct tts_model as [tts|]; [|simpl; congruence].
    destruct (characters !! character segment) as [c|]; [|discriminate].
    simpl. destruct (tts _); congruence. }
  split; [|split; [|split; [|split; [|split; [|split]]]]].
  - intros a d Hle. unfold adjust_alpha. rewrite Hle. reflexivity.
  - intros a Hlt. unfold adjust_alpha.
    rewrite (float_ltb_not_leb _ _ Hlt). reflexivity.
  - intros a Hlt. unfold adjust_alpha.
    rewrite (float_ltb_not_leb _ _ Hlt). reflexivity.
  - repeat split.
  - exact Hrequest.
  - intros characters tts_model segment i request.
    unfold _generate_segment_audio.
    destruct tts_model as [tts|]; [|intros []].
    destruct (characters !! character segment) as [c|]; [|intros []].
    simpl. intros [<-|[]]. apply Hrequest.
  - intros characters tts_model segment i segment' path Hrun.
    rewrite (Hkept _ _ _ _ _ _ Hrun). split; reflexivity.
Qed.

Lemma alpha_policy_witness :
  adjust_alpha 0.05 true = 0%float
  /\ adjust_alpha 0.5 true = pymin 1 (0.5 * 1.2)
  /\ adjust_alpha 0.5 false = (0.5 * 0.8)%float.
Proof.
  split; [|split].
  - apply (proj1 alpha_policy 0.05%float true). reflexivity.
  - apply (proj1 (proj2 alpha_policy) 0.5%float). reflexivity.
  - apply (proj1 (proj2 (proj2 alpha_policy)) 0.5%float). reflexivity.
Defined.

(** ** Strings and scanning *)

Lemma span_app p s a b : span p s = (a, b) -> s = a ++ b.
Proof.
  revert a b. induction s as [|c s IH]; intros a b Hs; simpl in Hs.
  - inversion Hs. reflexivity.
  - destruct (p c).
    + destruct (span p s) as [a' b'] eqn:E. inversion Hs; subst.
      simpl. f_equal. apply IH. reflexivity.
    + inversion Hs. reflexivity.
Qed.

Lemma span_all p s a b : span p s = (a, b) -> Forall (fun c => p c = true) a.
Proof.
  revert a b. induction s as [|c s IH]; intros a b Hs; simpl in Hs.
  - inversion Hs. constructor.
  - destruct (p c) eqn:Hc.
    + destruct (span p s) as [a' b'] eqn:E. inversion Hs; subst.
      constructor; [assumption | eapply IH; reflexivity].
    + inversion Hs. constructor.
Qed.

Lemma span_intro p a b :
  Forall (fun c => p c = true) a ->
  match b with [] => True | c :: _ => p c = false end ->
  span p (a ++ b) = (a, b).
Proof.
  intros Ha Hb. induction Ha as [|c a Hc Ha IH]; simpl.
  - destruct b as [|c b]; [reflexivity|]. simpl. rewrite Hb. reflexivity.
  - rewrite Hc, IH. reflexivity.
Qed.

Lemma expect_Some lit s rest : expect lit s = Some rest <-> s = lit ++ rest.
Proof.
  revert s. induction lit as [|a lit IH]; intros s; simpl.
  - split; congruence.
  - destruct s as [|c s].
    + split; discriminate.
    + destruct (N.eqb_spec a c) as [->|Hne].
      * rewrite IH. split; congruence.
      * split; [discriminate | congruence].
Qed.

Lemma finditer_from_nil matcher s i :
  finditer_from matcher s i 0 = []
  <-> forall k, k < length s -> matcher (drop k s) = None.
Proof.
  revert i. induction s as [|c s IH]; intros i; simpl.
  - split; [intros _ k Hk; lia | reflexivity].
  - destruct (matcher (c :: s)) as [[g rest]|] eqn:Hm.
    + split; [discriminate|]. intros Hall.
      specialize (Hall 0 ltac:(lia)). simpl in Hall. congruence.
    + rewrite IH. split.
      * intros Hall [|k] Hk; [exact Hm|]. apply Hall. lia.
      * intros Hall k Hk. apply (Hall (S k)). lia.
Qed.

(** The first match is the leftmost one. *)
Lemma finditer_from_first matcher s i m ms :
  finditer_from matcher s i 0 = m :: ms ->
  i <= m_start m
  /\ (exists rest,
        matcher (drop (m_start m - i) s) = Some (m_group1 m, rest))
  /\ (forall k, k < m_start m - i -> matcher (drop k s) = None).
Proof.
  revert i. induction s as [|c s IH]; intros i; simpl; [discriminate|].
  destruct (matcher (c :: s)) as [[g rest]|] eqn:Hm.
  - intros Heq. inversion Heq; subst. simpl. rewrite Nat.sub_diag.
    split; [lia|]. split; [exists rest; exact Hm | intros k Hk; lia].
  - intros Heq. destruct (IH _ Heq) as (Hle & [rest Hrest] & Hnone).
    replace (m_start m - i) with (S (m_start m - S i)) by lia.
    split; [lia|]. split; [exists rest; exact Hrest|].
    intros [|k] Hk; [exact Hm|]. apply Hnone. lia.
Qed.

Lemma match_bracket_tag_Some s body rest :
  LongText.match_bracket_tag s = Some (body, rest)
  <-> s = [91%N] ++ body ++ [93%N] ++ rest
      /\ body <> [] /\ Forall (fun c => c <> 93%N) body.
Proof.
  unfold LongText.match_bracket_tag. split.
  - destruct (expect (utf8 "[") s) as [s1|] eqn:E1; [|discriminate].
    apply expect_Some in E1.
    destruct (span _ s1) as [b s2] eqn:E2.
    destruct b as [|c b]; [discriminate|].
    destruct (expect (utf8 "]") s2) as [r|] eqn:E3; [|discriminate].
    apply expect_Some in E3. intros Hs. inversion Hs; subst.
    pose proof (span_app _ _ _ _ E2) as Happ.
    pose proof (span_all _ _ _ _ E2) as Hall.
    split; [|split].
    + rewrite Happ. reflexivity.
    + discriminate.
    + eapply Forall_impl; [exact Hall|]. simpl. intros x Hx ->. discriminate.
  - intros (-> & Hne & Hall). simpl.
    rewrite (span_intro _ body (93%N :: rest)).
    + destruct body; [congruence|]. simpl. reflexivity.
    + eapply Forall_impl; [exact Hall|]. simpl. intros x Hx.
      destruct (N.eqb_spec x 93); [contradiction | reflexivity].
    + reflexivity.
Qed.

(** The scan of Variant A finds no match exactly in the texts without a
    bracket tag. *)
Lemma finditer_bracket_nil txt :
  finditer LongText.match_bracket_tag txt = [] <-> ~ has_bracket_tag txt.
Proof.
  unfold finditer. rewrite finditer_from_nil. split.
  - intros Hall (pre & body & post & -> & Hne & Hbody).
    specialize (Hall (length pre)). rewrite drop_app_length in Hall.
    assert (Hm : LongText.match_bracket_tag ([91%N] ++ body ++ [93%N] ++ post)
                 = Some (body, post)).
    { apply match_bracket_tag_Some. auto. }
    rewrite Hall in Hm; [discriminate|].
    rewrite !length_app. simpl. lia.
  - intros Hno k Hk.
    destruct (LongText.match_bracket_tag (drop k txt)) as [[body rest]|] eqn:Hm;
      [|reflexivity].
    exfalso. apply Hno. apply match_bracket_tag_Some in Hm.
    destruct Hm as (Hd & Hne & Hbody).
    exists (take k txt), body, rest. split; [|auto].
    rewrite <- Hd. symmetry. apply take_drop.
Qed.

(** *** The scan of [re.finditer] *)

Section Scan.
Variable matcher : pystr -> option (pystr * pystr).
Hypothesis progress : forall s g rest,
  matcher s = Some (g, rest) -> length rest < length s.

Lemma finditer_from_skip s i skip :
  skip <= length s ->
  finditer_from matcher s i skip
  = finditer_from matcher (drop skip s) (i + skip) 0.
Proof.
  revert i skip. induction s as [|c s IH]; intros i skip Hskip.
  - simpl in Hskip. replace skip with 0 by lia. reflexivity.
  - destruct skip as [|k].
    + rewrite Nat.add_0_r. reflexivity.
    + simpl in Hskip. cbn [finditer_from drop]. rewrite IH by lia.
      f_equal. lia.
Qed.

Lemma finditer_from_match c s i g rest :
  matcher (c :: s) = Some (g, rest) ->
  finditer_from matcher (c :: s) i 0
  = mkReMatch i (i + (length (c :: s) - length rest)) g
    :: finditer_from matcher s (S i) (length (c :: s) - length rest - 1).
Proof. intros Hm. cbn [finditer_from]. rewrite Hm. reflexivity. Qed.

Lemma finditer_from_scanned txt n cur :
  length txt - cur = n -> cur <= length txt ->
  scanned matcher txt cur (finditer_from matcher (drop cur txt) cur 0).
Proof.
  revert cur. induction n as [n IH] using lt_wf_ind. intros cur Hn Hcur.
  destruct (drop cur txt) as [|c s] eqn:Hd.
  - simpl. constructor. intros k Hk.
    apply (f_equal length) in Hd. rewrite length_drop in Hd. simpl in Hd. lia.
  - assert (Hlen : length (c :: s) = length txt - cur).
    { pose proof (f_equal length Hd) as Hl. rewrite length_drop in Hl.
      symmetry. exact Hl. }
    assert (Hs : s = drop (S cur) txt).
    { replace (S cur) with (cur + 1) by lia.
      rewrite <- drop_drop, Hd. reflexivity. }
    cbn [finditer_from].
    destruct (matcher (c :: s)) as [[g rest]|] eqn:Hm.
    + pose proof (progress _ _ _ Hm) as Hp.
      set (len := length (c :: s) - length rest).
      assert (Hlen' : 1 <= len <= length (c :: s)) by (subst len; lia).
      rewrite finditer_from_skip by (simpl in *; lia).
      replace (S cur + (len - 1)) with (cur + len) by lia.
      replace (drop (len - 1) s) with (drop (cur + len) txt).
      2:{ rewrite Hs, drop_drop. f_equal. lia. }
      eapply (scanned_cons _ _ _ (mkReMatch cur (cur + len) g) _ rest); simpl.
      * intros k Hk. lia.
      * rewrite Hd. exact Hm.
      * lia.
      * lia.
      * subst len. lia.
      * eapply IH; [|reflexivity|]; lia.
    + assert (Hrec : scanned matcher txt (S cur)
                       (finditer_from matcher s (S cur) 0)).
      { rewrite Hs. eapply IH; [|reflexivity|]; simpl in *; lia. }
      inversion Hrec as [cur' Hnone|cur' m ms rest Hnone Hmatch Hle Hlt Hend Hms];
        subst.
      * constructor. intros k Hk.
        destruct (decide (k = cur)) as [->|]; [rewrite Hd; exact Hm|].
        apply Hnone. lia.
      * econstructor; eauto; [|lia].
        intros k Hk.
        destruct (decide (k = cur)) as [->|]; [rewrite Hd; exact Hm|].
        apply Hnone. lia.
Qed.

(** The matches of a pattern that consumes at least one character are a
    scan of the text from its start. *)
Lemma finditer_scanned txt : scanned matcher txt 0 (finditer matcher txt).
Proof.
  unfold finditer. apply (finditer_from_scanned txt (length txt) 0); lia.
Qed.
End Scan.

(** The first occurrence of a character splits a text in one way. *)
Lemma first_occurrence (x : N) a b s t :
  Forall (fun c => c <> x) a -> Forall (fun c => c <> x) b ->
  a ++ x :: s = b ++ x :: t -> a = b /\ s = t.
Proof.
  intros Ha. revert b. induction Ha as [|c a Hc Ha IH]; intros b Hb Heq.
  - destruct Hb as [|d b Hd Hb]; simpl in Heq.
    + inversion Heq. auto.
    + inversion Heq; subst. congruence.
  - destruct Hb as [|d b Hd Hb]; simpl in Heq.
    + inversion Heq; subst. congruence.
    + inversion Heq; subst. destruct (IH b Hb H1) as [-> ->]. auto.
Qed.

(** The scan passes over a stretch of text in which no match starts. *)
Lemma finditer_from_gap matcher g s i :
  (forall k, k < length g -> matcher (drop k (g ++ s)) = None) ->
  finditer_from matcher (g ++ s) i 0
  = finditer_from matcher s (i + length g) 0.
Proof.
  revert i. induction g as [|c g IH]; intros i Hnone.
  - simpl. rewrite Nat.add_0_r. reflexivity.
  - cbn [app finditer_from].
    pose proof (Hnone 0 ltac:(simpl; lia)) as H0. simpl in H0. rewrite H0.
    rewrite IH.
    + f_equal. simpl. lia.
    + intros k Hk. apply (Hnone (S k)). simpl. lia.
Qed.

(** ** Variant A without tags *)

(** C9: for a text that contains no bracket tag, Variant A returns exactly
    one segment; its text is the whole input trimmed, its emotion the
    default emotion of the caller, and its alpha 1.0. *)
Theorem parse_emotion_tags_without_tags `{PyBuiltins}
    (default_emotion txt : pystr) :
  ~ has_bracket_tag txt ->
  LongText.parse_emotion_tags default_emotion txt
  = [LongText.mkEmotionSegment (strip txt) default_emotion 1 0].
Proof.
  intros Hno. apply finditer_bracket_nil in Hno.
  unfold LongText.parse_emotion_tags. rewrite Hno. reflexivity.
Qed.

Lemma parse_emotion_tags_without_tags_witness :
  ~ has_bracket_tag (utf8 "  Hello world. ")
  /\ @LongText.parse_emotion_tags ascii_builtins (utf8 "calm")
       (utf8 "  Hello world. ")
     = [LongText.mkEmotionSegment (utf8 "Hello world.") (utf8 "calm") 1 0].
Proof.
  assert (Hno : ~ has_bracket_tag (utf8 "  Hello world. ")).
  { apply finditer_bracket_nil. vm_compute. reflexivity. }
  split; [exact Hno|].
  exact (@parse_emotion_tags_without_tags ascii_builtins (utf8 "calm")
           (utf8 "  Hello world. ") Hno).
Defined.

(** ** Trimming *)

Lemma lstrip_suffix s : exists w, s = w ++ lstrip s.
Proof.
  induction s as [|c s [w IH]]; simpl.
  - exists []. reflexivity.
  - destruct (py_isspace c).
    + exists (c :: w). simpl. f_equal. exact IH.
    + exists []. reflexivity.
Qed.

Lemma lstrip_head s c t : lstrip s = c :: t -> py_isspace c = false.
Proof.
  induction s as [|d s IH]; simpl; [discriminate|].
  destruct (py_isspace d) eqn:Hd; [exact IH|].
  intros Hs. inversion Hs; subst. exact Hd.
Qed.

Lemma rstrip_prefix s : exists w, s = rstrip s ++ w.
Proof.
  unfold rstrip. destruct (lstrip_suffix (rev s)) as [w Hw].
  exists (rev w). rewrite <- rev_app_distr, <- Hw, rev_involutive.
  reflexivity.
Qed.

(** A trimmed text does not start with white space. *)
Lemma strip_head s c t : strip s = c :: t -> py_isspace c = false.
Proof.
  unfold strip. intros Hs.
  destruct (rstrip_prefix (lstrip s)) as [w Hw].
  rewrite Hs in Hw. simpl in Hw. eapply lstrip_head. exact Hw.
Qed.

Lemma lstrip_app_last a c : py_isspace c = false -> lstrip (a ++ [c]) <> [].
Proof.
  intros Hc. induction a as [|d a IH]; simpl.
  - rewrite Hc. discriminate.
  - destruct (py_isspace d); [exact IH | discriminate].
Qed.

(** Trimming keeps a text that starts with a character other than white
    space non-empty. *)
Lemma strip_cons_nonempty c u : py_isspace c = false -> strip (c :: u) <> [].
Proof.
  intros Hc. unfold strip. simpl. rewrite Hc. unfold rstrip. simpl.
  intros Hnil. apply (f_equal (@rev N)) in Hnil.
  rewrite rev_involutive in Hnil. simpl in Hnil.
  exact (lstrip_app_last (rev u) c Hc Hnil).
Qed.

Lemma truthy_true s : truthy s = true <-> s <> [].
Proof. destruct s; simpl; split; congruence. Qed.

Lemma truthy_false s : truthy s = false <-> s = [].
Proof. destruct s; simpl; split; congruence. Qed.

Lemma lstrip_split s : exists w, s = w ++ lstrip s /\ blank w.
Proof.
  induction s as [|c s (w & IH & Hw)]; simpl.
  - exists []. split; [reflexivity | constructor].
  - destruct (py_isspace c) eqn:Hc.
    + exists (c :: w). split; [simpl; f_equal; exact IH|].
      constructor; assumption.
    + exists []. split; [reflexivity | constructor].
Qed.

(** Trimming removes white space at both ends, and nothing else. *)
Lemma strip_split s :
  exists w1 w2, s = w1 ++ strip s ++ w2 /\ blank w1 /\ blank w2.
Proof.
  destruct (lstrip_split s) as (w1 & Hs & Hw1).
  destruct (lstrip_split (rev (lstrip s))) as (w2 & Hr & Hw2).
  exists w1, (rev w2). split; [|split; [exact Hw1|]].
  - unfold strip, rstrip. rewrite <- rev_app_distr, <- Hr, rev_involutive.
    exact Hs.
  - unfold blank. apply Forall_rev. exact Hw2.
Qed.

Lemma starts_solid_lstrip s : starts_solid s -> lstrip s = s.
Proof. destruct s as [|c u]; simpl; [tauto|]. intros ->. reflexivity. Qed.

Lemma trimmed_strip s : trimmed s -> strip s = s.
Proof.
  intros [Hs Hr]. unfold strip, rstrip.
  rewrite (starts_solid_lstrip s Hs), (starts_solid_lstrip _ Hr).
  apply rev_involutive.
Qed.

Lemma trimmed_nonempty s : trimmed s -> s <> [].
Proof. intros [Hs _] ->. exact Hs. Qed.

Lemma strip_trimmed s : strip s <> [] -> trimmed (strip s).
Proof.
  intros Hne. split.
  - destruct (strip s) as [|c u] eqn:Hs; [congruence|].
    simpl. eapply strip_head. exact Hs.
  - unfold strip, rstrip in *. rewrite rev_involutive.
    destruct (lstrip (rev (lstrip s))) as [|c u] eqn:Hl; [simpl in Hne; congruence|].
    simpl. eapply lstrip_head. exact Hl.
Qed.

(** Trimming twice is trimming once. *)
Lemma strip_strip s : strip (strip s) = strip s.
Proof.
  destruct (strip s) as [|c u] eqn:Hs; [reflexivity|].
  rewrite <- Hs. apply trimmed_strip, strip_trimmed. congruence.
Qed.

(** ** Tags of Variant B *)

Section Tags.
Context `{PyBuiltins}.

(** The tag pattern matches at the start of a text exactly when the text
    starts with a tag whose character id and emotion token are runs of
    word characters and whose value has no closing bracket. *)
Lemma match_char_tag_Some s c e v rest :
  match_char_tag s = Some (c, e, v, rest)
  <-> s = tag_of c e v ++ rest
      /\ (c <> [] /\ Forall (fun x => is_word x = true) c)
      /\ (e <> [] /\ Forall (fun x => is_word x = true) e)
      /\ (v <> [] /\ Forall (fun x => x <> 93%N) v).
Proof.
  unfold match_char_tag, tag_of. split.
  - destruct (expect (utf8 "{[") s) as [s1|] eqn:E1; [|discriminate].
    cbn [mbind option_bind].
    destruct (span is_word s1) as [w1 s2] eqn:S1.
    destruct (truthy w1) eqn:T1; [|discriminate].
    destruct (expect (utf8 "]:[") s2) as [s3|] eqn:E2; [|discriminate].
    cbn [mbind option_bind].
    destruct (span is_word s3) as [w2 s4] eqn:S2.
    destruct (truthy w2) eqn:T2; [|discriminate].
    destruct (expect (utf8 ":") s4) as [s5|] eqn:E3; [|discriminate].
    cbn [mbind option_bind].
    destruct (span _ s5) as [w3 s6] eqn:S3.
    destruct (truthy w3) eqn:T3; [|discriminate].
    destruct (expect (utf8 "]}") s6) as [r|] eqn:E4; [|discriminate].
    cbn [mbind option_bind]. intros Heq. inversion Heq; subst.
    apply expect_Some in E1, E2, E3, E4.
    apply truthy_true in T1, T2, T3.
    pose proof (span_app _ _ _ _ S1). pose proof (span_all _ _ _ _ S1).
    pose proof (span_app _ _ _ _ S2). pose proof (span_all _ _ _ _ S2).
    pose proof (span_app _ _ _ _ S3). pose proof (span_all _ _ _ _ S3) as Hv.
    subst. split; [|repeat split; auto].
    + rewrite <- !app_assoc. reflexivity.
    + eapply Forall_impl; [exact Hv|]. simpl. intros x Hx ->. discriminate.
  - intros (-> & [Hc Wc] & [He We] & [Hv Wv]).
    rewrite <- !app_assoc.
    assert (E1 : expect (utf8 "{[")
                   (utf8 "{[" ++ c ++ utf8 "]:[" ++ e ++ utf8 ":" ++ v
                    ++ utf8 "]}" ++ rest)
                 = Some (c ++ utf8 "]:[" ++ e ++ utf8 ":" ++ v
                         ++ utf8 "]}" ++ rest))
      by (apply expect_Some; reflexivity).
    rewrite E1. cbn [mbind option_bind].
    rewrite (span_intro _ c _ Wc) by reflexivity.
    apply truthy_true in Hc. rewrite Hc.
    assert (E2 : expect (utf8 "]:[")
                   (utf8 "]:[" ++ e ++ utf8 ":" ++ v ++ utf8 "]}" ++ rest)
                 = Some (e ++ utf8 ":" ++ v ++ utf8 "]}" ++ rest))
      by (apply expect_Some; reflexivity).
    rewrite E2. cbn [mbind option_bind].
    rewrite (span_intro _ e _ We) by reflexivity.
    apply truthy_true in He. rewrite He.
    assert (E3 : expect (utf8 ":") (utf8 ":" ++ v ++ utf8 "]}" ++ rest)
                 = Some (v ++ utf8 "]}" ++ rest))
      by (apply expect_Some; reflexivity).
    rewrite E3. cbn [mbind option_bind].
    rewrite (span_intro _ v (utf8 "]}" ++ rest)).
    + apply truthy_true in Hv. rewrite Hv.
      assert (E4 : expect (utf8 "]}") (utf8 "]}" ++ rest) = Some rest)
        by (apply expect_Some; reflexivity).
      rewrite E4. reflexivity.
    + eapply Forall_impl; [exact Wv|]. simpl. intros x Hx.
      destruct (N.eqb_spec x 93); [contradiction | reflexivity].
    + reflexivity.
Qed.

(** Group 1 of a match is the tag alone, and matching it again gives the
    same three parts. *)
Lemma char_pattern_group s g rest :
  char_pattern s = Some (g, rest) ->
  exists c e v,
    g = tag_of c e v /\ match_char_tag g = Some (c, e, v, []).
Proof.
  unfold char_pattern.
  destruct (match_char_tag s) as [[[[c e] v] r]|] eqn:Hm; [|discriminate].
  intros Heq. inversion Heq; subst. exists c, e, v.
  apply match_char_tag_Some in Hm. destruct Hm as (-> & Hc & He & Hv).
  assert (Hg : take (length (tag_of c e v ++ rest) - length rest)
                 (tag_of c e v ++ rest) = tag_of c e v).
  { rewrite length_app, Nat.add_sub. apply take_app_length. }
  rewrite Hg. split; [reflexivity|].
  apply match_char_tag_Some. rewrite app_nil_r. auto.
Qed.

Lemma finditer_from_groups matcher s i skip m :
  In m (finditer_from matcher s i skip) ->
  exists suffix rest, matcher suffix = Some (m_group1 m, rest).
Proof.
  revert i skip. induction s as [|c s IH]; intros i skip; simpl; [tauto|].
  destruct skip as [|k]; [|apply IH].
  destruct (matcher (c :: s)) as [[g rest]|] eqn:Hm; [|apply IH].
  intros [<-|Hin]; [|eapply IH; exact Hin].
  exists (c :: s), rest. exact Hm.
Qed.

Lemma finditer_tags line m :
  In m (finditer char_pattern line) ->
  exists c e v,
    m_group1 m = tag_of c e v
    /\ match_char_tag (m_group1 m) = Some (c, e, v, []).
Proof.
  intros Hin. apply finditer_from_groups in Hin.
  destruct Hin as (suffix & rest & Hm). eapply char_pattern_group, Hm.
Qed.
(** The text before the first match is followed by a tag, and no tag
    starts in it. *)
Lemma finditer_first_tag line first later :
  finditer char_pattern line = first :: later ->
  (exists c e v post,
     line = take (m_start first) line ++ tag_of c e v ++ post)
  /\ (forall k, k < m_start first -> char_pattern (drop k line) = None).
Proof.
  intros Hms. apply finditer_from_first in Hms.
  destruct Hms as (_ & [rest Hm] & Hnone). rewrite Nat.sub_0_r in *.
  split; [|exact Hnone].
  unfold char_pattern in Hm.
  destruct (match_char_tag (drop (m_start first) line))
    as [[[[c e] v] r]|] eqn:Htag; [|discriminate].
  apply match_char_tag_Some in Htag. destruct Htag as (Hd & _).
  exists c, e, v, r. rewrite <- Hd. symmetry. apply take_drop.
Qed.

(** The scan of Variant B finds no match exactly in the lines without a
    character tag, and trimming a line neither adds nor removes a tag. *)
Lemma finditer_char_nil line :
  finditer char_pattern line = [] <-> ~ has_character_tag line.
Proof.
  unfold finditer. rewrite finditer_from_nil. split.
  - intros Hall (pre & c & e & v & post & -> & Hc & He & Hv).
    specialize (Hall (length pre)). rewrite drop_app_length in Hall.
    assert (Hm : match_char_tag (tag_of c e v ++ post)
                 = Some (c, e, v, post)).
    { apply match_char_tag_Some. auto. }
    unfold char_pattern in Hall. rewrite Hm in Hall.
    assert (Hlen : length pre < length (pre ++ tag_of c e v ++ post)).
    { rewrite !length_app. unfold tag_of. rewrite !length_app. simpl. lia. }
    specialize (Hall Hlen). discriminate.
  - intros Hno k Hk. unfold char_pattern.
    destruct (match_char_tag (drop k line)) as [[[[c e] v] rest]|] eqn:Hm;
      [|reflexivity].
    exfalso. apply Hno. apply match_char_tag_Some in Hm.
    destruct Hm as (Hd & Hc & He & Hv).
    exists (take k line), c, e, v, rest. split; [|auto].
    rewrite <- Hd. symmetry. apply take_drop.
Qed.

Lemma has_character_tag_strip line :
  has_character_tag (strip line) <-> has_character_tag line.
Proof.
  destruct (strip_split line) as (w1 & w2 & Hline & Hw1 & Hw2).
  generalize dependent (strip line). intros s Hline. split.
  - intros (pre & c & e & v & post & Hs & Hparts).
    exists (w1 ++ pre), c, e, v, (post ++ w2). split; [|exact Hparts].
    rewrite Hline at 1. rewrite Hs, <- !app_assoc. reflexivity.
  - intros (pre & c & e & v & post & Hs & Hparts).
    rewrite Hs in Hline.
    (* the tag starts with a brace: the leading blanks end before it *)
    assert (Hpre : exists pre', pre = w1 ++ pre').
    { apply app_eq_app in Hline.
      destruct Hline as (l & [[Hp Hr]|[Hp Hr]]).
      - exists l. exact Hp.
      - destruct l as [|x l];
          [exists []; rewrite app_nil_r in Hp |-*; congruence|].
        exfalso. rewrite Hp in Hw1. apply Forall_app in Hw1 as [_ Hl].
        inversion Hl as [|? ? Hx _]; subst.
        unfold tag_of in Hr. simpl in Hr. inversion Hr; subst. discriminate. }
    destruct Hpre as (pre' & ->).
    rewrite <- app_assoc in Hline. apply app_inv_head in Hline.
    (* the tag ends with a brace: the trailing blanks start after it *)
    assert (Hpost : exists post', post = post' ++ w2).
    { rewrite !app_assoc in Hline. apply app_eq_app in Hline.
      destruct Hline as (l & [[Hp Hr]|[Hp Hr]]).
      - destruct l as [|x l] using rev_ind.
        + exists []. rewrite app_nil_r in Hp. simpl in Hr. simpl. congruence.
        + exfalso. clear IHl. rewrite Hr in Hw2.
          apply Forall_app in Hw2 as [Hl _].
          apply Forall_app in Hl as [_ Hx].
          inversion Hx as [|? ? Hsp _]; subst.
          unfold tag_of in Hp.
          change (utf8 "]}") with ([93%N] ++ [125%N]) in Hp.
          rewrite !app_assoc in Hp.
          apply app_inj_tail in Hp as [_ Hlast]. subst x. discriminate.
      - exists l. exact Hr. }
    destruct Hpost as (post' & ->).
    rewrite !app_assoc in Hline. apply app_inv_tail in Hline.
    exists pre', c, e, v, post'. split; [|exact Hparts].
    rewrite <- Hline, <- app_assoc. reflexivity.
Qed.

(** A match consumes at least one character, and a piece of a line in
    which no match starts holds no tag. *)
Lemma char_pattern_progress s g rest :
  char_pattern s = Some (g, rest) -> length rest < length s.
Proof.
  unfold char_pattern.
  destruct (match_char_tag s) as [[[[c e] v] r]|] eqn:Hm; [|discriminate].
  intros Heq. inversion Heq; subst.
  apply match_char_tag_Some in Hm. destruct Hm as (-> & _).
  unfold tag_of. rewrite !length_app. simpl. lia.
Qed.

Lemma no_character_tag_between line a n :
  (forall k, a <= k < a + n -> char_pattern (drop k line) = None) ->
  ~ has_character_tag (take n (drop a line)).
Proof.
  intros Hnone (pre & c & e & v & post & Heq & Hparts).
  assert (Hlen : length pre < n).
  { apply (f_equal length) in Heq. rewrite length_take, !length_app in Heq.
    unfold tag_of in Heq. rewrite !length_app in Heq. simpl in Heq. lia. }
  specialize (Hnone (a + length pre) ltac:(lia)).
  assert (Hd : drop (a + length pre) line
               = tag_of c e v ++ (post ++ drop n (drop a line))).
  { rewrite <- drop_drop. set (u := drop a line) in *.
    transitivity (drop (length pre) ((pre ++ tag_of c e v ++ post) ++ drop n u)).
    - f_equal. rewrite <- Heq. symmetry. apply take_drop.
    - rewrite <- app_assoc, drop_app_length, <- !app_assoc. reflexivity. }
  rewrite Hd in Hnone. unfold char_pattern in Hnone.
  assert (Hm : match_char_tag (tag_of c e v ++ (post ++ drop n (drop a line)))
               = Some (c, e, v, post ++ drop n (drop a line))).
  { apply match_char_tag_Some. auto. }
  rewrite Hm in Hnone. discriminate.
Qed.

Lemma no_character_tag_after line a :
  (forall k, a <= k < length line -> char_pattern (drop k line) = None) ->
  ~ has_character_tag (drop a line).
Proof.
  intros Hnone.
  rewrite <- (take_ge (drop a line) (length line))
    by (rewrite length_drop; lia).
  apply no_character_tag_between. intros k Hk.
  destruct (decide (k < length line)) as [Hlt|Hge]; [apply Hnone; lia|].
  rewrite drop_ge by lia. reflexivity.
Qed.
End Tags.

(** ** Variant B: the segments of a line *)

Section VariantB.
Context `{PyBuiltins}.
Variable characters : gmap pystr CharacterConfig.

(** The loops only append: run from any state, they add the segments
    they add from the empty list, and count them. *)
Lemma tags_loop_shift line ms segs pos :
  tags_loop characters line ms (segs, pos)
  = (segs ++ fst (tags_loop characters line ms ([], pos)),
     pos + length ms).
Proof.
  revert segs pos. induction ms as [|m later IH]; intros segs pos; simpl.
  - rewrite app_nil_r, Nat.add_0_r. reflexivity.
  - rewrite IH. rewrite (IH [_]). simpl.
    rewrite <- app_assoc. simpl. f_equal. lia.
Qed.

Lemma tags_loop_length line ms pos :
  length (fst (tags_loop characters line ms ([], pos))) = length ms.
Proof.
  revert pos. induction ms as [|m later IH]; intros pos; simpl.
  - reflexivity.
  - rewrite tags_loop_shift. simpl. rewrite IH. reflexivity.
Qed.

Lemma line_step_shift segs pos line :
  line_step characters (segs, pos) line
  = (segs ++ fst (line_step characters ([], pos) line),
     pos + length (fst (line_step characters ([], pos) line))).
Proof.
  unfold line_step. destruct (truthy (strip line)).
  - destruct (finditer char_pattern (strip line)) as [|m ms] eqn:Hms.
    + reflexivity.
    + assert (Hplain : forall st : ParseState,
                st = (segs, pos) ->
                tags_loop characters (strip line) (m :: ms) st
                = (segs ++ fst (tags_loop characters (strip line) (m :: ms)
                                  ([], pos)),
                   pos + length (fst (tags_loop characters (strip line)
                                        (m :: ms) ([], pos))))).
      { intros st ->. rewrite tags_loop_shift, tags_loop_length.
        reflexivity. }
      destruct (0 <? m_start m); [|apply Hplain; reflexivity].
      destruct (truthy (strip (take (m_start m) (strip line))));
        [|apply Hplain; reflexivity].
      rewrite tags_loop_shift.
      rewrite (tags_loop_shift _ _ ([] ++ _)).
      cbn [fst]. rewrite !length_app, tags_loop_length.
      rewrite <- app_assoc. cbn [length app]. f_equal. lia.
  - simpl. rewrite app_nil_r, Nat.add_0_r. reflexivity.
Qed.

Lemma lines_shift lines segs pos :
  fold_left (line_step characters) lines (segs, pos)
  = (segs ++ fst (fold_left (line_step characters) lines ([], pos)),
     pos + length (fst (fold_left (line_step characters) lines ([], pos)))).
Proof.
  revert segs pos. induction lines as [|l ls IH]; intros segs pos; simpl.
  - rewrite app_nil_r, Nat.add_0_r. reflexivity.
  - rewrite line_step_shift.
    pose proof (line_step_shift [] pos l) as E.
    destruct (line_step characters ([], pos) l) as [e q].
    cbn [fst app] in *. inversion E as [Hq]. rewrite <- Hq.
    rewrite IH, (IH e). cbn [fst].
    rewrite length_app, <- app_assoc. f_equal. lia.
Qed.

(** The segments of a text: those of the lines before a line, those of
    the line, those of the lines after it. Positions count the segments
    emitted so far. *)
Lemma parse_text_split txt before line after :
  split_on 10%N txt = before ++ line :: after ->
  let earlier := fst (fold_left (line_step characters) before ([], 0)) in
  let here := fst (line_step characters ([], length earlier) line) in
  parse_text_with_characters characters txt
  = earlier ++ here
    ++ fst (fold_left (line_step characters) after
              ([], length earlier + length here)).
Proof.
  intros Hsplit earlier here. unfold parse_text_with_characters.
  rewrite Hsplit, fold_left_app. simpl.
  rewrite (lines_shift before [] 0). simpl. fold earlier.
  rewrite line_step_shift. fold here.
  rewrite lines_shift. simpl. rewrite app_assoc. reflexivity.
Qed.

End VariantB.

(** *** Tagged lines *)

Section TaggedLines.
Context `{PyBuiltins}.

Lemma word_not_brace c : is_word c = true -> c <> 123%N /\ c <> 93%N.
Proof. intros Hc. split; intros ->; discriminate. Qed.

Lemma tag_of_cons c e v :
  tag_of c e v
  = 123%N :: 91%N :: c ++ [93%N; 58%N; 91%N] ++ e ++ [58%N] ++ v
    ++ [93%N; 125%N].
Proof. reflexivity. Qed.

(** No match starts in a text without a tag, also when a tag follows. *)
Lemma no_tag_across g c e v rest k :
  ~ has_character_tag g -> tag_parts c e v -> k < length g ->
  match_char_tag (drop k (g ++ tag_of c e v ++ rest)) = None.
Proof.
  intros Hfree (Hc & _ & _) Hk.
  destruct (match_char_tag _) as [[[[c' e'] v'] r']|] eqn:Hm; [|reflexivity].
  exfalso. apply match_char_tag_Some in Hm.
  destruct Hm as (Heq & Hc' & He' & Hv').
  rewrite drop_app_le in Heq by lia.
  assert (Hg : g = take k g ++ drop k g) by (symmetry; apply take_drop).
  assert (Hne : drop k g <> []).
  { intros Hnil. apply (f_equal length) in Hnil. rewrite length_drop in Hnil.
    simpl in Hnil. lia. }
  set (g' := drop k g) in *.
  assert (Hwhole : forall l, g' = tag_of c' e' v' ++ l -> False).
  { intros l Hl. apply Hfree. exists (take k g), c', e', v', l.
    split; [rewrite Hg at 1; rewrite Hl; reflexivity | auto]. }
  apply app_eq_app in Heq. destruct Heq as (l & [[Hl Hr]|[Hl Hr]]).
  - (* the match ends within [g] *)
    exact (Hwhole l Hl).
  - destruct l as [|x l].
    { apply (Hwhole []). rewrite app_nil_r in *. congruence. }
    rewrite tag_of_cons in Hr. cbn [app] in Hr.
    inversion Hr as [[Hx Hrest]]. subst x. clear Hr.
    (* the match is [g'], an opening brace, and [l] *)
    destruct Hv' as [_ Hv']. destruct Hc' as [_ Hc']. destruct He' as [_ He'].
    assert (Hl93 : exists m, l = m ++ [93%N; 125%N]
                             /\ Forall (fun x => x <> 93%N) m).
    { rewrite tag_of_cons in Hl.
      set (A := 91%N :: c' ++ [93%N; 58%N; 91%N] ++ e' ++ [58%N]) in *.
      assert (Hl' : (123%N :: A ++ v') ++ [93%N; 125%N]
                    = (g' ++ [123%N]) ++ l).
      { rewrite <- (app_assoc g' [123%N] l). cbn [app]. rewrite <- Hl.
        subst A. repeat (progress (rewrite <- ?app_assoc; cbn [app])).
        reflexivity. }
      apply app_eq_app in Hl'. destruct Hl' as (m & [[Hb Hm]|[Hb Hm]]).
      - (* [l] reaches back into the value or before it *)
        assert (Hsuffix : exists n, v' = n ++ m).
        { symmetry in Hb.
          change (123%N :: A ++ v') with ((123%N :: A) ++ v') in Hb.
          symmetry in Hb.
          apply app_eq_app in Hb. destruct Hb as (n & [[Ha Hn]|[Ha Hn]]).
          - (* the brace lies before the value: impossible *)
            exfalso. destruct g' as [|y g'']; [congruence|].
            cbn [app] in Ha. inversion Ha as [[Hy Ha']]. clear Ha.
            assert (Hin : In 123%N A).
            { rewrite Ha'. rewrite <- app_assoc. apply in_or_app. right.
              apply in_or_app. left. left. reflexivity. }
            subst A. destruct Hin as [Hin|Hin]; [discriminate|].
            apply in_app_or in Hin. destruct Hin as [Hin|Hin].
            + apply list_elem_of_In in Hin.
              rewrite Forall_forall in Hc'.
              destruct (word_not_brace _ (Hc' _ Hin)). congruence.
            + apply in_app_or in Hin. destruct Hin as [Hin|Hin].
              * simpl in Hin. intuition discriminate.
              * apply in_app_or in Hin. destruct Hin as [Hin|Hin].
                -- apply list_elem_of_In in Hin.
                   rewrite Forall_forall in He'.
                   destruct (word_not_brace _ (He' _ Hin)). congruence.
                -- simpl in Hin. intuition discriminate.
          - exists n. exact Hn. }
        destruct Hsuffix as [n Hn]. exists m. split; [exact Hm|].
        rewrite Hn in Hv'. apply Forall_app in Hv'. tauto.
      - (* [l] lies within the closing bracket and brace *)
        destruct m as [|y1 [|y2 [|y3 m]]]; cbn [app] in Hm.
        + exists []. split; [symmetry; exact Hm | constructor].
        + exfalso. inversion Hm; subst.
          apply app_inj_tail in Hb. destruct Hb as [_ Hb]. discriminate.
        + exfalso. inversion Hm; subst.
          assert (Hb' : g' ++ [123%N]
                        = ((123%N :: A ++ v') ++ [93%N]) ++ [125%N]).
          { rewrite Hb. rewrite <- !app_assoc. reflexivity. }
          apply app_inj_tail in Hb'. destruct Hb' as [_ Hb'].
          discriminate.
        + exfalso. inversion Hm. }
    destruct Hl93 as (m & -> & Hm).
    assert (Hfirst : (91%N :: c) ++ 93%N
                       :: (58%N :: 91%N :: e ++ [58%N] ++ v
                           ++ [93%N; 125%N] ++ rest)
                     = m ++ 93%N :: (125%N :: r')).
    { transitivity ((m ++ [93%N; 125%N]) ++ r');
        [|rewrite <- app_assoc; reflexivity].
      rewrite <- Hrest.
      repeat (progress (rewrite <- ?app_assoc; cbn [app])). reflexivity. }
    apply first_occurrence in Hfirst; [|constructor; [discriminate|]|exact Hm].
    + destruct Hfirst as [_ Habs]. discriminate.
    + destruct Hc as [_ Hc]. eapply Forall_impl; [exact Hc|].
      intros x Hx. apply word_not_brace, Hx.
Qed.
End TaggedLines.

Section LineSegments.
Context `{PyBuiltins}.
Variable characters : gmap pystr CharacterConfig.

Lemma tag_of_length c e v : 0 < length (tag_of c e v).
Proof. rewrite tag_of_cons. simpl. lia. Qed.

Lemma char_pattern_tag c e v rest :
  tag_parts c e v ->
  char_pattern (tag_of c e v ++ rest) = Some (tag_of c e v, rest).
Proof.
  intros Hparts. unfold char_pattern.
  assert (Hm : match_char_tag (tag_of c e v ++ rest) = Some (c, e, v, rest)).
  { apply match_char_tag_Some. split; [reflexivity | exact Hparts]. }
  rewrite Hm, length_app, Nat.add_sub, take_app_length. reflexivity.
Qed.

Lemma finditer_from_tag c e v rest i :
  tag_parts c e v ->
  finditer_from char_pattern (tag_of c e v ++ rest) i 0
  = mkReMatch i (i + length (tag_of c e v)) (tag_of c e v)
    :: finditer_from char_pattern rest (i + length (tag_of c e v)) 0.
Proof.
  intros Hparts. pose proof (char_pattern_tag c e v rest Hparts) as Hm.
  pose proof (tag_of_length c e v) as Hlen.
  destruct (tag_of c e v) as [|x tag] eqn:Htag; [simpl in Hlen; lia|].
  cbn [app] in *. rewrite (finditer_from_match _ _ _ _ _ _ Hm).
  cbn [length]. rewrite length_app.
  replace (S (length tag + length rest) - length rest) with (S (length tag))
    by lia.
  f_equal. rewrite finditer_from_skip by (rewrite length_app; lia).
  replace (S (length tag) - 1) with (length tag) by lia.
  rewrite drop_app_length. f_equal. lia.
Qed.

Lemma well_tagged_no_match g later k :
  ~ has_character_tag g ->
  Forall (fun part : TaggedPart =>
            let '(c, e, v, t) := part in
            tag_parts c e v /\ ~ has_character_tag t) later ->
  k < length g ->
  char_pattern (drop k (g ++ tagged later)) = None.
Proof.
  intros Hfree Hlater Hk. unfold char_pattern.
  destruct later as [|[[[c e] v] t] later]; cbn [tagged].
  - rewrite app_nil_r.
    apply finditer_char_nil in Hfree. unfold finditer in Hfree.
    rewrite finditer_from_nil in Hfree. specialize (Hfree k Hk).
    unfold char_pattern in Hfree. exact Hfree.
  - inversion Hlater as [|? ? Hhead _]; subst. destruct Hhead as [Hparts _].
    rewrite (no_tag_across g c e v (t ++ tagged later) k Hfree Hparts Hk).
    reflexivity.
Qed.

(** The matches of a tagged line are its tags. *)
Lemma finditer_from_tagged parts i :
  Forall (fun part : TaggedPart =>
            let '(c, e, v, t) := part in
            tag_parts c e v /\ ~ has_character_tag t) parts ->
  finditer_from char_pattern (tagged parts) i 0 = matches_of i parts.
Proof.
  intros Hall. revert i.
  induction Hall as [|[[[c e] v] t] later [Hparts Hfree] Hlater IH];
    intros i; [reflexivity|].
  cbn [tagged matches_of]. rewrite (finditer_from_tag _ _ _ _ _ Hparts).
  f_equal. rewrite finditer_from_gap.
  - rewrite IH. reflexivity.
  - intros k Hk. apply well_tagged_no_match; assumption.
Qed.

Lemma finditer_tagged pre parts :
  well_tagged pre parts ->
  finditer char_pattern (pre ++ tagged parts) = matches_of (length pre) parts.
Proof.
  intros [Hpre Hparts]. unfold finditer. rewrite finditer_from_gap.
  - apply finditer_from_tagged, Hparts.
  - intros k Hk. apply well_tagged_no_match; assumption.
Qed.

(** The segment the loop makes of a tag is the segment of the part. *)
Lemma tag_segment_part c e v t position :
  tag_parts c e v ->
  tag_segment characters (tag_of c e v) (strip t) position
  = part_segment characters (c, e, v, t) position.
Proof.
  intros Hparts. unfold tag_segment, _extract_character_content, part_segment.
  assert (Hm : match_char_tag (tag_of c e v) = Some (c, e, v, [])).
  { apply match_char_tag_Some. rewrite app_nil_r. split; [reflexivity|].
    exact Hparts. }
  rewrite Hm. destruct (py_float v); destruct (_ && _); reflexivity.
Qed.

Lemma drop_tag (prefix tag rest : pystr) :
  drop (length prefix + length tag) (prefix ++ tag ++ rest) = rest.
Proof. rewrite app_assoc, <- length_app. apply drop_app_length. Qed.

Lemma tags_loop_tagged_at parts prefix line i segs position :
  Forall (fun part : TaggedPart =>
            let '(c, e, v, t) := part in
            tag_parts c e v /\ ~ has_character_tag t) parts ->
  line = prefix ++ tagged parts -> i = length prefix ->
  tags_loop characters line (matches_of i parts) (segs, position)
  = (segs ++ imap (fun j part => part_segment characters part (position + j))
               parts,
     position + length parts).
Proof.
  intros Hall. revert prefix i segs position.
  induction Hall as [|[[[c e] v] t] later [Hparts Hfree] Hlater IH];
    intros prefix i segs position Hline Hi.
  - simpl. rewrite app_nil_r, Nat.add_0_r. reflexivity.
  - cbn [matches_of tags_loop m_group1 m_end].
    match goal with
    | |- context [tag_segment characters _ ?f position] =>
        assert (Hfollow : f = strip t)
    end.
    { rewrite Hline, Hi.
      destruct later as [|[[[c2 e2] v2] t2] later2];
        cbn [matches_of m_start tagged]; unfold slice;
        rewrite drop_tag.
      - rewrite app_nil_r. reflexivity.
      - rewrite Nat.add_comm, Nat.add_sub, take_app_length. reflexivity. }
    rewrite Hfollow.
    rewrite (IH (prefix ++ tag_of c e v ++ t)).
    + rewrite (tag_segment_part _ _ _ _ _ Hparts).
      cbn [imap]. rewrite <- app_assoc. cbn [app length].
      rewrite Nat.add_0_r. f_equal; [|lia].
      f_equal. f_equal. apply imap_ext. intros j part _. simpl.
      f_equal. lia.
    + rewrite Hline. cbn [tagged]. rewrite <- !app_assoc. reflexivity.
    + rewrite Hi, !length_app. lia.
Qed.

Lemma tags_loop_tagged parts prefix segs position :
  Forall (fun part : TaggedPart =>
            let '(c, e, v, t) := part in
            tag_parts c e v /\ ~ has_character_tag t) parts ->
  tags_loop characters (prefix ++ tagged parts)
    (matches_of (length prefix) parts) (segs, position)
  = (segs ++ imap (fun j part => part_segment characters part (position + j))
               parts,
     position + length parts).
Proof.
  intros Hall. apply (tags_loop_tagged_at parts prefix); auto.
Qed.

(** The segments of a line with tags. *)
Lemma line_step_tagged line pre parts position :
  strip line = pre ++ tagged parts -> parts <> [] ->
  well_tagged pre parts ->
  fst (line_step characters ([], position) line)
  = line_segments characters pre parts position.
Proof.
  intros Hline Hne Hshape. unfold line_step, line_segments, pre_segments.
  rewrite Hline.
  assert (Htruthy : truthy (pre ++ tagged parts) = true).
  { destruct parts as [|[[[c e] v] t] later]; [congruence|].
    apply truthy_true. cbn [tagged]. rewrite tag_of_cons.
    destruct pre; discriminate. }
  rewrite Htruthy, (finditer_tagged pre parts Hshape).
  destruct parts as [|[[[c e] v] t] later] eqn:Hparts; [congruence|].
  rewrite <- Hparts in *. 
  assert (Hms : exists grp ms,
             matches_of (length pre) parts
             = mkReMatch (length pre) (length pre + length (tag_of c e v)) grp
               :: ms).
  { rewrite Hparts. cbn [matches_of]. eauto. }
  destruct Hms as (grp & ms & Hms).
  rewrite Hms. cbn [m_start]. rewrite <- Hms.
  rewrite take_app_length.
  assert (Hpre : (0 <? length pre) = false -> strip pre = []).
  { intros Hz. apply Nat.ltb_ge in Hz. destruct pre; [reflexivity|].
    simpl in Hz. lia. }
  destruct Hshape as [_ Hall].
  destruct (0 <? length pre) eqn:Hz; [|rewrite (Hpre eq_refl); cbn [truthy]];
    [destruct (truthy (strip pre))|];
    rewrite (tags_loop_tagged parts pre _ _ Hall); cbn [fst length app];
    first [ reflexivity
          | f_equal; apply imap_ext; intros j part _; simpl; f_equal; lia
          | apply imap_ext; intros j part _; simpl; f_equal; lia ].
Qed.

(** The segments of a line without a tag. *)
Lemma line_step_untagged line position :
  ~ has_character_tag line ->
  fst (line_step characters ([], position) line)
  = if truthy (strip line) then [narration (strip line) position] else [].
Proof.
  intros Hfree. unfold line_step.
  destruct (truthy (strip line)); [|reflexivity].
  rewrite <- has_character_tag_strip in Hfree.
  apply finditer_char_nil in Hfree. rewrite Hfree. reflexivity.
Qed.

(** Every text reads as a tagged line. *)
Lemma tagged_shape s :
  exists pre parts, s = pre ++ tagged parts /\ well_tagged pre parts.
Proof.
  remember (length s) as n eqn:Hn. revert s Hn.
  induction n as [n IH] using lt_wf_ind. intros s Hn.
  destruct (finditer char_pattern s) as [|first later] eqn:Hms.
  - exists s, []. cbn [tagged]. rewrite app_nil_r.
    split; [reflexivity|]. split; [|constructor].
    apply finditer_char_nil, Hms.
  - unfold finditer in Hms. apply finditer_from_first in Hms.
    destruct Hms as (_ & [rest Hm] & Hnone). rewrite Nat.sub_0_r in *.
    unfold char_pattern in Hm.
    destruct (match_char_tag (drop (m_start first) s))
      as [[[[c e] v] r]|] eqn:Htag; [|discriminate].
    apply match_char_tag_Some in Htag. destruct Htag as (Hd & Hparts).
    assert (Hs : s = take (m_start first) s ++ tag_of c e v ++ r).
    { rewrite <- Hd. symmetry. apply take_drop. }
    assert (Hlen : length r < n).
    { subst n. pose proof (f_equal length Hs) as Hl.
      rewrite !length_app in Hl.
      pose proof (tag_of_length c e v). lia. }
    destruct (IH (length r) Hlen r eq_refl) as (gap & parts & Hr & Hgap & Hall).
    exists (take (m_start first) s), ((c, e, v, gap) :: parts).
    split; [|split].
    + cbn [tagged]. rewrite <- Hr. exact Hs.
    + change (take (m_start first) s)
        with (take (m_start first) (drop 0 s)).
      apply no_character_tag_between. intros k Hk.
      unfold char_pattern. 
      pose proof (Hnone k ltac:(lia)) as Hk'. unfold char_pattern in Hk'.
      exact Hk'.
    + constructor; [|exact Hall]. split; [exact Hparts | exact Hgap].
Qed.
End LineSegments.

Section TaggedText.
Context `{PyBuiltins}.
Variable characters : gmap pystr CharacterConfig.

(** The segments of a line, from its reading as a tagged line. *)
Lemma line_step_shape line pre parts position :
  strip line = pre ++ tagged parts -> well_tagged pre parts ->
  fst (line_step characters ([], position) line)
  = line_segments characters pre parts position.
Proof.
  intros Hline Hshape. destruct parts as [|part parts].
  - cbn [tagged] in Hline. rewrite app_nil_r in Hline.
    destruct Hshape as [Hpre _]. rewrite <- Hline in Hpre.
    rewrite has_character_tag_strip in Hpre.
    rewrite (line_step_untagged characters line position Hpre).
    unfold line_segments, pre_segments. cbn [imap].
    rewrite app_nil_r, <- Hline, strip_strip. reflexivity.
  - apply line_step_tagged; [exact Hline | discriminate | exact Hshape].
Qed.

Lemma parse_tagged_line txt before line after pre parts :
  split_on 10%N txt = before ++ line :: after ->
  strip line = pre ++ tagged parts -> well_tagged pre parts ->
  let earlier := fst (fold_left (line_step characters) before ([], 0)) in
  let here := line_segments characters pre parts (length earlier) in
  parse_text_with_characters characters txt
  = earlier ++ here
    ++ fst (fold_left (line_step characters) after
              ([], length earlier + length here)).
Proof.
  intros Hsplit Hline Hshape earlier here.
  pose proof (parse_text_split characters txt before line after Hsplit)
    as Hparse.
  cbv zeta in Hparse. fold earlier in Hparse.
  rewrite (line_step_shape line pre parts (length earlier) Hline Hshape)
    in Hparse.
  exact Hparse.
Qed.

Lemma pre_segments_length pre p q :
  length (pre_segments pre p) = length (pre_segments pre q).
Proof. unfold pre_segments. destruct (truthy (strip pre)); reflexivity. Qed.

Lemma line_segments_lookup pre parts1 part parts2 position :
  let i := length (pre_segments pre position) + length parts1 in
  line_segments characters pre (parts1 ++ part :: parts2) position !! i
  = Some (part_segment characters part (position + i)).
Proof.
  intros i. subst i. unfold line_segments.
  rewrite lookup_app_r by lia.
  replace (length (pre_segments pre position) + length parts1
           - length (pre_segments pre position)) with (length parts1) by lia.
  rewrite list_lookup_imap.
  rewrite (list_lookup_middle parts1 parts2 part (length parts1) eq_refl).
  cbn [fmap option_fmap option_map]. f_equal. f_equal. lia.
Qed.

(** The segment of a tag of a line of the text. *)
Lemma parse_tagged_part txt before line after pre parts1 part parts2 :
  split_on 10%N txt = before ++ line :: after ->
  strip line = pre ++ tagged (parts1 ++ part :: parts2) ->
  well_tagged pre (parts1 ++ part :: parts2) ->
  let earlier := fst (fold_left (line_step characters) before ([], 0)) in
  let position :=
    length earlier + length (pre_segments pre (length earlier))
    + length parts1 in
  parse_text_with_characters characters txt !! position
  = Some (part_segment characters part position).
Proof.
  intros Hsplit Hline Hshape earlier position.
  rewrite (parse_tagged_line txt before line after pre _ Hsplit Hline Hshape).
  fold earlier. subst position.
  rewrite lookup_app_r by lia. rewrite lookup_app_l.
  - replace (length earlier + length (pre_segments pre (length earlier))
             + length parts1 - length earlier)
      with (length (pre_segments pre (length earlier)) + length parts1)
      by lia.
    rewrite (line_segments_lookup pre parts1 part parts2 (length earlier)).
    f_equal. f_equal. lia.
  - unfold line_segments. rewrite length_app, length_imap, length_app.
    cbn [length]. lia.
Qed.

Lemma parse_text_by_lines (Q : DialogueSegment -> Prop) txt :
  (forall line position,
     In line (split_on 10%N txt) ->
     Forall Q (fst (line_step characters ([], position) line))) ->
  Forall Q (parse_text_with_characters characters txt).
Proof.
  unfold parse_text_with_characters. generalize (split_on 10%N txt).
  intros lines Hlines.
  assert (Hgen : forall st,
             Forall Q (fst st) ->
             Forall Q (fst (fold_left (line_step characters) lines st))).
  { induction lines as [|l ls IH]; intros [segs pos] Hst; [exact Hst|].
    cbn [fold_left]. apply IH.
    - intros line position Hin. apply Hlines. right. exact Hin.
    - rewrite line_step_shift. cbn [fst]. apply Forall_app.
      split; [exact Hst|]. apply Hlines. left. reflexivity. }
  apply Hgen. constructor.
Qed.

Lemma part_segment_position part position :
  MultiCharacter.position (part_segment characters part position) = position.
Proof.
  destruct part as [[[c e] v] t]. unfold part_segment.
  destruct (_ && _), (py_float v); reflexivity.
Qed.

(** Every segment is the narration of a non-empty text or the segment of
    a tag of a line of the text. *)
Lemma parse_text_segments txt :
  Forall (fun seg =>
            (seg = narration (text seg) (position seg) /\ text seg <> [])
            \/ exists line pre parts part,
                 In line (split_on 10%N txt)
                 /\ strip line = pre ++ tagged parts
                 /\ well_tagged pre parts
                 /\ In part parts
                 /\ seg = part_segment characters part (position seg))
    (parse_text_with_characters characters txt).
Proof.
  apply parse_text_by_lines. intros line position Hin.
  destruct (tagged_shape (strip line)) as (pre & parts & Hline & Hshape).
  rewrite (line_step_shape line pre parts position Hline Hshape).
  unfold line_segments. apply Forall_app. split.
  - unfold pre_segments. destruct (truthy (strip pre)) eqn:Hpre;
      constructor; [|constructor].
    left. split; [reflexivity|]. apply truthy_true, Hpre.
  - apply Forall_lookup. intros i seg Hi. rewrite list_lookup_imap in Hi.
    destruct (parts !! i) as [part|] eqn:Hpart; [|discriminate].
    cbn [fmap option_fmap option_map] in Hi. inversion Hi as [Hseg].
    right. exists line, pre, parts, part.
    split; [exact Hin|]. split; [exact Hline|]. split; [exact Hshape|].
    split.
    + apply list_elem_of_In. eapply list_elem_of_lookup_2. exact Hpart.
    + rewrite part_segment_position. reflexivity.
Qed.
End TaggedText.

Section PartSegment.
Context `{PyBuiltins}.
Variable characters : gmap pystr CharacterConfig.

Lemma part_segment_text c e v t position :
  text (part_segment characters (c, e, v, t) position) = strip t.
Proof. unfold part_segment. destruct (_ && _), (py_float v); reflexivity. Qed.

Lemma part_segment_emotion c e v t position :
  emotion (part_segment characters (c, e, v, t) position) = e.
Proof. unfold part_segment. destruct (_ && _), (py_float v); reflexivity. Qed.

Lemma part_segment_dialogue c e v t position :
  is_dialogue (part_segment characters (c, e, v, t) position) = true ->
  strip t <> [].
Proof.
  unfold part_segment. cbn [is_dialogue]. intros Hd.
  apply andb_true_iff in Hd. apply truthy_true, Hd.
Qed.

Lemma part_segment_without_text c e v t position :
  strip t = [] ->
  exists alpha emo_text,
    part_segment characters (c, e, v, t) position
    = mkDialogueSegment [] narrator e alpha false position emo_text.
Proof.
  intros Ht. unfold part_segment. rewrite Ht. cbn [truthy].
  rewrite andb_false_r. eauto.
Qed.
End PartSegment.

(** Tactics for the closed runs: the parts of a written tag, and a
    written text without a tag. *)
Ltac tag_parts_tac :=
  repeat split; try discriminate;
  repeat (constructor; [first [vm_compute; reflexivity | discriminate]|]);
  try constructor.

Ltac no_tag_tac := apply finditer_char_nil; vm_compute; reflexivity.

(** *** Lines without a tag *)

Section UntaggedLines.
Context `{PyBuiltins}.
Variable characters : gmap pystr CharacterConfig.

(** C5 (as amended): in Variant B a line that contains no matching
    character tag and is not blank is emitted as exactly one segment,
    between the segments of the lines before it and those of the lines
    after it: its text is the trimmed line, its character [narrator], its
    emotion [calm], its alpha 0.0, and it is not dialogue. A blank line
    (empty after trimming) contains no tag and emits nothing: the segments
    of the lines after it follow those of the lines before it, and are
    numbered from where they ended. On a tagged line, text before the
    first tag (the leftmost one: a tag follows the text and none starts in
    it) is not blank and is emitted first, trimmed, as a segment of its own
    of the same kind. *)
Theorem untagged_line_is_narration (txt : pystr)
    (before : list pystr) (line : pystr) (after : list pystr) :
  split_on 10%N txt = before ++ line :: after ->
  let earlier := fst (fold_left (line_step characters) before ([], 0)) in
  let position := length earlier in
  (~ has_character_tag line -> strip line <> [] ->
   parse_text_with_characters characters txt
   = earlier
     ++ [mkDialogueSegment (strip line) narrator calm 0 false position None]
     ++ fst (fold_left (line_step characters) after ([], position + 1)))
  /\ (strip line = [] ->
      ~ has_character_tag line
      /\ parse_text_with_characters characters txt
         = earlier
           ++ fst (fold_left (line_step characters) after ([], position)))
  /\ (forall first later,
        finditer char_pattern (strip line) = first :: later ->
        0 < m_start first ->
        let pre_text := strip (take (m_start first) (strip line)) in
        pre_text <> []
        /\ (exists c e v post,
              strip line
              = take (m_start first) (strip line) ++ tag_of c e v ++ post)
        /\ (forall k, k < m_start first ->
                      char_pattern (drop k (strip line)) = None)
        /\ exists rest,
             parse_text_with_characters characters txt
             = earlier
               ++ [mkDialogueSegment pre_text narrator calm 0 false
                     position None]
               ++ rest).
Proof.
  intros Hsplit earlier position.
  pose proof (parse_text_split characters txt before line after Hsplit)
    as Hparse.
  cbn zeta in Hparse. fold earlier position in Hparse.
  split; [|split].
  - intros Hnone Hline. apply truthy_true in Hline as Htruthy.
    rewrite <- has_character_tag_strip in Hnone.
    apply finditer_char_nil in Hnone. rewrite Hparse.
    unfold line_step. rewrite Htruthy, Hnone. reflexivity.
  - intros Hblank. split.
    + rewrite <- has_character_tag_strip, Hblank.
      apply finditer_char_nil. reflexivity.
    + rewrite Hparse. unfold line_step. rewrite Hblank.
      cbn [truthy fst length]. rewrite Nat.add_0_r. reflexivity.
  - intros first later Hms Hstart pre_text.
    assert (Hline : strip line <> []).
    { intros Hblank. rewrite Hblank in Hms. discriminate. }
    apply truthy_true in Hline as Htruthy.
    assert (Hpre : pre_text <> []).
    { subst pre_text. destruct (strip line) as [|c t] eqn:Hl; [congruence|].
      destruct (m_start first) as [|n]; [lia|]. simpl.
      apply strip_cons_nonempty. eapply strip_head. exact Hl. }
    split; [exact Hpre|].
    destruct (finditer_first_tag _ _ _ Hms) as [Htag Hleft].
    split; [exact Htag|]. split; [exact Hleft|].
    rewrite Hparse. unfold line_step at 1 2.
    rewrite Htruthy, Hms.
    apply Nat.ltb_lt in Hstart. rewrite Hstart.
    apply truthy_true in Hpre. fold pre_text. rewrite Hpre.
    rewrite tags_loop_shift. cbn [fst app].
    eexists. reflexivity.
Qed.
End UntaggedLines.

Lemma untagged_line_is_narration_witness :
  @parse_text_with_characters ascii_builtins sample_characters
    (utf8 "Once upon a time." ++ [10%N] ++ utf8 "   " ++ [10%N]
     ++ utf8 "  The end.  ")
  = [mkDialogueSegment (utf8 "Once upon a time.") narrator calm 0 false 0 None;
     mkDialogueSegment (utf8 "The end.") narrator calm 0 false 1 None].
Proof.
  refine (proj1 (@untagged_line_is_narration ascii_builtins sample_characters
                   (utf8 "Once upon a time." ++ [10%N] ++ utf8 "   "
                    ++ [10%N] ++ utf8 "  The end.  ")
                   [utf8 "Once upon a time."; utf8 "   "]
                   (utf8 "  The end.  ") [] _) _ _).
  - vm_compute. reflexivity.
  - rewrite <- has_character_tag_strip. no_tag_tac.
  - vm_compute. discriminate.
Defined.

(** A blank line contains no tag and is skipped: the three lines of this
    text give two segments, none for the empty line between them. *)
Lemma blank_line_emits_no_segment :
  split_on 10%N (utf8 "Hello" ++ [10%N; 10%N] ++ utf8 "World")
  = [utf8 "Hello"; []; utf8 "World"]
  /\ ~ @has_character_tag ascii_builtins []
  /\ @line_step ascii_builtins sample_characters ([], 1) [] = ([], 1)
  /\ @parse_text_with_characters ascii_builtins sample_characters
       (utf8 "Hello" ++ [10%N; 10%N] ++ utf8 "World")
     = [mkDialogueSegment (utf8 "Hello") narrator calm 0 false 0 None;
        mkDialogueSegment (utf8 "World") narrator calm 0 false 1 None].
Proof.
  split; [vm_compute; reflexivity|].
  split; [apply finditer_char_nil; reflexivity|].
  split; vm_compute; reflexivity.
Qed.

(** ** What every segment of Variant B satisfies *)

Section VariantBSegments.
Context `{PyBuiltins}.
Variable characters : gmap pystr CharacterConfig.
Variable Q : DialogueSegment -> Prop.
Hypothesis Q_tag : forall tag_text following_text position,
  Q (tag_segment characters tag_text following_text position).
Hypothesis Q_narration : forall txt position,
  txt <> [] -> Q (narration txt position).

Lemma tags_loop_Forall line ms st :
  Forall Q (fst st) -> Forall Q (fst (tags_loop characters line ms st)).
Proof.
  revert st. induction ms as [|m later IH]; intros [segs pos] Hst; simpl.
  - exact Hst.
  - apply IH. simpl. apply Forall_app. split; [exact Hst|].
    constructor; [apply Q_tag | constructor].
Qed.

Lemma line_step_Forall st line :
  Forall Q (fst st) -> Forall Q (fst (line_step characters st line)).
Proof.
  destruct st as [segs pos]. intros Hst. unfold line_step.
  destruct (truthy (strip line)) eqn:Hl; [|exact Hst].
  destruct (finditer char_pattern (strip line)) as [|m ms].
  - simpl. apply Forall_app. split; [exact Hst|].
    constructor; [|constructor]. apply Q_narration, truthy_true, Hl.
  - apply tags_loop_Forall.
    destruct (0 <? m_start m); [|exact Hst].
    destruct (truthy (strip (take (m_start m) (strip line)))) eqn:Hp;
      [|exact Hst].
    simpl. apply Forall_app. split; [exact Hst|].
    constructor; [|constructor]. apply Q_narration, truthy_true, Hp.
Qed.

Lemma parse_text_Forall txt :
  Forall Q (parse_text_with_characters characters txt).
Proof.
  unfold parse_text_with_characters.
  assert (Hgen : forall lines st,
             Forall Q (fst st) ->
             Forall Q (fst (fold_left (line_step characters) lines st))).
  { induction lines as [|l ls IH]; intros st Hst; simpl; [exact Hst|].
    apply IH, line_step_Forall, Hst. }
  apply Hgen. constructor.
Qed.
End VariantBSegments.

Section TagSegment.
Context `{PyBuiltins}.
Variable characters : gmap pystr CharacterConfig.

Lemma tag_segment_text tag_text following_text position :
  text (tag_segment characters tag_text following_text position)
  = following_text.
Proof.
  unfold tag_segment.
  destruct (_extract_character_content tag_text) as [[[c e] v] t].
  destruct (_ && _), v; reflexivity.
Qed.

Lemma tag_segment_position tag_text following_text position :
  MultiCharacter.position
    (tag_segment characters tag_text following_text position)
  = position.
Proof.
  unfold tag_segment.
  destruct (_extract_character_content tag_text) as [[[c e] v] t].
  destruct (_ && _), v; reflexivity.
Qed.

(** A tag segment is attributed to a registered character, as dialogue
    with a text, or to [narrator], not as dialogue. *)
Lemma tag_segment_attribution tag_text following_text position :
  let seg := tag_segment characters tag_text following_text position in
  (is_Some (characters !! character seg) /\ is_dialogue seg = true
   /\ text seg <> [])
  \/ (character seg = narrator /\ is_dialogue seg = false).
Proof.
  unfold tag_segment.
  destruct (_extract_character_content tag_text) as [[[c e] v] t].
  destruct (bool_decide (is_Some (characters !! c))) eqn:Hc; simpl.
  - apply bool_decide_eq_true in Hc.
    destruct (truthy following_text) eqn:Hf.
    + apply truthy_true in Hf. destruct v; simpl; left; auto.
    + destruct v; simpl; right; auto.
  - destruct v; simpl; right; auto.
Qed.

Lemma tag_segment_without_text tag_text position :
  let seg := tag_segment characters tag_text [] position in
  text seg = [] /\ character seg = narrator /\ is_dialogue seg = false.
Proof.
  unfold tag_segment.
  destruct (_extract_character_content tag_text) as [[[c e] v] t].
  rewrite andb_false_r. destruct v; simpl; auto.
Qed.
End TagSegment.

(** ** Empty texts *)

Section VariantANonEmpty.
Context `{PyBuiltins}.
Variables default_emotion txt : pystr.

Lemma tag_step_nonempty st m :
  Forall (fun seg => LongText.text seg <> []) (LongText.segments st) ->
  Forall (fun seg => LongText.text seg <> [])
    (LongText.segments (LongText.tag_step default_emotion txt st m)).
Proof.
  intros Hst. unfold LongText.tag_step.
  destruct (LongText.tag_emotion_alpha default_emotion m) as [e a]. simpl.
  destruct (LongText.current_pos st <? m_start m); [|exact Hst].
  destruct (truthy _) eqn:Ht; [|exact Hst].
  apply Forall_app. split; [exact Hst|].
  constructor; [|constructor]. simpl. apply truthy_true, Ht.
Qed.

Lemma tag_steps_nonempty ms st :
  Forall (fun seg => LongText.text seg <> []) (LongText.segments st) ->
  Forall (fun seg => LongText.text seg <> [])
    (LongText.segments
       (fold_left (LongText.tag_step default_emotion txt) ms st)).
Proof.
  revert st. induction ms as [|m ms IH]; intros st Hst; simpl.
  - exact Hst.
  - apply IH, tag_step_nonempty, Hst.
Qed.

Lemma parse_emotion_tags_nonempty :
  has_bracket_tag txt \/ strip txt <> [] ->
  Forall (fun seg => LongText.text seg <> [])
    (LongText.parse_emotion_tags default_emotion txt).
Proof.
  intros Hcase. unfold LongText.parse_emotion_tags.
  destruct (finditer LongText.match_bracket_tag txt) as [|m ms] eqn:Hms.
  - destruct Hcase as [Htag|Hne].
    + apply finditer_bracket_nil in Hms. contradiction.
    + constructor; [exact Hne | constructor].
  - set (st := fold_left _ _ _).
    assert (Hst : Forall (fun seg => LongText.text seg <> [])
                    (LongText.segments st)).
    { apply tag_steps_nonempty. constructor. }
    destruct (LongText.current_pos st <? length txt); [|exact Hst].
    destruct (truthy _) eqn:Ht; [|exact Hst].
    apply Forall_app. split; [exact Hst|].
    constructor; [|constructor]. simpl. apply truthy_true, Ht.
Qed.
End VariantANonEmpty.

(** C6 (as amended): Variant A emits segments with a non-empty text on
    every input that contains a bracket tag or is not blank. In Variant B
    every line reads as a text without a tag followed by its tags, each
    with the text up to the next tag, and gives, in this order and between
    the segments of the lines before and after it: the narration of the
    text before the first tag (on a line without a tag, of the line) when
    it is not blank, with the trimmed, non-empty text; and exactly one
    segment for each tag, whose text is the trimmed text that follows the
    tag. So a tag whose following text is empty after trimming is not
    dropped: at its place stands a segment with the empty text, attributed
    to [narrator] and not dialogue. Every dialogue segment has a non-empty
    text, and every segment with an empty text is the segment of such a
    tag of a line of the text. *)
Theorem segment_texts `{PyBuiltins} :
  (forall default_emotion txt,
     has_bracket_tag txt \/ strip txt <> [] ->
     Forall (fun seg => LongText.text seg <> [])
       (LongText.parse_emotion_tags default_emotion txt))
  /\ (forall line : pystr,
        exists pre parts,
          strip line = pre ++ tagged parts /\ well_tagged pre parts)
  /\ (forall characters txt before line after pre parts,
        split_on 10%N txt = before ++ line :: after ->
        strip line = pre ++ tagged parts -> well_tagged pre parts ->
        let earlier := fst (fold_left (line_step characters) before ([], 0)) in
        let position := length earlier in
        let narrated := pre_segments pre position in
        parse_text_with_characters characters txt
        = earlier ++ narrated
          ++ imap (fun j part =>
                     part_segment characters part
                       (position + length narrated + j)) parts
          ++ fst (fold_left (line_step characters) after
                    ([], position + length narrated + length parts))
        /\ Forall (fun seg => text seg <> []
                              /\ seg = narration (text seg) position)
             narrated)
  /\ (forall characters txt before line after pre parts1 c e v t parts2,
        split_on 10%N txt = before ++ line :: after ->
        strip line = pre ++ tagged (parts1 ++ (c, e, v, t) :: parts2) ->
        well_tagged pre (parts1 ++ (c, e, v, t) :: parts2) ->
        strip t = [] ->
        let earlier := fst (fold_left (line_step characters) before ([], 0)) in
        let position :=
          length earlier + length (pre_segments pre (length earlier))
          + length parts1 in
        exists alpha emo_text,
          parse_text_with_characters characters txt !! position
          = Some (mkDialogueSegment [] narrator e alpha false position
                    emo_text))
  /\ (forall characters txt,
        Forall (fun seg =>
                  (is_dialogue seg = true -> text seg <> [])
                  /\ (text seg = [] ->
                      character seg = narrator /\ is_dialogue seg = false
                      /\ exists line pre parts c e v t,
                           In line (split_on 10%N txt)
                           /\ strip line = pre ++ tagged parts
                           /\ well_tagged pre parts
                           /\ In (c, e, v, t) parts
                           /\ strip t = []
                           /\ seg = part_segment characters (c, e, v, t)
                                      (MultiCharacter.position seg)))
          (parse_text_with_characters characters txt)).
Proof.
  split; [intros d txt; apply parse_emotion_tags_nonempty|].
  split; [intros line; apply tagged_shape|].
  split; [|split].
  - intros characters txt before line after pre parts Hsplit Hline Hshape
      earlier position narrated.
    split.
    + rewrite (parse_tagged_line characters txt before line after pre parts
                 Hsplit Hline Hshape).
      fold earlier position. unfold line_segments. fold narrated.
      rewrite length_app, length_imap, <- !app_assoc, Nat.add_assoc.
      reflexivity.
    + subst narrated. unfold pre_segments.
      destruct (truthy (strip pre)) eqn:Hpre; constructor; [|constructor].
      split; [apply truthy_true, Hpre | reflexivity].
  - intros characters txt before line after pre parts1 c e v t parts2
      Hsplit Hline Hshape Hblank earlier position.
    pose proof (parse_tagged_part characters txt before line after pre
                  parts1 (c, e, v, t) parts2 Hsplit Hline Hshape) as Hpart.
    change (parse_text_with_characters characters txt !! position
            = Some (part_segment characters (c, e, v, t) position)) in Hpart.
    destruct (part_segment_without_text characters c e v t position Hblank)
      as (alpha & emo & Hseg).
    exists alpha, emo. rewrite Hpart, Hseg. reflexivity.
  - intros characters txt.
    eapply Forall_impl; [apply parse_text_segments|].
    intros seg [[Hseg Htext]|(line & pre & parts & [[[c e] v] t] & Hin
                              & Hline & Hshape & Hpart & Hseg)].
    + split; [intros _; exact Htext | contradiction].
    + split.
      * intros Hd. rewrite Hseg in Hd |- *.
        rewrite part_segment_text.
        eapply part_segment_dialogue. exact Hd.
      * intros Htext. rewrite Hseg, part_segment_text in Htext.
        destruct (part_segment_without_text characters c e v t
                    (MultiCharacter.position seg) Htext)
          as (alpha & emo & Hempty).
        split; [rewrite Hseg, Hempty; reflexivity|].
        split; [rewrite Hseg, Hempty; reflexivity|].
        exists line, pre, parts, c, e, v, t. auto 10.
Qed.

Lemma segment_texts_witness :
  exists alpha emo_text,
    @parse_text_with_characters ascii_builtins sample_characters
      (utf8 "Once. {[sarah]:[happy:0.5]}  {[sarah]:[sad:0.2]}Bye.") !! 1
    = Some (mkDialogueSegment [] narrator (utf8 "happy") alpha false 1
              emo_text).
Proof.
  refine (proj1 (proj2 (proj2 (proj2 (@segment_texts ascii_builtins))))
            sample_characters
            (utf8 "Once. {[sarah]:[happy:0.5]}  {[sarah]:[sad:0.2]}Bye.")
            []
            (utf8 "Once. {[sarah]:[happy:0.5]}  {[sarah]:[sad:0.2]}Bye.")
            [] (utf8 "Once. ") []
            (utf8 "sarah") (utf8 "happy") (utf8 "0.5") (utf8 "  ")
            [(utf8 "sarah", utf8 "sad", utf8 "0.2", utf8 "Bye.")]
            _ _ _ _).
  - vm_compute. reflexivity.
  - vm_compute. reflexivity.
  - split; [no_tag_tac|].
    repeat (constructor; [split; [tag_parts_tac | no_tag_tac]|]).
    constructor.
  - vm_compute. reflexivity.
Defined.

(** A tag with nothing after it is not dropped: it gives a segment with
    an empty text. *)
Lemma tag_without_text_is_emitted :
  @parse_text_with_characters ascii_builtins sample_characters
    (utf8 "{[sarah]:[happy:0.5]}")
  = [mkDialogueSegment [] narrator (utf8 "happy") 0.5 false 0 None].
Proof. vm_compute. reflexivity. Qed.

(** ** Emotions *)

Lemma dict_of_items_lookup items k v :
  LongText.dict_of_items items !! k = Some v ->
  exists kv, In kv items /\ k = utf8 (fst kv) /\ v = utf8 (snd kv).
Proof.
  unfold LongText.dict_of_items.
  assert (Hgen : forall (m : gmap pystr pystr),
             fold_left (fun m kv => <[utf8 (fst kv) := utf8 (snd kv)]> m)
               items m !! k = Some v ->
             m !! k = Some v
             \/ exists kv, In kv items /\ k = utf8 (fst kv)
                           /\ v = utf8 (snd kv)).
  { induction items as [|kv items IH]; intros m Hm; simpl in Hm.
    - left. exact Hm.
    - destruct (IH _ Hm) as [Hin|(kv' & Hin & Hk & Hv)].
      + apply lookup_insert_Some in Hin.
        destruct Hin as [[Hk Hv]|[_ Hin]].
        * right. exists kv. simpl. auto.
        * left. exact Hin.
      + right. exists kv'. simpl. auto. }
  intros Hm. destruct (Hgen ∅ Hm) as [Hempty|Hin]; [|exact Hin].
  rewrite lookup_empty in Hempty. discriminate.
Qed.

Lemma canonical_values items :
  forallb (fun kv : string * string =>
             bool_decide (utf8 (snd kv) ∈ emotions)) items = true ->
  forall k v, LongText.dict_of_items items !! k = Some v -> canonical v.
Proof.
  intros Hall k v Hkv.
  destruct (dict_of_items_lookup _ _ _ Hkv) as (kv & Hin & _ & ->).
  rewrite forallb_forall in Hall. specialize (Hall kv Hin).
  apply bool_decide_eq_true in Hall. apply list_elem_of_In. exact Hall.
Qed.

Lemma EMOTION_MAPPING_canonical k v :
  LongText.EMOTION_MAPPING !! k = Some v -> canonical v.
Proof. apply canonical_values. vm_compute. reflexivity. Qed.

Lemma emotion_mapping_canonical k v :
  emotion_mapping !! k = Some v -> canonical v.
Proof. apply canonical_values. vm_compute. reflexivity. Qed.

Lemma calm_canonical : canonical calm.
Proof. vm_compute. tauto. Qed.

Lemma index_of_Some e l i : index_of e l = Some i -> i < length l /\ In e l.
Proof.
  revert i. induction l as [|y l IH]; intros i; simpl; [discriminate|].
  destruct (bool_decide (e = y)) eqn:Hy.
  - apply bool_decide_eq_true in Hy. intros Hi. inversion Hi. split; [lia|auto].
  - destruct (index_of e l) as [j|]; simpl; [|discriminate].
    intros Hi. inversion Hi. destruct (IH j eq_refl). split; [lia|auto].
Qed.

Lemma index_of_None e l : index_of e l = None -> ~ In e l.
Proof.
  induction l as [|y l IH]; simpl; [tauto|].
  destruct (bool_decide (e = y)) eqn:Hy; [discriminate|].
  apply bool_decide_eq_false in Hy.
  destruct (index_of e l); simpl; [discriminate|].
  intros _ [Heq|Hin]; [congruence | exact (IH eq_refl Hin)].
Qed.

Section VariantAEmotions.
Context `{PyBuiltins}.
Variables default_emotion txt : pystr.
Hypothesis default_canonical : canonical default_emotion.

Lemma tag_emotion_canonical m :
  canonical (fst (LongText.tag_emotion_alpha default_emotion m)).
Proof.
  unfold LongText.tag_emotion_alpha.
  destruct (LongText.split_colon _) as [[e a]|]; cbv beta iota zeta;
    cbn [fst];
    (destruct (LongText.EMOTION_MAPPING !! _) eqn:Hk;
     cbv beta iota delta [from_option id];
     [eapply EMOTION_MAPPING_canonical; exact Hk | exact default_canonical]).
Qed.

Lemma tag_step_canonical st m :
  canonical_state st ->
  canonical_state (LongText.tag_step default_emotion txt st m).
Proof.
  intros [Hcur Hsegs]. unfold LongText.tag_step.
  pose proof (tag_emotion_canonical m) as Hm.
  destruct (LongText.tag_emotion_alpha default_emotion m) as [e a].
  split; [exact Hm|]. simpl.
  destruct (LongText.current_pos st <? m_start m); [|exact Hsegs].
  destruct (truthy _); [|exact Hsegs].
  apply Forall_app. split; [exact Hsegs|].
  constructor; [exact Hcur | constructor].
Qed.

Lemma parse_emotion_tags_canonical :
  Forall (fun seg => canonical (LongText.emotion seg))
    (LongText.parse_emotion_tags default_emotion txt).
Proof.
  unfold LongText.parse_emotion_tags.
  destruct (finditer LongText.match_bracket_tag txt) as [|m ms].
  - constructor; [exact default_canonical | constructor].
  - set (st := fold_left _ _ _).
    assert (Hst : canonical_state st).
    { subst st. generalize (m :: ms). intros l.
      assert (Hinit : canonical_state
                        (LongText.mkParseState [] 0 default_emotion 1)).
      { split; [exact default_canonical | constructor]. }
      revert Hinit. generalize (LongText.mkParseState [] 0 default_emotion 1).
      induction l as [|x l IH]; intros st0 Hst0; simpl; [exact Hst0|].
      apply IH, tag_step_canonical, Hst0. }
    destruct Hst as [Hcur Hsegs].
    destruct (LongText.current_pos st <? length txt); [|exact Hsegs].
    destruct (truthy _); [|exact Hsegs].
    apply Forall_app. split; [exact Hsegs|].
    constructor; [exact Hcur | constructor].
Qed.
End VariantAEmotions.

Lemma emotion_vector_slot e a :
  slot (_create_emotion_vector e a) < 8
  /\ (forall i, index_of e emotions = Some i ->
                slot (_create_emotion_vector e a) = i)
  /\ (~ canonical e -> slot (_create_emotion_vector e a) = 7)
  /\ weight (_create_emotion_vector e a) = float32 a.
Proof.
  unfold _create_emotion_vector.
  destruct (index_of e emotions) as [i|] eqn:Hi; simpl.
  - destruct (index_of_Some _ _ _ Hi) as [Hlt Hin].
    repeat split; [exact Hlt | congruence | intros Hno; contradiction].
  - repeat split; [lia | discriminate].
Qed.

(** C2: the emotion of a Variant B segment is not normalised. The
    synonym tables map every token they hold to a member of the
    enumeration, and [_map_emotion] maps every token to a member, [calm]
    when the table does not hold it. Variant A gives a segment the member
    its tag token maps to, or the default emotion of the caller when the
    table does not hold the token and before the first tag; with a
    canonical default every segment of Variant A carries a member of the
    enumeration. Variant B does not consult [_map_emotion]: the segment of
    a tag carries the emotion token of the tag as it is written, also when
    it is no member of the enumeration, and every segment carries [calm]
    (narration) or the token of a tag of a line of the text. The emotion
    vector built for a segment holds the alpha, rounded to float32, in the
    slot of the emotion when it is a member of the enumeration and in the
    slot of [calm] otherwise. So for the script
    [{[sarah]:[excited:0.5]}Hi] with [sarah] registered the segment
    carries [excited], which is no member and which [_map_emotion] maps to
    [happy], and the [infer] call is made with the weight in the slot of
    [calm], where the vector of [happy] has it in slot 0. *)
Theorem emotion_token_not_normalised `{PyBuiltins} :
  (forall k v, LongText.EMOTION_MAPPING !! k = Some v -> canonical v)
  /\ (forall k v, emotion_mapping !! k = Some v -> canonical v)
  /\ (forall emotion_name,
        canonical (_map_emotion emotion_name)
        /\ (emotion_mapping !! py_lower emotion_name = None ->
            _map_emotion emotion_name = calm)
        /\ (forall v, emotion_mapping !! py_lower emotion_name = Some v ->
                      _map_emotion emotion_name = v))
  /\ (forall default_emotion m,
        let tag_content := strip (py_lower (m_group1 m)) in
        let emotion_name :=
          match LongText.split_colon tag_content with
          | Some (emotion_part, _) => strip emotion_part
          | None => tag_content
          end in
        fst (LongText.tag_emotion_alpha default_emotion m)
        = default default_emotion (LongText.EMOTION_MAPPING !! emotion_name))
  /\ (forall default_emotion txt,
        canonical default_emotion ->
        Forall (fun seg => canonical (LongText.emotion seg))
          (LongText.parse_emotion_tags default_emotion txt))
  /\ (forall characters txt before line after pre parts1 c token v t parts2,
        split_on 10%N txt = before ++ line :: after ->
        strip line = pre ++ tagged (parts1 ++ (c, token, v, t) :: parts2) ->
        well_tagged pre (parts1 ++ (c, token, v, t) :: parts2) ->
        let earlier := fst (fold_left (line_step characters) before ([], 0)) in
        let position :=
          length earlier + length (pre_segments pre (length earlier))
          + length parts1 in
        exists seg,
          parse_text_with_characters characters txt !! position = Some seg
          /\ emotion seg = token
          /\ (~ canonical token -> ~ canonical (emotion seg)))
  /\ (forall characters txt,
        Forall (fun seg =>
                  emotion seg = calm
                  \/ exists line pre parts c token v t,
                       In line (split_on 10%N txt)
                       /\ strip line = pre ++ tagged parts
                       /\ well_tagged pre parts
                       /\ In (c, token, v, t) parts
                       /\ emotion seg = token)
          (parse_text_with_characters characters txt))
  /\ (forall e a,
        slot (_create_emotion_vector e a) < 8
        /\ (forall i, index_of e emotions = Some i ->
                      slot (_create_emotion_vector e a) = i)
        /\ (~ canonical e -> slot (_create_emotion_vector e a) = 7)
        /\ weight (_create_emotion_vector e a) = float32 a)
  /\ index_of calm emotions = Some 7
  /\ (let script := utf8 "{[sarah]:[excited:0.5]}Hi" in
      @parse_text_with_characters ascii_builtins sample_characters script
      = [mkDialogueSegment (utf8 "Hi") (utf8 "sarah") (utf8 "excited") 0.5
           true 0 None]
      /\ ~ canonical (utf8 "excited")
      /\ @_map_emotion ascii_builtins (utf8 "excited") = utf8 "happy"
      /\ infer_calls
           (@generate_audio ascii_builtins sample_characters
              (Some (fun _ => true)) script 200)
         = [mkInferRequest (utf8 "voice.wav") (utf8 "Hi") 0 None
              (Some (mkEmotionVector 7 0.60000002384185791))
              (Some 0.59999999999999998%float) 0]
      /\ _create_emotion_vector (utf8 "happy") 0.59999999999999998
         = mkEmotionVector 0 0.60000002384185791).
Proof.
  split; [exact EMOTION_MAPPING_canonical|].
  split; [exact emotion_mapping_canonical|].
  split.
  { intros n. unfold _map_emotion.
    destruct (emotion_mapping !! py_lower n) as [v|] eqn:Hk;
      cbv beta iota delta [from_option id].
    - split; [eapply emotion_mapping_canonical; exact Hk|].
      split; [discriminate | congruence].
    - split; [exact calm_canonical|]. split; [reflexivity | discriminate]. }
  split.
  { intros d m tag_content emotion_name.
    unfold LongText.tag_emotion_alpha. fold tag_content.
    subst emotion_name.
    destruct (LongText.split_colon tag_content) as [[e a]|]; reflexivity. }
  split; [intros d txt Hd; apply parse_emotion_tags_canonical; exact Hd|].
  split.
  { intros characters txt before line after pre parts1 c token v t parts2
      Hsplit Hline Hshape earlier position.
    pose proof (parse_tagged_part characters txt before line after pre
                  parts1 (c, token, v, t) parts2 Hsplit Hline Hshape)
      as Hpart.
    change (parse_text_with_characters characters txt !! position
            = Some (part_segment characters (c, token, v, t) position))
      in Hpart.
    eexists. split; [exact Hpart|].
    rewrite part_segment_emotion. split; [reflexivity | tauto]. }
  split.
  { intros characters txt.
    eapply Forall_impl; [apply parse_text_segments|].
    intros seg [[Hseg _]|(line & pre & parts & [[[c e] v] t] & Hin
                          & Hline & Hshape & Hpart & Hseg)].
    - left. rewrite Hseg. reflexivity.
    - right. exists line, pre, parts, c, e, v, t.
      rewrite Hseg at 1. rewrite part_segment_emotion. auto 10. }
  split; [exact emotion_vector_slot|].
  split; [vm_compute; reflexivity|].
  cbv zeta.
  split; [vm_compute; reflexivity|].
  split.
  { intros Hin. vm_compute in Hin.
    repeat (destruct Hin as [Hin|Hin]; [discriminate|]). exact Hin. }
  split; [vm_compute; reflexivity|].
  split; vm_compute; reflexivity.
Qed.

Lemma emotion_token_not_normalised_witness :
  exists seg,
    @parse_text_with_characters ascii_builtins sample_characters
      (utf8 "Well. {[sarah]:[happy:0.5]}Hello {[sarah]:[bored:0.7]}Bye")
      !! 2 = Some seg
    /\ emotion seg = utf8 "bored".
Proof.
  destruct (proj1 (proj2 (proj2 (proj2 (proj2 (proj2
              (@emotion_token_not_normalised ascii_builtins))))))
              sample_characters
              (utf8 "Well. {[sarah]:[happy:0.5]}Hello {[sarah]:[bored:0.7]}Bye")
              []
              (utf8 "Well. {[sarah]:[happy:0.5]}Hello {[sarah]:[bored:0.7]}Bye")
              [] (utf8 "Well. ")
              [(utf8 "sarah", utf8 "happy", utf8 "0.5", utf8 "Hello ")]
              (utf8 "sarah") (utf8 "bored") (utf8 "0.7") (utf8 "Bye") [])
    as (seg & Hseg & Hemo & _).
  - vm_compute. reflexivity.
  - vm_compute. reflexivity.
  - split; [no_tag_tac|].
    repeat (constructor; [split; [tag_parts_tac | no_tag_tac]|]).
    constructor.
  - exists seg. split; [exact Hseg | exact Hemo].
Defined.

(** ** Splitting long segments *)

Section Split.
Variable self : TextSegmenter.
Variable segment : DialogueSegment.

Lemma sentence_step_from_parent sentence st :
  Forall (from_parent segment) (snd st) ->
  Forall (from_parent segment) (snd (sentence_step self segment sentence st)).
Proof.
  destruct st as [cur segs]. intros Hst. unfold sentence_step.
  destruct (_ && _); simpl; [|exact Hst].
  apply Forall_app. split; [exact Hst|].
  constructor; [exists cur; reflexivity | constructor].
Qed.

Lemma sentences_loop_from_parent sentences st :
  Forall (from_parent segment) (snd st) ->
  Forall (from_parent segment) (snd (sentences_loop self segment sentences st)).
Proof.
  revert st. induction sentences as [sentences IH] using
    (well_founded_induction (well_founded_ltof _ (@length pystr))).
  intros st Hst. destruct sentences as [|piece [|sep later]]; simpl.
  - exact Hst.
  - apply sentence_step_from_parent, Hst.
  - apply IH; [unfold ltof; simpl; lia|].
    apply sentence_step_from_parent, Hst.
Qed.

(** What the split keeps of the parent, and what it does not: character,
    emotion, alpha, dialogue flag and position are the parent's, and
    [emo_text] is [None]. *)
Lemma split_long_segment_fields :
  Forall (fun chunk =>
            character chunk = character segment
            /\ emotion chunk = emotion segment
            /\ alpha chunk = alpha segment
            /\ is_dialogue chunk = is_dialogue segment
            /\ position chunk = position segment
            /\ emo_text chunk = None)
    (_split_long_segment self segment).
Proof.
  assert (Hall : Forall (from_parent segment) (_split_long_segment self segment)).
  { unfold _split_long_segment.
    pose proof (sentences_loop_from_parent
                  (re_split is_sentence_end (text segment)) ([], [])
                  ltac:(constructor)) as Hloop.
    destruct (sentences_loop _ _ _ _) as [cur segs]. simpl in Hloop.
    destruct (truthy cur); [|exact Hloop].
    apply Forall_app. split; [exact Hloop|].
    constructor; [exists cur; reflexivity | constructor]. }
  eapply Forall_impl; [exact Hall|].
  intros chunk [cur ->]. simpl. auto 10.
Qed.
End Split.

(** C3: the chunks of a split segment have the character, emotion, alpha,
    dialogue flag and position of their parent, but not its descriptive
    emotion text. With a budget of 10 characters the descriptive segment
    [great_news] (21 characters) is split, and every chunk has [emo_text]
    [None] where the parent has [excited: very enthusiastic]. *)
Theorem split_drops_emo_text :
  emo_text great_news = Some (utf8 "excited: very enthusiastic")
  /\ segment_dialogue (mkTextSegmenter 10 30) [great_news]
     = [mkDialogueSegment (utf8 "Great news!") (utf8 "sarah")
          (utf8 "excited") 0.8 true 0 None;
        mkDialogueSegment (utf8 "Great news! It works.") (utf8 "sarah")
          (utf8 "excited") 0.8 true 0 None;
        mkDialogueSegment (utf8 "Great news! It works.") (utf8 "sarah")
          (utf8 "excited") 0.8 true 0 None]
  /\ segment_dialogue (mkTextSegmenter 200 30) [great_news] = [great_news].
Proof. vm_compute. repeat split; reflexivity. Qed.

(** ** Descriptive emotion text at the synthesis boundary *)

(** C8: a descriptive tag gives a segment with alpha 0.8 and the emotion
    text [excited: very enthusiastic]; within the budget of 200 characters
    the one chunk keeps both and the [infer] call carries the text. With
    a budget of 10 characters the same segment is split, and no [infer]
    call carries the descriptive text: the chunks go out with an emotion
    vector instead, which holds in the slot of [calm] the alpha 0.96 of
    the call rounded to float32. *)
Theorem descriptive_text_at_the_boundary :
  @parse_text_with_characters ascii_builtins sample_characters
    great_news_script
  = [great_news]
  /\ alpha great_news = 0.8%float
  /\ map infer_emo_text
       (infer_calls
          (@generate_audio ascii_builtins sample_characters
             (Some (fun _ => true)) great_news_script 200))
     = [Some (utf8 "excited: very enthusiastic")]
  /\ map infer_emo_text
       (infer_calls
          (@generate_audio ascii_builtins sample_characters
             (Some (fun _ => true)) great_news_script 10))
     = [None; None; None]
  /\ map emo_vector
       (infer_calls
          (@generate_audio ascii_builtins sample_characters
             (Some (fun _ => true)) great_news_script 10))
     = [Some (mkEmotionVector 7 0.9599999785423279);
        Some (mkEmotionVector 7 0.9599999785423279);
        Some (mkEmotionVector 7 0.9599999785423279)]
  /\ map emo_alpha
       (infer_calls
          (@generate_audio ascii_builtins sample_characters
             (Some (fun _ => true)) great_news_script 10))
     = [Some 0.96%float; Some 0.96%float; Some 0.96%float].
Proof. vm_compute. repeat split; reflexivity. Qed.

(** ** Resolving characters *)

Lemma parse_characters_lookup config k c :
  _parse_characters config !! k = Some c -> In (k, c) config.
Proof.
  unfold _parse_characters.
  assert (Hgen : forall (m : gmap pystr CharacterConfig),
             fold_left (fun characters item =>
                          <[fst item := snd item]> characters) config m !! k
             = Some c ->
             m !! k = Some c \/ In (k, c) config).
  { induction config as [|[k' c'] config IH]; intros m Hm; simpl in Hm.
    - left. exact Hm.
    - destruct (IH _ Hm) as [Hin|Hin]; [|right; right; exact Hin].
      apply lookup_insert_Some in Hin. simpl in Hin.
      destruct Hin as [[-> ->]|[_ Hin]]; [right; left; reflexivity|].
      left. exact Hin. }
  intros Hm. destruct (Hgen ∅ Hm) as [Hempty|Hin]; [|exact Hin].
  rewrite lookup_empty in Hempty. discriminate.
Qed.

(** The registry holds the ids of the configuration and no other: no
    [narrator] entry is made for a configuration without one. *)
Lemma parse_characters_no_narrator config :
  ~ In narrator (map fst config) ->
  _parse_characters config !! narrator = None.
Proof.
  intros Hno. destruct (_parse_characters config !! narrator) as [c|] eqn:Hk;
    [|reflexivity].
  exfalso. apply Hno. apply parse_characters_lookup in Hk.
  apply in_map_iff. exists (narrator, c). auto.
Qed.

(** C4: with a configuration that defines [sarah] only, the registry has
    no [narrator]; the untagged line [Hello world] is attributed to
    [narrator], and dispatching it raises [KeyError] out of
    [generate_audio] instead of being resolved. *)
Theorem missing_narrator_raises :
  sarah_only !! narrator = None
  /\ @parse_text_with_characters ascii_builtins sarah_only
       (utf8 "Hello world")
     = [mkDialogueSegment (utf8 "Hello world") narrator calm 0 false 0 None]
  /\ _generate_segment_audio sarah_only (Some (fun _ => true))
       (mkDialogueSegment (utf8 "Hello world") narrator calm 0 false 0 None)
       0
     = mkRun [] (Raise (KeyError narrator))
  /\ @generate_audio ascii_builtins sarah_only (Some (fun _ => true))
       (utf8 "Hello world") 200
     = mkRun [] (Raise (KeyError narrator)).
Proof. vm_compute. repeat split; reflexivity. Qed.

(** ** Dispatching *)

Section Dispatch.
Context `{PyBuiltins}.
Variable characters : gmap pystr CharacterConfig.
Variable tts_model : option TTSModel.





Lemma segment_dialogue_Forall (Q : DialogueSegment -> Prop) self segments :
  (forall segment, Q segment -> Forall Q (_split_long_segment self segment)) ->
  Forall Q segments -> Forall Q (segment_dialogue self segments).
Proof.
  intros Hsplit Hall. unfold segment_dialogue.
  assert (Hgen : forall acc, Forall Q acc ->
             Forall Q (fold_left
                         (fun segmented segment =>
                            if (len (text segment) <=? max_chars self)%Z
                            then segmented ++ [segment]
                            else segmented ++ _split_long_segment self segment)
                         segments acc)).
  { induction Hall as [|seg segs Hseg Hsegs IH]; intros acc Hacc; simpl.
    - exact Hacc.
    - apply IH. destruct (_ <=? _)%Z; apply Forall_app; split; auto. }
  apply Hgen. constructor.
Qed.


(** The character of every chunk is registered or is [narrator]. *)
Lemma chunks_attributed txt self :
  Forall (fun chunk => is_Some (characters !! character chunk)
                       \/ character chunk = narrator)
    (segment_dialogue self (parse_text_with_characters characters txt)).
Proof.
  apply segment_dialogue_Forall.
  - intros seg Hseg.
    eapply Forall_impl; [apply split_long_segment_fields|].
    intros chunk (Hc & _). simpl. rewrite Hc. exact Hseg.
  - apply parse_text_Forall.
    + intros tag follow pos.
      destruct (tag_segment_attribution characters tag follow pos)
        as [(Hreg & _)|(Hnar & _)]; [left; exact Hreg | right; exact Hnar].
    + intros t pos _. right. reflexivity.
Qed.
End Dispatch.

Section UnregisteredChunk.
Context `{PyBuiltins}.
Variable characters : gmap pystr CharacterConfig.
Variable tts_model : option TTSModel.

End UnregisteredChunk.

Section DispatchRuns.
Context `{PyBuiltins}.
Variable characters : gmap pystr CharacterConfig.
Variable tts_model : option TTSModel.

End DispatchRuns.



(** Three of five chunks fail: the two that succeed are assembled, in
    their order. *)
Example two_of_five_chunks :
  let run :=
    @generate_audio ascii_builtins sample_characters
      (Some (fun request => Nat.odd (output_path request)))
      (utf8 "One." ++ [10%N] ++ utf8 "{[sarah]:[happy:0.9]}Two!" ++ [10%N]
       ++ utf8 "Three." ++ [10%N] ++ utf8 "Four." ++ [10%N] ++ utf8 "Five.")
      200 in
  outcome run = Ok (Generated [1; 3])
  /\ map output_path (infer_calls run) = [0; 1; 2; 3; 4].
Proof. vm_compute. split; reflexivity. Qed.

(** ** Tags that name an unregistered character *)

Section SegmentCount.
Context `{PyBuiltins}.

Lemma tags_loop_count chars line ms segs pos :
  length (fst (tags_loop chars line ms (segs, pos)))
  = length segs + length ms.
Proof.
  rewrite (tags_loop_shift chars line ms segs pos). cbn [fst].
  rewrite length_app, tags_loop_length. reflexivity.
Qed.

(** The number of segments a line gives depends on its text alone. *)
Lemma line_step_count chars1 chars2 p1 p2 line :
  length (fst (line_step chars1 ([], p1) line))
  = length (fst (line_step chars2 ([], p2) line)).
Proof.
  unfold line_step. destruct (truthy (strip line)); [|reflexivity].
  destruct (finditer char_pattern (strip line)) as [|m ms]; [reflexivity|].
  destruct (0 <? m_start m);
    [destruct (truthy (strip (take (m_start m) (strip line))))|];
    rewrite !tags_loop_count; reflexivity.
Qed.

Lemma lines_count chars1 chars2 lines p1 p2 :
  length (fst (fold_left (line_step chars1) lines ([], p1)))
  = length (fst (fold_left (line_step chars2) lines ([], p2))).
Proof.
  revert p1 p2. induction lines as [|l ls IH]; intros p1 p2; [reflexivity|].
  cbn [fold_left].
  rewrite (line_step_shift chars1 [] p1), (line_step_shift chars2 [] p2).
  cbn [app].
  rewrite (lines_shift chars1 ls (fst (line_step chars1 ([], p1) l))).
  rewrite (lines_shift chars2 ls (fst (line_step chars2 ([], p2) l))).
  cbn [fst]. rewrite !length_app.
  rewrite (line_step_count chars1 chars2 p1 p2 l). f_equal. apply IH.
Qed.
End SegmentCount.

Section UnregisteredCharacter.
Context `{PyBuiltins}.
Variable characters : gmap pystr CharacterConfig.

(** C10: in a text parsed by Variant B, take a tag of a line that names a
    character id absent from the registry. The segment emitted for it, at
    the place of the tag among the segments of the text, has the trimmed
    text that follows the tag, is attributed to [narrator] and is not
    dialogue, and carries the emotion token of the tag as written. A value
    that reads as a float becomes the alpha, clamped to the interval from
    0 to 1; any other value gives alpha 0.8 and the emotion text made of
    the token, a colon and a space, and the value. When the text that
    follows the tag is not blank, the same text with the character
    registered gives at the same place the same segment but for the
    character and the dialogue flag. *)
Theorem unregistered_character_tag (txt : pystr)
    (before : list pystr) (line : pystr) (after : list pystr)
    (pre : pystr) (parts1 : list TaggedPart)
    (char_id token value following : pystr) (parts2 : list TaggedPart) :
  split_on 10%N txt = before ++ line :: after ->
  strip line
  = pre ++ tagged (parts1 ++ (char_id, token, value, following) :: parts2) ->
  well_tagged pre (parts1 ++ (char_id, token, value, following) :: parts2) ->
  characters !! char_id = None ->
  let earlier := fst (fold_left (line_step characters) before ([], 0)) in
  let position :=
    length earlier + length (pre_segments pre (length earlier))
    + length parts1 in
  exists seg,
    parse_text_with_characters characters txt !! position = Some seg
    /\ text seg = strip following
    /\ character seg = narrator
    /\ is_dialogue seg = false
    /\ emotion seg = token
    /\ MultiCharacter.position seg = position
    /\ match py_float value with
       | Some intensity =>
           alpha seg = pymax 0 (pymin 1 intensity)
           /\ PrimFloat.leb 0 (alpha seg) = true
           /\ PrimFloat.leb (alpha seg) 1 = true
           /\ emo_text seg = None
       | None =>
           alpha seg = 0.8%float
           /\ emo_text seg = Some (token ++ utf8 ": " ++ value)
       end
    /\ (strip following <> [] ->
        forall config,
          parse_text_with_characters (<[char_id := config]> characters) txt
            !! position
          = Some (mkDialogueSegment (text seg) char_id (emotion seg)
                    (alpha seg) true (MultiCharacter.position seg)
                    (emo_text seg))).
Proof.
  intros Hsplit Hline Hshape Hnone earlier position.
  pose proof (parse_tagged_part characters txt before line after pre parts1
                (char_id, token, value, following) parts2 Hsplit Hline Hshape)
    as Hpart.
  change (parse_text_with_characters characters txt !! position
          = Some (part_segment characters (char_id, token, value, following)
                    position)) in Hpart.
  assert (Hthere : forall config,
             parse_text_with_characters (<[char_id := config]> characters) txt
               !! position
             = Some (part_segment (<[char_id := config]> characters)
                       (char_id, token, value, following) position)).
  { intros config.
    pose proof (parse_tagged_part (<[char_id := config]> characters) txt
                  before line after pre parts1
                  (char_id, token, value, following) parts2
                  Hsplit Hline Hshape) as Hpart'.
    cbv zeta in Hpart'.
    rewrite (lines_count (<[char_id := config]> characters) characters
               before 0 0) in Hpart'.
    rewrite (pre_segments_length pre _ (length earlier)) in Hpart'.
    exact Hpart'. }
  assert (Hreg : forall config,
             bool_decide (is_Some (<[char_id := config]> characters
                                     !! char_id)) = true).
  { intros config. apply bool_decide_eq_true.
    rewrite lookup_insert_eq. eauto. }
  assert (Hunreg : bool_decide (is_Some (characters !! char_id)) = false).
  { apply bool_decide_eq_false. rewrite Hnone. intros [x Hx]. discriminate. }
  eexists. split; [exact Hpart|].
  unfold part_segment. rewrite Hunreg. cbn [andb].
  destruct (py_float value) as [intensity|] eqn:Hvalue;
    cbn [text character is_dialogue emotion alpha emo_text
         MultiCharacter.position].
  - destruct (clamp_unit_interval intensity) as [Hlo Hhi].
    repeat split; try assumption.
    intros Hfollow config. apply truthy_true in Hfollow.
    rewrite Hthere. unfold part_segment.
    rewrite Hreg, Hfollow, Hvalue. reflexivity.
  - repeat split.
    intros Hfollow config. apply truthy_true in Hfollow.
    rewrite Hthere. unfold part_segment.
    rewrite Hreg, Hfollow, Hvalue. reflexivity.
Qed.
End UnregisteredCharacter.

Lemma unregistered_character_tag_witness :
  exists seg,
    @parse_text_with_characters ascii_builtins sample_characters
      (utf8 "Intro {[sarah]:[happy:0.5]}Hello {[jake]:[sad:1.5]}Hi there!")
      !! 2 = Some seg
    /\ text seg = utf8 "Hi there!"
    /\ character seg = narrator
    /\ is_dialogue seg = false
    /\ emotion seg = utf8 "sad"
    /\ alpha seg = 1%float.
Proof.
  destruct (@unregistered_character_tag ascii_builtins sample_characters
              (utf8 "Intro {[sarah]:[happy:0.5]}Hello {[jake]:[sad:1.5]}Hi there!")
              []
              (utf8 "Intro {[sarah]:[happy:0.5]}Hello {[jake]:[sad:1.5]}Hi there!")
              [] (utf8 "Intro ")
              [(utf8 "sarah", utf8 "happy", utf8 "0.5", utf8 "Hello ")]
              (utf8 "jake") (utf8 "sad") (utf8 "1.5") (utf8 "Hi there!") [])
    as (seg & Hseg & Htext & Hchar & Hdial & Hemo & _ & Halpha & _).
  - vm_compute. reflexivity.
  - vm_compute. reflexivity.
  - split; [no_tag_tac|].
    repeat (constructor; [split; [tag_parts_tac | no_tag_tac]|]).
    constructor.
  - vm_compute. reflexivity.
  - exists seg. split; [exact Hseg|]. split; [exact Htext|].
    split; [exact Hchar|]. split; [exact Hdial|]. split; [exact Hemo|].
    exact (proj1 Halpha).
Defined.

Example unregistered_character_description :
  @parse_text_with_characters ascii_builtins sample_characters
    (utf8 "{[tom]:[calm:calm and professional]}Let me explain.")
  = [mkDialogueSegment (utf8 "Let me explain.") narrator (utf8 "calm") 0.8
       false 0 (Some (utf8 "calm: calm and professional"))].
Proof. vm_compute. reflexivity. Qed.

(** * Further properties of the code

    What follows is read off the code alone: the structure of the parsed
    segments, the chunks of the segmenters, and the runs of the
    generators and of the script processor. *)

(** ** The segments of Variant A *)

Lemma match_bracket_tag_progress s g rest :
  LongText.match_bracket_tag s = Some (g, rest) -> length rest < length s.
Proof.
  intros Hm. apply match_bracket_tag_Some in Hm. destruct Hm as (-> & _).
  rewrite !length_app. simpl. lia.
Qed.

Lemma has_bracket_tag_strip s : has_bracket_tag (strip s) -> has_bracket_tag s.
Proof.
  destruct (strip_split s) as (w1 & w2 & Hs & _).
  intros (pre & body & post & Heq & Hbody).
  exists (w1 ++ pre), body, (post ++ w2). split; [|exact Hbody].
  rewrite Hs at 1. rewrite Heq, <- !app_assoc. reflexivity.
Qed.

(** A piece of the text in which no match starts holds no tag. *)
Lemma no_bracket_tag_between txt a n :
  (forall k, a <= k < a + n -> LongText.match_bracket_tag (drop k txt) = None) ->
  ~ has_bracket_tag (take n (drop a txt)).
Proof.
  intros Hnone (pre & body & post & Heq & Hne & Hbody).
  assert (Hlen : length pre < n).
  { apply (f_equal length) in Heq. rewrite length_take, !length_app in Heq.
    simpl in Heq. lia. }
  specialize (Hnone (a + length pre) ltac:(lia)).
  assert (Hd : drop (a + length pre) txt
               = [91%N] ++ body ++ [93%N] ++ (post ++ drop n (drop a txt))).
  { rewrite <- drop_drop. set (u := drop a txt) in *.
    transitivity (drop (length pre)
                    ((pre ++ [91%N] ++ body ++ [93%N] ++ post) ++ drop n u)).
    - f_equal. rewrite <- Heq. symmetry. apply take_drop.
    - rewrite <- app_assoc, drop_app_length, <- !app_assoc. reflexivity. }
  rewrite Hd in Hnone.
  assert (Hm : LongText.match_bracket_tag
                 ([91%N] ++ body ++ [93%N] ++ (post ++ drop n (drop a txt)))
               = Some (body, post ++ drop n (drop a txt))).
  { apply match_bracket_tag_Some. auto. }
  congruence.
Qed.

Lemma sorted_snoc l x :
  StronglySorted lt l -> Forall (fun y => y < x) l ->
  StronglySorted lt (l ++ [x]).
Proof.
  induction 1 as [|y l Hl IH Hy]; intros Hall; simpl.
  - repeat constructor.
  - inversion Hall; subst. constructor; [apply IH; assumption|].
    apply Forall_app. split; [exact Hy|]. repeat constructor. assumption.
Qed.

Section VariantAPieces.
Context `{PyBuiltins}.
Variables default_emotion txt : pystr.

Lemma tag_steps_pieces cur ms :
  scanned LongText.match_bracket_tag txt cur ms ->
  forall st,
    LongText.current_pos st = cur ->
    StronglySorted lt (map LongText.position (LongText.segments st)) ->
    Forall (fun seg => LongText.position seg < cur
                       /\ LongText.text seg <> [] /\ piece_of txt seg)
      (LongText.segments st) ->
    let st' := fold_left (LongText.tag_step default_emotion txt) ms st in
    cur <= LongText.current_pos st'
    /\ (cur < LongText.current_pos st' \/ ms = [])
    /\ (forall k, LongText.current_pos st' <= k < length txt ->
                  LongText.match_bracket_tag (drop k txt) = None)
    /\ StronglySorted lt (map LongText.position (LongText.segments st'))
    /\ Forall (fun seg => LongText.position seg < LongText.current_pos st'
                          /\ LongText.text seg <> [] /\ piece_of txt seg)
         (LongText.segments st').
Proof.
  induction 1 as [cur Hnone|cur m ms rest Hnone Hmatch Hle Hlt Hend Hms IH];
    intros st Hcur Hsorted Hall; simpl.
  - rewrite Hcur. repeat split; auto.
  - set (st1 := LongText.tag_step default_emotion txt st m).
    assert (Hst1 : LongText.current_pos st1 = m_end m).
    { subst st1. unfold LongText.tag_step.
      destruct (LongText.tag_emotion_alpha default_emotion m). reflexivity. }
    assert (Hsegs :
      StronglySorted lt (map LongText.position (LongText.segments st1))
      /\ Forall (fun seg => LongText.position seg < m_end m
                            /\ LongText.text seg <> [] /\ piece_of txt seg)
           (LongText.segments st1)).
    { assert (Hold : Forall (fun seg => LongText.position seg < m_end m
                               /\ LongText.text seg <> [] /\ piece_of txt seg)
                       (LongText.segments st)).
      { eapply Forall_impl; [exact Hall|]. simpl. intros seg (Hp & Hq).
        split; [lia | exact Hq]. }
      subst st1. unfold LongText.tag_step.
      destruct (LongText.tag_emotion_alpha default_emotion m) as [e a].
      cbn [LongText.segments]. rewrite Hcur.
      destruct (cur <? m_start m) eqn:Hgap; [|split; assumption].
      destruct (truthy _) eqn:Ht; [|split; assumption].
      split.
      - rewrite map_app. apply sorted_snoc; [exact Hsorted|].
        apply Forall_map. eapply Forall_impl; [exact Hall|].
        simpl. intros seg (Hp & _). exact Hp.
      - apply Forall_app. split; [exact Hold|].
        constructor; [|constructor]. simpl.
        split; [lia|]. split; [apply truthy_true, Ht|].
        split; [exists (m_start m - cur); reflexivity|].
        simpl. intros Htag. apply has_bracket_tag_strip in Htag.
        revert Htag. unfold slice. apply no_bracket_tag_between.
        intros k Hk. apply Hnone. apply Nat.ltb_lt in Hgap. lia. }
    destruct Hsegs as [Hsorted1 Hall1].
    destruct (IH st1 Hst1 Hsorted1 Hall1) as (Hge & _ & Hfinal & Hs' & Ha').
    fold st1. repeat split; auto; try lia; left; lia.
Qed.

(** Both facts about the segments of Variant A at once. *)
Lemma parse_emotion_tags_pieces :
  StronglySorted lt
    (map LongText.position (LongText.parse_emotion_tags default_emotion txt))
  /\ Forall (piece_of txt) (LongText.parse_emotion_tags default_emotion txt).
Proof.
  unfold LongText.parse_emotion_tags.
  pose proof (finditer_scanned _ match_bracket_tag_progress txt) as Hscan.
  destruct (finditer LongText.match_bracket_tag txt) as [|m ms] eqn:Hms.
  - split; [repeat constructor|].
    constructor; [|constructor]. split.
    + exists (length txt). cbn [LongText.position LongText.text].
      rewrite take_ge; [reflexivity | rewrite length_drop; lia].
    + simpl. intros Htag. apply has_bracket_tag_strip in Htag.
      apply finditer_bracket_nil in Hms. contradiction.
  - destruct (tag_steps_pieces 0 (m :: ms) Hscan
                (LongText.mkParseState [] 0 default_emotion 1) eq_refl
                ltac:(constructor) ltac:(constructor))
      as (_ & _ & Hfinal & Hsorted & Hall).
    set (st := fold_left _ _ _) in *.
    assert (Hpieces : Forall (piece_of txt) (LongText.segments st)).
    { eapply Forall_impl; [exact Hall|]. simpl. tauto. }
    destruct (LongText.current_pos st <? length txt) eqn:Hrem;
      [|split; assumption].
    destruct (truthy _) eqn:Ht; [|split; assumption].
    split.
    + rewrite map_app. apply sorted_snoc; [exact Hsorted|].
      apply Forall_map. eapply Forall_impl; [exact Hall|]. simpl. tauto.
    + apply Forall_app. split; [exact Hpieces|].
      constructor; [|constructor]. split; simpl.
      * exists (length txt). rewrite take_ge; [reflexivity|].
        rewrite length_drop. lia.
      * intros Htag. apply has_bracket_tag_strip in Htag.
        rewrite <- (take_ge (drop (LongText.current_pos st) txt) (length txt))
          in Htag by (rewrite length_drop; lia).
        revert Htag. apply no_bracket_tag_between.
        intros k Hk. destruct (decide (k < length txt)) as [Hlt|Hge].
        -- apply Hfinal. lia.
        -- rewrite drop_ge by lia. reflexivity.
Qed.

(** X1: the segments of Variant A come in the order of the text: their
    positions increase strictly, and the text of each is a piece of the
    input that starts at its position, with the white space at both ends
    removed. *)
Theorem parse_emotion_tags_positions :
  StronglySorted lt
    (map LongText.position (LongText.parse_emotion_tags default_emotion txt))
  /\ Forall (fun seg =>
               exists n, LongText.text seg
                         = strip (take n (drop (LongText.position seg) txt)))
       (LongText.parse_emotion_tags default_emotion txt).
Proof.
  destruct parse_emotion_tags_pieces as [Hsorted Hall].
  split; [exact Hsorted|].
  eapply Forall_impl; [exact Hall|]. intros seg [Hpiece _]. exact Hpiece.
Qed.

(** X2: no segment of Variant A holds a bracket tag in its text: every
    tag of the input is consumed by the parser. *)
Theorem parse_emotion_tags_tag_free :
  Forall (fun seg => ~ has_bracket_tag (LongText.text seg))
    (LongText.parse_emotion_tags default_emotion txt).
Proof.
  eapply Forall_impl; [exact (proj2 parse_emotion_tags_pieces)|].
  intros seg [_ Hfree]. exact Hfree.
Qed.
End VariantAPieces.

Section VariantAAlpha.
Context `{PyBuiltins}.
Variables default_emotion txt : pystr.

Lemma unit_interval_one : unit_interval 1.
Proof. split; reflexivity. Qed.

Lemma tag_alpha_unit_interval m :
  unit_interval (snd (LongText.tag_emotion_alpha default_emotion m)).
Proof.
  unfold LongText.tag_emotion_alpha.
  destruct (LongText.split_colon _) as [[e a]|]; cbv beta iota zeta;
    cbn [snd]; [|apply unit_interval_one].
  destruct (py_float (strip a)); [apply clamp_unit_interval|].
  apply unit_interval_one.
Qed.

Lemma tag_steps_alpha l st0 :
  unit_interval (LongText.current_alpha st0) ->
  Forall (fun seg => unit_interval (LongText.alpha seg))
    (LongText.segments st0) ->
  let st := fold_left (LongText.tag_step default_emotion txt) l st0 in
  unit_interval (LongText.current_alpha st)
  /\ Forall (fun seg => unit_interval (LongText.alpha seg))
       (LongText.segments st).
Proof.
  revert st0. induction l as [|x l IH]; intros st0 Hcur Hsegs;
    cbn [fold_left]; [split; assumption|].
  pose proof (tag_alpha_unit_interval x) as Hx.
  apply IH; unfold LongText.tag_step;
    destruct (LongText.tag_emotion_alpha default_emotion x) as [e a];
    cbn [LongText.current_alpha LongText.segments snd] in *;
    [exact Hx|].
  destruct (LongText.current_pos st0 <? m_start x); [|exact Hsegs].
  destruct (truthy _); [|exact Hsegs].
  apply Forall_app. split; [exact Hsegs|].
  constructor; [exact Hcur | constructor].
Qed.

Lemma parse_emotion_tags_unit_alpha :
  Forall (fun seg => unit_interval (LongText.alpha seg))
    (LongText.parse_emotion_tags default_emotion txt).
Proof.
  unfold LongText.parse_emotion_tags.
  destruct (finditer LongText.match_bracket_tag txt) as [|m ms].
  - constructor; [apply unit_interval_one | constructor].
  - destruct (tag_steps_alpha (m :: ms)
                (LongText.mkParseState [] 0 default_emotion 1)
                unit_interval_one ltac:(constructor)) as [Hcur Hsegs].
    destruct (LongText.current_pos _ <? length txt); [|exact Hsegs].
    destruct (truthy _); [|exact Hsegs].
    apply Forall_app. split; [exact Hsegs|].
    constructor; [exact Hcur | constructor].
Qed.

(** X3: every segment of Variant A carries an alpha within [0.0, 1.0]:
    the alpha of a tag is clamped, and a tag without a number and the text
    before the first tag get 1.0. *)
Theorem parse_emotion_tags_alpha :
  Forall (fun seg => unit_interval (LongText.alpha seg))
    (LongText.parse_emotion_tags default_emotion txt).
Proof. exact parse_emotion_tags_unit_alpha. Qed.
End VariantAAlpha.

Section LeadingTag.
Context `{PyBuiltins}.

(** A text that starts with a tag and holds no other. *)
Lemma parse_leading_tag default_emotion body rest :
  body <> [] -> Forall (fun c => c <> 93%N) body ->
  ~ has_bracket_tag rest ->
  let m := mkReMatch 0 (length body + 2) body in
  LongText.parse_emotion_tags default_emotion
    ([91%N] ++ body ++ [93%N] ++ rest)
  = if truthy (strip rest) then
      [LongText.mkEmotionSegment (strip rest)
         (fst (LongText.tag_emotion_alpha default_emotion m))
         (snd (LongText.tag_emotion_alpha default_emotion m))
         (length body + 2)]
    else [].
Proof.
  intros Hbody Hall Hrest m. cbn [app].
  assert (Hm : LongText.match_bracket_tag (91%N :: body ++ 93%N :: rest)
               = Some (body, rest)).
  { apply match_bracket_tag_Some. auto. }
  assert (Hlen : length (91%N :: body ++ 93%N :: rest)
                 = length body + 2 + length rest).
  { cbn [length]. rewrite length_app. cbn [length]. lia. }
  assert (Hfind : finditer LongText.match_bracket_tag
                    (91%N :: body ++ 93%N :: rest) = [m]).
  { unfold finditer. rewrite (finditer_from_match _ _ _ _ _ _ Hm), Hlen.
    replace (length body + 2 + length rest - length rest)
      with (length body + 2) by lia.
    subst m. f_equal.
    rewrite finditer_from_skip
      by (rewrite length_app; cbn [length]; lia).
    replace (drop (length body + 2 - 1) (body ++ 93%N :: rest)) with rest.
    2:{ replace (length body + 2 - 1) with (length (body ++ [93%N]))
          by (rewrite length_app; cbn [length]; lia).
        change (body ++ 93%N :: rest) with (body ++ [93%N] ++ rest).
        rewrite app_assoc, drop_app_length. reflexivity. }
    apply finditer_bracket_nil in Hrest. unfold finditer in Hrest.
    apply finditer_from_nil.
    exact (proj1 (finditer_from_nil _ _ _) Hrest). }
  unfold LongText.parse_emotion_tags. rewrite Hfind. cbn [fold_left].
  unfold LongText.tag_step.
  destruct (LongText.tag_emotion_alpha default_emotion m) as [e a] eqn:He.
  subst m.
  cbn [LongText.current_pos LongText.segments LongText.current_emotion
       LongText.current_alpha m_start m_end fst snd].
  change (0 <? 0) with false. cbv iota.
  destruct rest as [|c rest'].
  { rewrite Hlen. cbn [length]. rewrite Nat.add_0_r, Nat.ltb_irrefl.
    reflexivity. }
  assert (Hlt : (length body + 2 <? length (91%N :: body ++ 93%N :: c :: rest'))
                = true).
  { apply Nat.ltb_lt. rewrite Hlen. cbn [length]. lia. }
  rewrite Hlt.
  assert (Hdrop : drop (length body + 2) (91%N :: body ++ 93%N :: c :: rest')
                  = c :: rest').
  { replace (91%N :: body ++ 93%N :: c :: rest')
      with ((91%N :: body ++ [93%N]) ++ c :: rest')
      by (cbn [app]; rewrite <- app_assoc; reflexivity).
    replace (length body + 2) with (length (91%N :: body ++ [93%N]))
      by (cbn [length]; rewrite length_app; cbn [length]; lia).
    apply drop_app_length. }
  rewrite Hdrop. destruct (truthy (strip (c :: rest'))); reflexivity.
Qed.

(** X4: a tag at the start of the text governs the text after it: when
    that text holds no further tag and is not blank, Variant A yields
    exactly one segment, with the trimmed text, the emotion and alpha of
    the tag, and the position just after the tag. *)
Theorem leading_tag default_emotion body rest :
  body <> [] -> Forall (fun c => c <> 93%N) body ->
  ~ has_bracket_tag rest -> strip rest <> [] ->
  let m := mkReMatch 0 (length body + 2) body in
  LongText.parse_emotion_tags default_emotion
    ([91%N] ++ body ++ [93%N] ++ rest)
  = [LongText.mkEmotionSegment (strip rest)
       (fst (LongText.tag_emotion_alpha default_emotion m))
       (snd (LongText.tag_emotion_alpha default_emotion m))
       (length body + 2)].
Proof.
  intros Hbody Hall Hrest Hstrip m. subst m.
  rewrite (parse_leading_tag default_emotion body rest Hbody Hall Hrest).
  apply truthy_true in Hstrip. rewrite Hstrip. reflexivity.
Qed.
End LeadingTag.

Lemma leading_tag_witness :
  @LongText.parse_emotion_tags ascii_builtins (utf8 "calm")
    ([91%N] ++ utf8 "sad:0.5" ++ [93%N] ++ utf8 " Goodbye ")
  = [LongText.mkEmotionSegment (utf8 "Goodbye") (utf8 "sad") 0.5 9].
Proof.
  rewrite (@leading_tag ascii_builtins (utf8 "calm") (utf8 "sad:0.5")
             (utf8 " Goodbye ")).
  - vm_compute. reflexivity.
  - vm_compute. discriminate.
  - vm_compute. repeat (constructor; [discriminate|]). constructor.
  - apply finditer_bracket_nil. vm_compute. reflexivity.
  - vm_compute. discriminate.
Defined.

(** ** The segments of Variant B *)

Section VariantBMore.
Context `{PyBuiltins}.
Variable characters : gmap pystr CharacterConfig.

Lemma tags_loop_no_tag line cur ms :
  scanned char_pattern line cur ms ->
  forall st,
    Forall (fun seg => ~ has_character_tag (text seg)) (fst st) ->
    Forall (fun seg => ~ has_character_tag (text seg))
      (fst (tags_loop characters line ms st)).
Proof.
  induction 1 as [cur Hnone|cur m ms rest Hnone Hmatch Hle Hlt Hend Hms IH];
    intros [segs pos] Hst; simpl; [exact Hst|].
  apply IH. simpl. apply Forall_app. split; [exact Hst|].
  constructor; [|constructor]. rewrite tag_segment_text.
  inversion Hms as [cur' Hgap|cur' next later rest' Hgap _ Hle' _ _ _]; subst;
    intros Htag; apply (proj1 (has_character_tag_strip _)) in Htag;
    revert Htag.
  - apply no_character_tag_after. exact Hgap.
  - unfold slice. apply no_character_tag_between.
    intros k Hk. apply Hgap. lia.
Qed.

Lemma line_step_no_tag st line :
  Forall (fun seg => ~ has_character_tag (text seg)) (fst st) ->
  Forall (fun seg => ~ has_character_tag (text seg))
    (fst (line_step characters st line)).
Proof.
  destruct st as [segs pos]. intros Hst. unfold line_step.
  destruct (truthy (strip line)) eqn:Hl; [|exact Hst].
  pose proof (finditer_scanned _ char_pattern_progress (strip line)) as Hscan.
  destruct (finditer char_pattern (strip line)) as [|m ms] eqn:Hms.
  - simpl. apply Forall_app. split; [exact Hst|].
    constructor; [|constructor]. simpl. apply finditer_char_nil. exact Hms.
  - apply (tags_loop_no_tag _ 0); [exact Hscan|].
    destruct (0 <? m_start m); [|exact Hst].
    destruct (truthy (strip (take (m_start m) (strip line)))); [|exact Hst].
    simpl. apply Forall_app. split; [exact Hst|].
    constructor; [|constructor]. simpl.
    intros Htag. apply (proj1 (has_character_tag_strip _)) in Htag.
    revert Htag.
    change (take (m_start m) (strip line))
      with (take (m_start m) (drop 0 (strip line))).
    apply no_character_tag_between.
    inversion Hscan; subst. intros k Hk. auto with lia.
Qed.

(** X5: no segment of Variant B holds a character tag in its text: every
    tag of a line is consumed by the parser. *)
Theorem parse_text_tag_free txt :
  Forall (fun seg => ~ has_character_tag (text seg))
    (parse_text_with_characters characters txt).
Proof.
  unfold parse_text_with_characters.
  assert (Hgen : forall lines st,
             Forall (fun seg => ~ has_character_tag (text seg)) (fst st) ->
             Forall (fun seg => ~ has_character_tag (text seg))
               (fst (fold_left (line_step characters) lines st))).
  { induction lines as [|l ls IH]; intros st Hst; simpl; [exact Hst|].
    apply IH, line_step_no_tag, Hst. }
  apply Hgen. constructor.
Qed.

Lemma numbered_snoc segs pos seg :
  numbered (segs, pos) -> position seg = pos ->
  numbered (segs ++ [seg], pos + 1).
Proof.
  intros [Hpos Hmap] Hseg. simpl in *. split; simpl.
  - rewrite length_app. simpl. lia.
  - rewrite map_app, length_app, Hmap. simpl.
    rewrite Nat.add_1_r, seq_S. simpl. congruence.
Qed.

Lemma tags_loop_numbered line ms st :
  numbered st -> numbered (tags_loop characters line ms st).
Proof.
  revert st. induction ms as [|m later IH]; intros [segs pos] Hst; simpl.
  - exact Hst.
  - apply IH, numbered_snoc; [exact Hst | apply tag_segment_position].
Qed.

Lemma line_step_numbered st line :
  numbered st -> numbered (line_step characters st line).
Proof.
  destruct st as [segs pos]. intros Hst. unfold line_step.
  destruct (truthy (strip line)); [|exact Hst].
  destruct (finditer char_pattern (strip line)) as [|m ms].
  - apply numbered_snoc; [exact Hst | reflexivity].
  - apply tags_loop_numbered.
    destruct (0 <? m_start m); [|exact Hst].
    destruct (truthy _); [|exact Hst].
    apply numbered_snoc; [exact Hst | reflexivity].
Qed.

(** X6: the segments of Variant B are numbered 0, 1, 2, ... in the order
    they are emitted: the position of a segment is its index in the
    result. *)
Theorem parse_text_positions txt :
  map position (parse_text_with_characters characters txt)
  = seq 0 (length (parse_text_with_characters characters txt)).
Proof.
  unfold parse_text_with_characters.
  assert (Hgen : forall lines st,
             numbered st -> numbered (fold_left (line_step characters) lines st)).
  { induction lines as [|l ls IH]; intros st Hst; simpl; [exact Hst|].
    apply IH, line_step_numbered, Hst. }
  apply (Hgen _ ([], 0)). split; reflexivity.
Qed.

Lemma tag_segment_alpha tag_text following_text position :
  unit_interval (alpha (tag_segment characters tag_text following_text position)).
Proof.
  unfold tag_segment, _extract_character_content.
  destruct (match_char_tag tag_text) as [[[[c e] v] r]|].
  - destruct (py_float v) as [f|].
    + destruct (_ && _); simpl; apply clamp_unit_interval.
    + destruct (_ && _); simpl; split; reflexivity.
  - destruct (_ && _); simpl; split; reflexivity.
Qed.

(** X7: every segment of Variant B carries an alpha within [0.0, 1.0]:
    0.0 for narration outside the tags, the clamped number of a numeric
    tag, and 0.8 for a descriptive tag. *)
Theorem parse_text_alpha txt :
  Forall (fun seg => unit_interval (alpha seg))
    (parse_text_with_characters characters txt).
Proof.
  apply parse_text_Forall.
  - intros tag follow pos. apply tag_segment_alpha.
  - intros t pos _. split; reflexivity.
Qed.

(** X8: every segment of Variant B is either dialogue of a registered
    character with a non-empty text, or narration attributed to
    [narrator]. *)
Theorem parse_text_attribution txt :
  Forall (fun seg =>
            (is_Some (characters !! character seg) /\ is_dialogue seg = true
             /\ text seg <> [])
            \/ (character seg = narrator /\ is_dialogue seg = false))
    (parse_text_with_characters characters txt).
Proof.
  apply parse_text_Forall.
  - intros tag follow pos. apply tag_segment_attribution.
  - intros t pos _. right. split; reflexivity.
Qed.
End VariantBMore.

Lemma split_on_nonempty sep s : split_on sep s <> [].
Proof.
  destruct s as [|c s]; simpl; [discriminate|].
  destruct (c =? sep)%N; [discriminate|].
  destruct (split_on sep s); discriminate.
Qed.

(** [(a + sep + b).split(sep) == a.split(sep) + b.split(sep)] *)
Lemma split_on_app sep a b :
  split_on sep (a ++ sep :: b) = split_on sep a ++ split_on sep b.
Proof.
  induction a as [|c a IH]; simpl.
  - rewrite N.eqb_refl. reflexivity.
  - destruct (c =? sep)%N; [rewrite IH; reflexivity|].
    rewrite IH. pose proof (split_on_nonempty sep a) as Hne.
    destruct (split_on sep a) as [|l ls]; [congruence|]. reflexivity.
Qed.

Section Lines.
Context `{PyBuiltins}.
Variable characters : gmap pystr CharacterConfig.

Lemma tag_segment_shift n tag_text following_text p :
  tag_segment characters tag_text following_text (n + p)
  = shift_position n (tag_segment characters tag_text following_text p).
Proof.
  unfold tag_segment.
  destruct (_extract_character_content tag_text) as [[[c e] v] t].
  destruct (_ && _), v; reflexivity.
Qed.

Lemma tags_loop_shift_position n line ms p :
  fst (tags_loop characters line ms ([], n + p))
  = map (shift_position n) (fst (tags_loop characters line ms ([], p))).
Proof.
  revert p. induction ms as [|m later IH]; intros p; [reflexivity|].
  cbn [tags_loop]. rewrite !(tags_loop_shift _ _ _ ([] ++ _)).
  cbn [fst app]. rewrite map_cons, tag_segment_shift. f_equal.
  rewrite <- Nat.add_assoc. apply IH.
Qed.

Lemma line_step_shift_position n p line :
  fst (line_step characters ([], n + p) line)
  = map (shift_position n) (fst (line_step characters ([], p) line)).
Proof.
  unfold line_step. destruct (truthy (strip line)); [|reflexivity].
  destruct (finditer char_pattern (strip line)) as [|m ms]; [reflexivity|].
  destruct (0 <? m_start m); [|apply tags_loop_shift_position].
  destruct (truthy (strip (take (m_start m) (strip line))));
    [|apply tags_loop_shift_position].
  rewrite !(tags_loop_shift _ _ _ ([] ++ _)). cbn [fst app].
  rewrite map_cons. f_equal.
  rewrite <- Nat.add_assoc. apply tags_loop_shift_position.
Qed.

Lemma lines_shift_position n lines p :
  fst (fold_left (line_step characters) lines ([], n + p))
  = map (shift_position n)
      (fst (fold_left (line_step characters) lines ([], p))).
Proof.
  revert p. induction lines as [|l ls IH]; intros p; [reflexivity|].
  cbn [fold_left].
  rewrite (line_step_shift _ [] (n + p)), (line_step_shift _ [] p).
  cbn [app]. rewrite line_step_shift_position.
  set (here := fst (line_step characters ([], p) l)).
  rewrite (lines_shift _ ls (map (shift_position n) here)).
  rewrite (lines_shift _ ls here). cbn [fst].
  rewrite map_app. f_equal.
  rewrite length_map, <- Nat.add_assoc. apply IH.
Qed.

(** X9: the lines of a text are parsed one by one: the segments of two
    texts joined by a line break are the segments of the first followed by
    those of the second, whose positions go on counting. *)
Theorem parse_text_lines a b :
  parse_text_with_characters characters (a ++ [10%N] ++ b)
  = parse_text_with_characters characters a
    ++ map (shift_position
              (length (parse_text_with_characters characters a)))
         (parse_text_with_characters characters b).
Proof.
  unfold parse_text_with_characters. cbn [app].
  rewrite split_on_app, fold_left_app.
  pose proof (lines_shift characters (split_on 10%N a) [] 0) as Ea.
  destruct (fold_left (line_step characters) (split_on 10%N a) ([], 0))
    as [earlier q].
  cbn [fst app] in *. inversion Ea as [Hq]. rewrite <- Hq.
  rewrite (lines_shift _ (split_on 10%N b) earlier). cbn [fst]. f_equal.
  pose proof (lines_shift_position q (split_on 10%N b) 0) as Hb.
  rewrite Nat.add_0_r in Hb. exact Hb.
Qed.
End Lines.


(** ** The chunks of Variant B *)

Lemma pair_up_ind (P : list pystr -> Prop) :
  P [] -> (forall x, P [x]) ->
  (forall x y l, P l -> P (x :: y :: l)) -> forall l, P l.
Proof.
  intros H0 H1 H2.
  fix IH 1. intros [|x [|y l]]; [exact H0 | apply H1 | apply H2, IH].
Qed.

Lemma concat_pair_up pieces : concat (pair_up pieces) = concat pieces.
Proof.
  induction pieces as [| |x y l IH] using pair_up_ind; simpl; try reflexivity.
  rewrite IH, <- app_assoc. reflexivity.
Qed.

Lemma concat_re_split is_sep s : concat (re_split is_sep s) = s.
Proof.
  induction s as [|c s IH]; simpl; [reflexivity|].
  destruct (is_sep c); simpl; [rewrite IH; reflexivity|].
  destruct (re_split is_sep s) as [|p ps]; simpl in *; congruence.
Qed.

Lemma concat_sentences txt : concat (sentences_of txt) = txt.
Proof. unfold sentences_of. rewrite concat_pair_up. apply concat_re_split. Qed.

Lemma re_split_no_sep is_sep s :
  Forall (fun c => is_sep c = false) s -> re_split is_sep s = [s].
Proof.
  induction 1 as [|c s Hc Hs IH]; simpl; [reflexivity|].
  rewrite Hc, IH. reflexivity.
Qed.

Section Segmenter.
Variable self : TextSegmenter.
Variable segment : DialogueSegment.

Lemma sentences_loop_fold pieces st :
  sentences_loop self segment pieces st
  = fold_left (fun st sentence => sentence_step self segment sentence st)
      (pair_up pieces) st.
Proof.
  revert st. induction pieces as [| |x y l IH] using pair_up_ind;
    intros st; simpl; try reflexivity.
  apply IH.
Qed.

Lemma sentence_step_cases sentence current_text segments :
  sentence_step self segment sentence (current_text, segments)
  = if (max_chars self <? len (current_text ++ sentence))%Z
       && truthy current_text
    then (carry self current_text ++ sentence,
          segments ++ [sub_segment segment current_text])
    else (current_text ++ sentence, segments).
Proof.
  unfold sentence_step, carry.
  destruct (_ && _); [|reflexivity].
  destruct (0 <? overlap_chars self)%Z; reflexivity.
Qed.

Lemma carry_suffix current_text :
  exists a, current_text = a ++ carry self current_text.
Proof.
  unfold carry. destruct (0 <? overlap_chars self)%Z.
  - eexists. symmetry. apply take_drop.
  - exists current_text. rewrite app_nil_r. reflexivity.
Qed.

Lemma carry_length current_text :
  (len (carry self current_text) <= Z.max 0 (overlap_chars self))%Z.
Proof.
  unfold carry, len. destruct (0 <? overlap_chars self)%Z eqn:Ho.
  - rewrite length_drop. lia.
  - simpl. lia.
Qed.

(** General invariant of the loop, for a property [I] of the state that
    every step keeps. *)
Lemma sentences_fold_invariant
    (I : pystr -> pystr * list DialogueSegment -> Prop) sentences :
  (forall consumed sentence st,
     In sentence sentences -> I consumed st ->
     I (consumed ++ sentence) (sentence_step self segment sentence st)) ->
  forall consumed st l,
    incl l sentences -> I consumed st ->
    I (consumed ++ concat l)
      (fold_left (fun st sentence => sentence_step self segment sentence st)
         l st).
Proof.
  intros Hstep consumed st l. revert consumed st.
  induction l as [|s l IH]; intros consumed st Hincl Hst; simpl.
  - rewrite app_nil_r. exact Hst.
  - rewrite app_assoc. apply IH.
    + intros x Hx. apply Hincl. right. exact Hx.
    + apply Hstep; [apply Hincl; left; reflexivity | exact Hst].
Qed.

Lemma split_long_segment_invariant
    (I : pystr -> pystr * list DialogueSegment -> Prop) :
  (forall consumed sentence st,
     In sentence (sentences_of (text segment)) -> I consumed st ->
     I (consumed ++ sentence) (sentence_step self segment sentence st)) ->
  I [] ([], []) ->
  exists current_text segments,
    I (text segment) (current_text, segments)
    /\ _split_long_segment self segment
       = if truthy current_text
         then segments ++ [sub_segment segment current_text]
         else segments.
Proof.
  intros Hstep Hinit. unfold _split_long_segment.
  rewrite sentences_loop_fold. fold (sentences_of (text segment)).
  pose proof (sentences_fold_invariant I (sentences_of (text segment)) Hstep
                [] ([], []) (sentences_of (text segment))
                ltac:(intros x Hx; exact Hx) Hinit) as Hfinal.
  rewrite concat_sentences in Hfinal. simpl in Hfinal.
  destruct (fold_left _ _ _) as [cur segs]. exists cur, segs.
  split; [exact Hfinal | reflexivity].
Qed.

(** X10: without overlap no text is lost and none is repeated: the texts
    of the chunks of a segment, joined, are the text of the segment. *)
Theorem split_without_overlap :
  (overlap_chars self <= 0)%Z ->
  concat (map text (_split_long_segment self segment)) = text segment.
Proof.
  intros Hov.
  destruct (split_long_segment_invariant
              (fun consumed st =>
                 concat (map text (snd st)) ++ fst st = consumed))
    as (cur & segs & Hinv & ->).
  - intros consumed sentence [cur segs] _ Hst. simpl in Hst.
    rewrite sentence_step_cases. destruct (_ && _); simpl.
    + unfold carry. replace (0 <? overlap_chars self)%Z with false
        by (symmetry; apply Z.ltb_ge; lia).
      rewrite map_app, concat_app. simpl.
      rewrite app_nil_r, <- Hst. reflexivity.
    + rewrite app_assoc, Hst. reflexivity.
  - reflexivity.
  - simpl in Hinv. destruct cur as [|c cur]; simpl.
    + rewrite app_nil_r in Hinv. exact Hinv.
    + rewrite map_app, concat_app. simpl. rewrite app_nil_r. exact Hinv.
Qed.

(** X11: no chunk of a split segment has an empty text, and a segment
    with a non-empty text gives at least one chunk. *)
Theorem split_chunks_nonempty :
  Forall (fun chunk => text chunk <> []) (_split_long_segment self segment)
  /\ (text segment <> [] -> _split_long_segment self segment <> []).
Proof.
  destruct (split_long_segment_invariant
              (fun consumed st =>
                 Forall (fun chunk => text chunk <> []) (snd st)
                 /\ (consumed <> [] -> snd st <> [] \/ fst st <> [])))
    as (cur & segs & [Hall Hsome] & ->).
  - intros consumed sentence [cur segs] _ [Hall Hsome].
    rewrite sentence_step_cases. cbn [fst snd] in *.
    destruct (_ <? _)%Z; simpl; [destruct (truthy cur) eqn:Hcur; simpl|].
    + split.
      * apply Forall_app. split; [exact Hall|].
        constructor; [apply truthy_true, Hcur | constructor].
      * intros _. left. destruct segs; discriminate.
    + apply truthy_false in Hcur. subst cur. split; [exact Hall|].
      intros Hne. simpl. destruct sentence as [|c s].
      * rewrite app_nil_r in Hne. destruct (Hsome Hne) as [Hs|Hc]; auto.
      * right. discriminate.
    + split; [exact Hall|]. intros Hne.
      destruct sentence as [|c s].
      * rewrite !app_nil_r in *. auto.
      * right. destruct cur; discriminate.
  - split; [constructor|]. intros Hne. congruence.
  - simpl in *. destruct cur as [|c cur]; simpl.
    + split; [exact Hall|]. intros Hne.
      destruct (Hsome Hne) as [Hs|Hc]; congruence.
    + split.
      * apply Forall_app. split; [exact Hall|].
        constructor; [discriminate | constructor].
      * intros _. destruct segs; discriminate.
Qed.

(** X12: the text of every chunk is a contiguous piece of the text of the
    segment it comes from. *)
Theorem split_chunks_pieces :
  Forall (fun chunk => exists before after,
                         text segment = before ++ text chunk ++ after)
    (_split_long_segment self segment).
Proof.
  destruct (split_long_segment_invariant
              (fun consumed st =>
                 (exists a, consumed = a ++ fst st)
                 /\ Forall (fun chunk => exists a, exists b,
                                consumed = a ++ text chunk ++ b) (snd st)))
    as (cur & segs & [[a Hcur] Hall] & ->).
  - intros consumed sentence [cur segs] _ [[a Hcur] Hall]. cbn [fst snd] in *.
    assert (Hold : Forall (fun chunk => exists a, exists b,
                             consumed ++ sentence = a ++ text chunk ++ b) segs).
    { eapply Forall_impl; [exact Hall|]. simpl. intros c (x & y & Hc).
      exists x, (y ++ sentence). rewrite Hc, <- !app_assoc. reflexivity. }
    rewrite sentence_step_cases. destruct (_ && _); simpl.
    + split.
      * destruct (carry_suffix cur) as [k Hk].
        exists (a ++ k). rewrite Hcur. rewrite Hk at 1.
        rewrite <- !app_assoc. reflexivity.
      * apply Forall_app. split; [exact Hold|].
        constructor; [|constructor]. simpl.
        exists a, sentence. rewrite Hcur, <- app_assoc. reflexivity.
    + split; [|exact Hold]. exists a. rewrite Hcur, <- app_assoc. reflexivity.
  - split; [exists []; reflexivity | constructor].
  - simpl in *. destruct (truthy cur); [|exact Hall].
    apply Forall_app. split; [exact Hall|].
    constructor; [|constructor]. simpl.
    exists a, []. rewrite app_nil_r. exact Hcur.
Qed.

(** X13: a chunk exceeds the budget only through a sentence that does
    not fit: its length is at most [max_chars], or at most the overlap
    plus the length of one sentence of the segment. *)
Theorem split_chunks_budget :
  Forall (fun chunk =>
            (len (text chunk) <= max_chars self)%Z
            \/ exists sentence,
                 In sentence (sentences_of (text segment))
                 /\ (len (text chunk)
                     <= Z.max 0 (overlap_chars self) + len sentence)%Z)
    (_split_long_segment self segment).
Proof.
  set (bounded := fun t : pystr =>
         (len t <= max_chars self)%Z
         \/ exists sentence,
              In sentence (sentences_of (text segment))
              /\ (len t <= Z.max 0 (overlap_chars self) + len sentence)%Z).
  destruct (split_long_segment_invariant
              (fun consumed st =>
                 (fst st = [] \/ bounded (fst st))
                 /\ Forall (fun chunk => bounded (text chunk)) (snd st)))
    as (cur & segs & [Hcur Hall] & ->).
  - intros consumed sentence [cur segs] Hin [Hcur Hall]. cbn [fst snd] in *.
    rewrite sentence_step_cases.
    destruct (max_chars self <? len (cur ++ sentence))%Z eqn:Hmax; simpl.
    + destruct (truthy cur) eqn:Ht; simpl.
      * split.
        -- right. right. exists sentence. split; [exact Hin|].
           pose proof (carry_length cur) as Hc. unfold len in *.
           rewrite length_app. lia.
        -- apply Forall_app. split; [exact Hall|].
           constructor; [|constructor]. simpl.
           destruct Hcur as [->|Hb]; [discriminate | exact Hb].
      * apply truthy_false in Ht. subst cur. split; [|exact Hall].
        right. right. exists sentence. split; [exact Hin|].
        simpl. lia.
    + split; [|exact Hall]. right. left. apply Z.ltb_ge in Hmax. exact Hmax.
  - split; [left; reflexivity | constructor].
  - simpl in *. destruct (truthy cur) eqn:Ht; [|exact Hall].
    apply Forall_app. split; [exact Hall|].
    constructor; [|constructor]. simpl.
    destruct Hcur as [->|Hb]; [discriminate | exact Hb].
Qed.

(** X14: a text without a sentence-ending character is never cut: it
    gives one chunk with the whole text, however long it is. *)
Theorem split_single_sentence :
  Forall (fun c => is_sentence_end c = false) (text segment) ->
  text segment <> [] ->
  _split_long_segment self segment = [sub_segment segment (text segment)].
Proof.
  intros Hno Hne. unfold _split_long_segment.
  rewrite (re_split_no_sep _ _ Hno). cbn [sentences_loop].
  rewrite sentence_step_cases. cbn [truthy]. rewrite andb_false_r.
  cbn [app]. apply truthy_true in Hne. rewrite Hne. reflexivity.
Qed.
End Segmenter.

Section SegmentDialogue.
Variable self : TextSegmenter.

Lemma segment_dialogue_flat_map segments :
  segment_dialogue self segments = flat_map (chunks_of self) segments.
Proof.
  unfold segment_dialogue.
  assert (Hgen : forall acc,
             fold_left
               (fun segmented segment =>
                  if (len (text segment) <=? max_chars self)%Z
                  then segmented ++ [segment]
                  else segmented ++ _split_long_segment self segment)
               segments acc
             = acc ++ flat_map (chunks_of self) segments).
  { induction segments as [|s l IH]; intros acc; simpl.
    - rewrite app_nil_r. reflexivity.
    - rewrite IH. unfold chunks_of.
      destruct (_ <=? _)%Z; rewrite <- app_assoc; reflexivity. }
  apply Hgen.
Qed.

(** X15: [segment_dialogue] treats the segments one by one and keeps
    their order: the chunks of two lists of segments joined are the chunks
    of the first followed by the chunks of the second. *)
Theorem segment_dialogue_app a b :
  segment_dialogue self (a ++ b)
  = segment_dialogue self a ++ segment_dialogue self b.
Proof. rewrite !segment_dialogue_flat_map. apply flat_map_app. Qed.

(** X16: segments within the budget pass through [segment_dialogue]
    unchanged, descriptive emotion text included. *)
Theorem segment_dialogue_within_budget segments :
  Forall (fun segment => (len (text segment) <= max_chars self)%Z) segments ->
  segment_dialogue self segments = segments.
Proof.
  intros Hall. rewrite segment_dialogue_flat_map.
  induction Hall as [|s l Hs Hl IH]; simpl; [reflexivity|].
  unfold chunks_of at 1. apply Z.leb_le in Hs. rewrite Hs, IH. reflexivity.
Qed.
End SegmentDialogue.

Section Overlap.
Variable self : TextSegmenter.
Variable segment : DialogueSegment.

Lemma chained_snoc chunks next :
  chained self chunks ->
  (forall chunk, last chunks = Some chunk -> repeats self chunk (text next)) ->
  chained self (chunks ++ [next]).
Proof.
  intros Hchain Hlast i c1 c2 H1 H2.
  destruct (decide (S i < length chunks)) as [Hlt|Hge].
  - rewrite lookup_app_l in H1 by lia. rewrite lookup_app_l in H2 by lia.
    eapply Hchain; eassumption.
  - assert (Hi : S i = length chunks).
    { apply lookup_lt_Some in H2. rewrite length_app in H2. simpl in H2. lia. }
    rewrite lookup_app_l in H1 by lia.
    rewrite lookup_app_r in H2 by lia.
    replace (S i - length chunks) with 0 in H2 by lia.
    simpl in H2. inversion H2; subst c2.
    apply Hlast. rewrite last_lookup.
    replace (Init.Nat.pred (length chunks)) with i by lia. exact H1.
Qed.

(** X17: the overlap is repeated text: every chunk but the first starts
    with the last [overlap_chars] characters of the chunk before it (with
    the whole of it when it is shorter). *)
Theorem split_chunks_chained :
  chained self (_split_long_segment self segment).
Proof.
  destruct (split_long_segment_invariant self segment
              (fun consumed st =>
                 chained self (snd st)
                 /\ forall chunk, last (snd st) = Some chunk ->
                                  repeats self chunk (fst st)))
    as (cur & segs & [Hchain Hlast] & ->).
  - intros consumed sentence [cur segs] _ [Hchain Hlast].
    rewrite sentence_step_cases. cbn [fst snd] in *.
    destruct (_ && _); cbn [fst snd].
    + split.
      * apply chained_snoc; assumption.
      * intros chunk Hchunk. rewrite last_snoc in Hchunk.
        inversion Hchunk; subst chunk. exists sentence. reflexivity.
    + split; [exact Hchain|]. intros chunk Hchunk.
      destruct (Hlast chunk Hchunk) as [rest ->].
      exists (rest ++ sentence). rewrite <- app_assoc. reflexivity.
  - split.
    + intros i c1 c2 H1. discriminate.
    + intros chunk Hchunk. discriminate.
  - cbn [fst snd] in *. destruct (truthy cur); [|exact Hchain].
    apply chained_snoc; assumption.
Qed.
End Overlap.

Lemma segment_dialogue_within_budget_witness :
  segment_dialogue (mkTextSegmenter 200 30) [great_news] = [great_news].
Proof.
  apply segment_dialogue_within_budget.
  constructor; [|constructor]. vm_compute. discriminate.
Defined.

Lemma split_without_overlap_witness :
  concat (map text (_split_long_segment (mkTextSegmenter 10 0) great_news))
  = text great_news.
Proof. apply split_without_overlap. vm_compute. discriminate. Defined.

Lemma split_single_sentence_witness :
  _split_long_segment (mkTextSegmenter 10 30) no_full_stop
  = [sub_segment no_full_stop (text no_full_stop)].
Proof.
  apply split_single_sentence.
  - vm_compute. repeat (constructor; [reflexivity|]). constructor.
  - vm_compute. discriminate.
Defined.

(** The second chunk of this segment holds the whole first chunk again:
    the first chunk is shorter than the overlap. *)
Lemma split_chunks_chained_witness :
  repeats (mkTextSegmenter 10 30)
    (sub_segment great_news (utf8 "Great news!"))
    (utf8 "Great news! It works.").
Proof.
  apply (split_chunks_chained (mkTextSegmenter 10 30) great_news 0
           (sub_segment great_news (utf8 "Great news!"))
           (sub_segment great_news (utf8 "Great news! It works.")));
    vm_compute; reflexivity.
Defined.

(** ** The runs of [generate_audio] *)

Lemma split_on_pieces sep s :
  match split_on sep s with
  | [] => False
  | first :: later =>
      (exists post, s = first ++ post)
      /\ Forall (fun line => exists pre post, s = pre ++ line ++ post) later
  end.
Proof.
  induction s as [|c s IH]; simpl.
  - split; [exists []; reflexivity | constructor].
  - destruct (split_on sep s) as [|l ls]; [contradiction|].
    destruct IH as [[post Hl] Hls].
    assert (Hlater : Forall (fun line => exists pre post,
                               c :: s = pre ++ line ++ post) ls).
    { eapply Forall_impl; [exact Hls|]. simpl.
      intros line (pre & post' & Hline). exists (c :: pre), post'.
      rewrite Hline. reflexivity. }
    destruct (c =? sep)%N.
    + split; [exists (c :: s); reflexivity|].
      constructor; [|exact Hlater].
      exists [c], post. rewrite Hl. reflexivity.
    + split; [|exact Hlater]. exists post. rewrite Hl. reflexivity.
Qed.

Lemma split_on_piece sep s line :
  In line (split_on sep s) -> exists pre post, s = pre ++ line ++ post.
Proof.
  pose proof (split_on_pieces sep s) as Hs.
  destruct (split_on sep s) as [|l ls]; [contradiction|].
  destruct Hs as [[post Hl] Hls]. intros [<-|Hin].
  - exists [], post. exact Hl.
  - rewrite Forall_forall in Hls. apply Hls. apply list_elem_of_In. exact Hin.
Qed.

Section Generation.
Context `{PyBuiltins}.
Variable characters : gmap pystr CharacterConfig.

Lemma line_has_character_tag txt line :
  In line (split_on 10%N txt) ->
  has_character_tag line -> has_character_tag txt.
Proof.
  intros Hin (pre & c & e & v & post & -> & Hparts).
  destruct (split_on_piece _ _ _ Hin) as (a & b & ->).
  exists (a ++ pre), c, e, v, (post ++ b). split; [|exact Hparts].
  rewrite <- !app_assoc. reflexivity.
Qed.

Lemma line_step_plain st line :
  ~ has_character_tag line ->
  Forall plain (fst st) -> Forall plain (fst (line_step characters st line)).
Proof.
  intros Hno Hst. destruct st as [segs pos]. unfold line_step.
  destruct (truthy (strip line)); [|exact Hst].
  assert (Hnil : finditer char_pattern (strip line) = []).
  { apply finditer_char_nil. rewrite has_character_tag_strip. exact Hno. }
  rewrite Hnil. cbn [fst]. apply Forall_app. split; [exact Hst|].
  constructor; [split; reflexivity | constructor].
Qed.

Lemma parse_text_plain txt :
  ~ has_character_tag txt ->
  Forall plain (parse_text_with_characters characters txt).
Proof.
  intros Hno. unfold parse_text_with_characters.
  assert (Hgen : forall lines st,
             (forall line, In line lines -> ~ has_character_tag line) ->
             Forall plain (fst st) ->
             Forall plain (fst (fold_left (line_step characters) lines st))).
  { induction lines as [|l ls IH]; intros st Hlines Hst; simpl; [exact Hst|].
    apply IH; [intros line Hin; apply Hlines; right; exact Hin|].
    apply line_step_plain; [apply Hlines; left; reflexivity | exact Hst]. }
  apply Hgen; [|constructor].
  intros line Hin Htag. apply Hno. eapply line_has_character_tag; eassumption.
Qed.

Lemma chunks_plain self segments :
  Forall plain segments -> Forall plain (segment_dialogue self segments).
Proof.
  apply segment_dialogue_Forall. intros seg [Ha Hd].
  eapply Forall_impl; [apply split_long_segment_fields|].
  intros chunk (_ & _ & Halpha & Hdialogue & _). simpl.
  split; congruence.
Qed.

Lemma infer_request_plain cfg chunk i :
  plain chunk -> no_emotion (infer_request cfg chunk i).
Proof.
  intros [Ha Hd]. unfold infer_request. rewrite Ha, Hd.
  change (adjust_alpha 0 false) with 0%float.
  change (PrimFloat.ltb 0 0) with false.
  repeat split.
Qed.

Variable tts_model : option TTSModel.

(** What holds of the request of every chunk holds of every call of the
    loop. *)
Lemma dispatch_requests (Q : DialogueSegment -> Prop)
    (R : InferRequest -> Prop) chunks i audio_segments :
  (forall chunk cfg k, Q chunk -> R (infer_request cfg chunk k)) ->
  Forall Q chunks ->
  Forall R
    (infer_calls (dispatch characters tts_model chunks i audio_segments)).
Proof.
  intros Hreq Hall. revert i audio_segments.
  induction Hall as [|c later Hc Hlater IH]; intros i acc; simpl.
  - constructor.
  - unfold _generate_segment_audio. destruct tts_model as [tts|].
    + destruct (characters !! character c) as [cfg|]; simpl; [|constructor].
      destruct (tts (infer_request cfg c i)); simpl;
        (constructor; [apply Hreq, Hc | apply IH]).
    + simpl. apply IH.
Qed.

(** X18: plain text is synthesized without emotion: for a text without
    a character tag, no [infer] call of [generate_audio] sets an emotion
    text, an emotion vector or an emotion alpha. *)
Theorem untagged_text_requests txt segment_chars :
  ~ has_character_tag txt ->
  Forall no_emotion
    (infer_calls (generate_audio characters tts_model txt segment_chars)).
Proof.
  intros Hno. unfold generate_audio. cbn [infer_calls].
  apply (dispatch_requests plain).
  - intros chunk cfg k. apply infer_request_plain.
  - apply chunks_plain, parse_text_plain, Hno.
Qed.

Lemma infer_request_shape cfg chunk i :
  request_shape (infer_request cfg chunk i).
Proof.
  unfold infer_request, request_shape.
  destruct (PrimFloat.ltb 0 (adjust_alpha (alpha chunk) (is_dialogue chunk)))
    eqn:Hpos; [|cbn; exact I].
  pose proof (emotion_vector_slot (emotion chunk)
                (adjust_alpha (alpha chunk) (is_dialogue chunk)))
    as (Hslot & _ & _ & Hweight).
  destruct (emo_text chunk) as [[|c t]|]; cbn;
    [split; [|split]; assumption | exact Hpos | split; [|split]; assumption].
Qed.

(** X19: the [infer] calls of [generate_audio] have one of three shapes:
    an emotion text with a positive alpha and no vector; an emotion vector
    and no emotion text, with a positive alpha, the vector holding at one
    of its eight slots that alpha rounded to float32, as the float32
    tensor of the source stores it; or no emotion parameter at all. An
    emotion text and a vector are never passed together. *)
Theorem generate_audio_request_shapes txt segment_chars :
  Forall request_shape
    (infer_calls (generate_audio characters tts_model txt segment_chars)).
Proof.
  unfold generate_audio. cbn [infer_calls].
  apply (dispatch_requests (fun _ => True)).
  - intros chunk cfg k _. apply infer_request_shape.
  - apply Forall_forall. intros chunk _. exact I.
Qed.

(** How the loop over the chunks ends: an exception is the [KeyError] of
    a chunk whose character is not registered, with the model loaded. *)
Lemma dispatch_outcome chunks i audio_segments :
  match outcome (dispatch characters tts_model chunks i audio_segments) with
  | Raise e =>
      is_Some tts_model
      /\ exists chunk, In chunk chunks
                       /\ characters !! character chunk = None
                       /\ e = KeyError (character chunk)
  | Ok _ =>
      tts_model = None
      \/ Forall (fun chunk => is_Some (characters !! character chunk)) chunks
  end.
Proof.
  revert i audio_segments.
  induction chunks as [|c later IH]; intros i acc; simpl.
  - right. constructor.
  - unfold _generate_segment_audio. destruct tts_model as [tts|] eqn:Htts.
    + destruct (characters !! character c) as [cfg|] eqn:Hc; simpl.
      * destruct (tts (infer_request cfg c i)); simpl;
          match goal with
          | |- context [dispatch _ _ later (S i) ?a] =>
              specialize (IH (S i) a);
              destruct (outcome (dispatch characters (Some tts) later (S i) a))
          end.
        -- destruct IH as [Hn|Hall]; [discriminate|].
           right. constructor; [rewrite Hc; eexists; reflexivity | exact Hall].
        -- destruct IH as (Hs & chunk & Hin & Hk & He).
           split; [exact Hs|]. exists chunk. auto.
        -- destruct IH as [Hn|Hall]; [discriminate|].
           right. constructor; [rewrite Hc; eexists; reflexivity | exact Hall].
        -- destruct IH as (Hs & chunk & Hin & Hk & He).
           split; [exact Hs|]. exists chunk. auto.
      * split; [eexists; reflexivity|]. exists c. auto.
    + simpl. specialize (IH (S i) acc).
      destruct (outcome (dispatch characters None later (S i) acc)).
      * left. reflexivity.
      * destruct IH as ([? Hs] & _). discriminate.
Qed.

(** X20: the only exception that leaves [generate_audio] is
    [KeyError('narrator')]: it is raised with the model loaded, [narrator]
    not registered and a chunk attributed to [narrator]; and when no
    exception is raised, the model is not loaded, or [narrator] is
    registered, or no chunk is attributed to it. *)
Theorem generate_audio_outcome txt segment_chars :
  let chunks :=
    segment_dialogue (mkTextSegmenter segment_chars 30)
      (parse_text_with_characters characters txt) in
  match outcome (generate_audio characters tts_model txt segment_chars) with
  | Raise e =>
      e = KeyError narrator /\ characters !! narrator = None
      /\ is_Some tts_model
      /\ Exists (fun chunk => character chunk = narrator) chunks
  | Ok _ =>
      tts_model = None \/ is_Some (characters !! narrator)
      \/ Forall (fun chunk => character chunk <> narrator) chunks
  end.
Proof.
  intros chunks. unfold generate_audio. cbn [outcome]. fold chunks.
  pose proof (dispatch_outcome chunks 0 []) as Hrun.
  pose proof (chunks_attributed characters txt
                (mkTextSegmenter segment_chars 30))
    as Hattr. fold chunks in Hattr.
  destruct (outcome (dispatch characters tts_model chunks 0 []))
    as [audio|e].
  - assert (Hok : tts_model = None \/ is_Some (characters !! narrator)
                  \/ Forall (fun chunk => character chunk <> narrator) chunks).
    { destruct Hrun as [Hn|Hall]; [left; exact Hn|]. right.
      destruct (characters !! narrator) as [cfg|] eqn:Hnar;
        [left; eexists; reflexivity|].
      right. eapply Forall_impl; [exact Hall|]. simpl.
      intros chunk [cfg Hc] Heq. rewrite Heq in Hc. congruence. }
    destruct audio; exact Hok.
  - destruct Hrun as (Hs & chunk & Hin & Hk & ->).
    apply list_elem_of_In in Hin.
    pose proof (proj1 (Forall_forall _ _) Hattr chunk Hin) as [[cfg Hc]|Hc];
      [congruence|].
    rewrite Hc in *. repeat split; auto.
    apply Exists_exists. exists chunk. split; [exact Hin | exact Hc].
Qed.

Lemma dispatch_without_model chunks i audio_segments :
  dispatch characters None chunks i audio_segments
  = mkRun [] (Ok audio_segments).
Proof.
  revert i audio_segments. induction chunks as [|c later IH];
    intros i acc; simpl; [reflexivity|].
  rewrite IH. reflexivity.
Qed.

(** X21: when the model could not be loaded, [generate_audio] makes no
    [infer] call and ends with the warning that no audio segment was
    generated, whatever the text and the registry: no character is looked
    up, so no exception is raised. *)
Theorem generate_audio_without_model txt segment_chars :
  generate_audio characters None txt segment_chars
  = mkRun [] (Ok NoAudioSegments).
Proof.
  unfold generate_audio. rewrite dispatch_without_model. reflexivity.
Qed.
End Generation.

Lemma untagged_text_requests_witness :
  Forall no_emotion
    (infer_calls (@generate_audio ascii_builtins sample_characters
                    (Some (fun _ => true)) (utf8 "Once upon a time.") 200)).
Proof.
  apply untagged_text_requests.
  apply finditer_char_nil. vm_compute. reflexivity.
Defined.

(** ** The emotion vector and the chunks of Variant A *)

Import LongTextGenerator.

(** The vector of an emotion is 1.0 at its index in the enumeration, at
    the index of calm for a name outside it. *)
Lemma emotion_to_vector_index e :
  emotion_to_vector e
  = one_hot (default 7 (MultiCharacter.index_of e MultiCharacter.emotions)).
Proof.
  unfold MultiCharacter.emotions. cbn [map MultiCharacter.index_of].
  destruct (decide (e = utf8 "happy")) as [->|H1]; [vm_compute; reflexivity|].
  destruct (decide (e = utf8 "angry")) as [->|H2]; [vm_compute; reflexivity|].
  destruct (decide (e = utf8 "sad")) as [->|H3]; [vm_compute; reflexivity|].
  destruct (decide (e = utf8 "afraid")) as [->|H4]; [vm_compute; reflexivity|].
  destruct (decide (e = utf8 "disgusted")) as [->|H5];
    [vm_compute; reflexivity|].
  destruct (decide (e = utf8 "melancholic")) as [->|H6];
    [vm_compute; reflexivity|].
  destruct (decide (e = utf8 "surprised")) as [->|H7];
    [vm_compute; reflexivity|].
  destruct (decide (e = utf8 "calm")) as [->|H8]; [vm_compute; reflexivity|].
  rewrite !bool_decide_eq_false_2 by assumption.
  unfold emotion_to_vector.
  assert (Hnone : emotion_vectors !! e = None).
  { unfold emotion_vectors, emotion_vectors_items. cbn [fold_left fst snd].
    rewrite !lookup_insert_ne by congruence. apply lookup_empty. }
  rewrite Hnone. vm_compute. reflexivity.
Qed.

Lemma emotion_to_vector_one_hot e :
  exists i, i < 8 /\ emotion_to_vector e = one_hot i.
Proof.
  rewrite emotion_to_vector_index.
  destruct (MultiCharacter.index_of e MultiCharacter.emotions) as [i|] eqn:Hi.
  - exists i. split; [|reflexivity].
    apply index_of_Some in Hi. exact (proj1 Hi).
  - exists 7. split; [cbn; lia | reflexivity].
Qed.

(** X22: the two variants agree on the emotion vector: for every name,
    [emotion_to_vector] of Variant A is 1.0 exactly at the slot that
    [_create_emotion_vector] of Variant B fills, the slot of calm for a
    name outside the enumeration. *)
Theorem emotion_to_vector_slot e w :
  emotion_to_vector e
  = one_hot (MultiCharacter.slot (MultiCharacter._create_emotion_vector e w)).
Proof.
  rewrite emotion_to_vector_index. unfold MultiCharacter._create_emotion_vector.
  destruct (MultiCharacter.index_of e MultiCharacter.emotions); reflexivity.
Qed.

Lemma starts_solid_app a b : starts_solid a -> starts_solid (a ++ b).
Proof. destruct a; simpl; tauto. Qed.

Lemma trimmed_app a m b : trimmed a -> trimmed b -> trimmed (a ++ m ++ b).
Proof.
  intros [Ha _] [_ Hb]. split; [apply starts_solid_app, Ha|].
  rewrite !rev_app_distr, <- app_assoc. apply starts_solid_app, Hb.
Qed.

Lemma join_snoc sep l x :
  join sep (l ++ [x])
  = match l with [] => x | _ :: _ => join sep l ++ sep ++ x end.
Proof.
  induction l as [|y l IH]; [reflexivity|].
  destruct l as [|z l]; [reflexivity|].
  change (join sep ((y :: z :: l) ++ [x]))
    with (y ++ sep ++ join sep ((z :: l) ++ [x])).
  rewrite IH. change (join sep (y :: z :: l)) with (y ++ sep ++ join sep (z :: l)).
  rewrite <- !app_assoc. reflexivity.
Qed.

Section SegmentText.
Variable self : TextSegmenter.
Variables (e : pystr) (a : float).

(** The loop of [segment_text], for a property [I] of the sentences read
    and the state that every step keeps. *)
Lemma sentences_invariant
    (I : list pystr -> list Segment * pystr * nat -> Prop) :
  (forall done sentence st,
     I done st -> I (done ++ [sentence]) (sentence_step self e a st sentence)) ->
  forall sentences done st,
    I done st ->
    I (done ++ sentences) (fold_left (sentence_step self e a) sentences st).
Proof.
  intros Hstep sentences.
  induction sentences as [|s l IH]; intros done st Hst; simpl.
  - rewrite app_nil_r. exact Hst.
  - replace (done ++ s :: l) with ((done ++ [s]) ++ l)
      by (rewrite <- app_assoc; reflexivity).
    apply IH, Hstep, Hst.
Qed.

Lemma segment_text_cases txt :
  (len txt <=? max_chars self)%Z = false ->
  forall I : list pystr -> list Segment * pystr * nat -> Prop,
    (forall done sentence st,
       I done st ->
       I (done ++ [sentence]) (sentence_step self e a st sentence)) ->
    I [] ([], [], 0) ->
    exists segments current_segment start_char,
      I (split_sentences txt) (segments, current_segment, start_char)
      /\ segment_text self txt e a
         = if truthy current_segment
           then segments ++ [close current_segment e a start_char]
           else segments.
Proof.
  intros Hlong I Hstep Hinit. unfold segment_text. rewrite Hlong.
  pose proof (sentences_invariant I Hstep (split_sentences txt) [] _ Hinit)
    as Hfinal.
  cbn [app] in Hfinal.
  destruct (fold_left _ _ _) as [[segs cur] start].
  exists segs, cur, start. split; [exact Hfinal | reflexivity].
Qed.

Lemma text_sentence_step_cases segments current_segment start_char sentence :
  sentence_step self e a (segments, current_segment, start_char) sentence
  = if truthy (strip sentence) then
      if (max_chars self <? len current_segment + len (strip sentence) + 1)%Z
         && truthy current_segment
      then (segments ++ [close current_segment e a start_char],
            strip sentence,
            start_char + (length (strip (strip sentence)) + 1))
      else (segments,
            (if truthy current_segment
             then current_segment ++ utf8 " " ++ strip sentence
             else strip sentence),
            start_char)
    else (segments, current_segment, start_char).
Proof.
  unfold sentence_step. destruct (truthy (strip sentence)); reflexivity.
Qed.

(** X23: a chunk of [segment_text] exceeds the budget only when it is a
    single sentence that does not fit: its text is at most [max_chars]
    long, or it is one of the trimmed sentences of the text. *)
Theorem segment_text_budget txt :
  Forall (fun chunk =>
            (len (text chunk) <= max_chars self)%Z
            \/ In (text chunk) (kept_sentences txt))
    (segment_text self txt e a).
Proof.
  destruct (len txt <=? max_chars self)%Z eqn:Hlong.
  { unfold segment_text. rewrite Hlong. constructor; [|constructor].
    left. apply Z.leb_le. exact Hlong. }
  set (ok := fun (done : list pystr) (t : pystr) =>
         trimmed t
         /\ ((len t <= max_chars self)%Z
             \/ In t (List.filter truthy (map strip done)))).
  assert (Hmono : forall done s t, ok done t -> ok (done ++ [s]) t).
  { intros done s t [Ht [Hle|Hin]]; (split; [exact Ht|]); [left; exact Hle|].
    right. rewrite map_app, List.filter_app. apply in_or_app. left. exact Hin. }
  destruct (segment_text_cases txt Hlong
              (fun done st =>
                 Forall (fun chunk => ok done (text chunk)) (fst (fst st))
                 /\ (snd (fst st) = [] \/ ok done (snd (fst st)))))
    as (segs & cur & start & [Hall Hcur] & ->).
  - intros done sentence [[segs cur] start] [Hall Hcur]. cbn [fst snd] in *.
    assert (Hold : Forall (fun chunk => ok (done ++ [sentence]) (text chunk))
                     segs).
    { eapply Forall_impl; [exact Hall|]. intros c. apply Hmono. }
    rewrite text_sentence_step_cases.
    destruct (truthy (strip sentence)) eqn:Hs; cbn [fst snd].
    2:{ split; [exact Hold|]. destruct Hcur as [->|Hc]; [left; reflexivity|].
        right. apply Hmono, Hc. }
    assert (Hnew : ok (done ++ [sentence]) (strip sentence)).
    { split; [apply strip_trimmed, truthy_true, Hs|]. right.
      rewrite map_app, List.filter_app. apply in_or_app. right.
      cbn [map List.filter]. rewrite Hs. left. reflexivity. }
    destruct (max_chars self <? len cur + len (strip sentence) + 1)%Z
      eqn:Hmax; cbn [andb].
    + destruct (truthy cur) eqn:Hc; cbn [fst snd].
      * split; [|right; exact Hnew].
        apply Forall_app. split; [exact Hold|].
        constructor; [|constructor]. cbn [close text].
        destruct Hcur as [->|Hok]; [discriminate|].
        rewrite (trimmed_strip cur (proj1 Hok)). apply Hmono, Hok.
      * split; [exact Hold|]. right. exact Hnew.
    + cbn [fst snd]. split; [exact Hold|]. right.
      destruct (truthy cur) eqn:Hc; [|exact Hnew].
      destruct Hcur as [->|Hok]; [discriminate|].
      split; [apply trimmed_app; [exact (proj1 Hok) | exact (proj1 Hnew)]|].
      left. apply Z.ltb_ge in Hmax. unfold len in *.
      rewrite !length_app. change (length (utf8 " ")) with 1. lia.
  - split; [constructor | left; reflexivity].
  - cbn [fst snd] in *.
    assert (Hsegs : Forall (fun chunk =>
                      (len (text chunk) <= max_chars self)%Z
                      \/ In (text chunk) (kept_sentences txt)) segs).
    { eapply Forall_impl; [exact Hall|]. intros c [_ Hc]. exact Hc. }
    destruct (truthy cur) eqn:Hc; [|exact Hsegs].
    apply Forall_app. split; [exact Hsegs|].
    constructor; [|constructor]. cbn [close text].
    destruct Hcur as [->|Hok]; [discriminate|].
    rewrite (trimmed_strip cur (proj1 Hok)). exact (proj2 Hok).
Qed.
End SegmentText.

Section SegmentTextMore.
Variable self : TextSegmenter.
Variables (e : pystr) (a : float).

(** The chunks carry the emotion and alpha given, their offsets span the
    length of their text, and none is empty unless the text is. *)
Lemma segment_text_fields txt :
  Forall (fun chunk =>
            emotion chunk = e /\ alpha chunk = a
            /\ end_char chunk = start_char chunk + length (text chunk)
            /\ (txt <> [] -> text chunk <> []))
    (segment_text self txt e a).
Proof.
  destruct (len txt <=? max_chars self)%Z eqn:Hlong.
  { unfold segment_text. rewrite Hlong. constructor; [|constructor].
    cbn. auto. }
  set (Q := fun chunk : Segment =>
         emotion chunk = e /\ alpha chunk = a
         /\ end_char chunk = start_char chunk + length (text chunk)
         /\ (txt <> [] -> text chunk <> [])).
  assert (Hclose : forall cur start, trimmed cur -> Q (close cur e a start)).
  { intros cur start Hcur. unfold Q, close. cbn.
    rewrite (trimmed_strip cur Hcur). repeat split.
    intros _. apply trimmed_nonempty, Hcur. }
  destruct (segment_text_cases self e a txt Hlong
              (fun _ st =>
                 Forall Q (fst (fst st))
                 /\ (snd (fst st) = [] \/ trimmed (snd (fst st)))))
    as (segs & cur & start & [Hall Hcur] & ->).
  - intros done sentence [[segs cur] start] [Hall Hcur]. cbn [fst snd] in *.
    rewrite text_sentence_step_cases.
    destruct (truthy (strip sentence)) eqn:Hs; cbn [fst snd];
      [|split; assumption].
    assert (Hnew : trimmed (strip sentence)).
    { apply strip_trimmed, truthy_true, Hs. }
    destruct (_ <? _)%Z; cbn [andb]; [destruct (truthy cur) eqn:Hc|];
      cbn [fst snd].
    + split; [|right; exact Hnew].
      apply Forall_app. split; [exact Hall|].
      constructor; [|constructor]. apply Hclose.
      destruct Hcur as [->|Hcur]; [discriminate | exact Hcur].
    + split; [exact Hall | right; exact Hnew].
    + split; [exact Hall|]. right.
      destruct (truthy cur) eqn:Hc; [|exact Hnew].
      destruct Hcur as [->|Hcur]; [discriminate|].
      apply trimmed_app; assumption.
  - split; [constructor | left; reflexivity].
  - cbn [fst snd] in *. destruct (truthy cur) eqn:Hc; [|exact Hall].
    apply Forall_app. split; [exact Hall|].
    constructor; [|constructor]. apply Hclose.
    destruct Hcur as [->|Hcur]; [discriminate | exact Hcur].
Qed.

(** X24: a text over the budget is cut between sentences only, and no
    sentence is lost or repeated: the chunks are the trimmed non-empty
    sentences of the text, grouped in order, each group joined by single
    spaces. *)
Theorem segment_text_partition txt :
  (max_chars self < len txt)%Z ->
  exists groups,
    concat groups = kept_sentences txt
    /\ Forall (fun group => group <> []) groups
    /\ map text (segment_text self txt e a) = map (join (utf8 " ")) groups.
Proof.
  intros Hlong. apply Z.leb_gt in Hlong.
  destruct (segment_text_cases self e a txt Hlong
              (fun done st =>
                 exists groups group,
                   concat groups ++ group
                   = List.filter truthy (map strip done)
                   /\ Forall (fun group => group <> []) groups
                   /\ map text (fst (fst st)) = map (join (utf8 " ")) groups
                   /\ snd (fst st) = join (utf8 " ") group
                   /\ (snd (fst st) = [] <-> group = [])
                   /\ (snd (fst st) = [] \/ trimmed (snd (fst st)))))
    as (segs & cur & start & (groups & group & Hcat & Hne & Hmap & Hcur
                              & Hiff & Htrim) & ->).
  - intros done sentence [[segs cur] start]
      (groups & group & Hcat & Hne & Hmap & Hcur & Hiff & Htrim).
    cbn [fst snd] in *. rewrite text_sentence_step_cases.
    rewrite map_app, List.filter_app. cbn [map List.filter].
    destruct (truthy (strip sentence)) eqn:Hs; cbn [fst snd].
    2:{ exists groups, group. rewrite app_nil_r. auto 10. }
    assert (Hnew : trimmed (strip sentence)).
    { apply strip_trimmed, truthy_true, Hs. }
    assert (Hsne : strip sentence <> []) by (apply truthy_true, Hs).
    destruct (_ <? _)%Z; cbn [andb]; [destruct (truthy cur) eqn:Hc|];
      cbn [fst snd].
    + apply truthy_true in Hc.
      destruct Htrim as [Hnil|Htrim]; [congruence|].
      exists (groups ++ [group]), [strip sentence]. split; [|split; [|split]].
      * rewrite concat_app. cbn [concat]. rewrite app_nil_r, <- Hcat.
        rewrite <- !app_assoc. reflexivity.
      * apply Forall_app. split; [exact Hne|]. constructor; [|constructor].
        intros Hg. apply Hc, Hiff, Hg.
      * rewrite !map_app, Hmap. cbn [map close text].
        rewrite (trimmed_strip cur Htrim), Hcur. reflexivity.
      * repeat split; auto; intros Habs; congruence.
    + apply truthy_false in Hc.
      assert (Hg : group = []) by (apply Hiff; exact Hc). subst group.
      exists groups, [strip sentence]. rewrite app_nil_r in Hcat.
      rewrite Hcat. repeat split; auto; intros Habs; congruence.
    + exists groups, (group ++ [strip sentence]).
      split; [rewrite app_assoc, Hcat; reflexivity|].
      split; [exact Hne|]. split; [exact Hmap|].
      rewrite join_snoc. destruct (truthy cur) eqn:Hc.
      * apply truthy_true in Hc.
        destruct Htrim as [Hnil|Htrim]; [congruence|].
        destruct group as [|g group'];
          [exfalso; apply Hc, Hiff; reflexivity|].
        rewrite Hcur. split; [reflexivity|].
        split; [|right; rewrite <- Hcur; apply trimmed_app; assumption].
        split; intros Habs; [|discriminate].
        apply (f_equal (@length _)) in Habs. rewrite !length_app in Habs.
        destruct (strip sentence); [congruence | simpl in Habs; lia].
      * apply truthy_false in Hc.
        assert (Hg : group = []) by (apply Hiff; exact Hc). subst group.
        split; [reflexivity|]. split; [|right; exact Hnew].
        split; intros Habs; [congruence | discriminate].
  - exists [], []. repeat split; auto; constructor.
  - cbn [fst snd] in *. fold (kept_sentences txt) in Hcat.
    destruct (truthy cur) eqn:Hc.
    + apply truthy_true in Hc.
      destruct Htrim as [Hnil|Htrim]; [congruence|].
      exists (groups ++ [group]). split; [|split].
      * rewrite concat_app. cbn [concat]. rewrite app_nil_r. exact Hcat.
      * apply Forall_app. split; [exact Hne|]. constructor; [|constructor].
        intros Hg. apply Hc, Hiff, Hg.
      * rewrite !map_app, Hmap. cbn [map close text].
        rewrite (trimmed_strip cur Htrim), Hcur. reflexivity.
    + apply truthy_false in Hc.
      assert (Hg : group = []) by (apply Hiff; exact Hc). subst group.
      exists groups. rewrite app_nil_r in Hcat. auto.
Qed.
End SegmentTextMore.

Section GenerateSegments.
Variable voice_prompt_path : pystr.
Variable tts : TTSModel.

Lemma generate_segments_from_spec segments i audio_files :
  let calls := imap (fun k => request_of voice_prompt_path (i + k)) segments in
  generate_segments_from voice_prompt_path tts segments i audio_files
  = (calls,
     audio_files ++ map output_path (List.filter (written tts) calls)).
Proof.
  revert i audio_files. induction segments as [|s later IH];
    intros i acc; cbn [generate_segments_from imap].
  - cbn. rewrite app_nil_r. reflexivity.
  - rewrite IH. cbn zeta.
    assert (Himap : imap (fun k => request_of voice_prompt_path (S i + k)) later
                    = imap ((fun k => request_of voice_prompt_path (i + k)) ∘ S)
                        later).
    { apply imap_ext. intros k x _. simpl. f_equal. lia. }
    rewrite Himap. rewrite Nat.add_0_r.
    fold (request_of voice_prompt_path i s).
    cbn [List.filter map]. unfold written at 2.
    destruct (tts (request_of voice_prompt_path i s)); cbn [map];
      rewrite <- ?app_assoc; reflexivity.
Qed.

(** one call per segment, and the files written *)
Lemma generate_segments_spec segments :
  let calls := imap (request_of voice_prompt_path) segments in
  generate_segments voice_prompt_path tts segments
  = (calls, map output_path (List.filter (written tts) calls)).
Proof.
  unfold generate_segments. rewrite generate_segments_from_spec.
  reflexivity.
Qed.
End GenerateSegments.

(** ** The runs of [generate_from_text] *)

Lemma fold_left_app_flat_map {A B} (f : A -> list B) l acc :
  fold_left (fun acc x => acc ++ f x) l acc = acc ++ flat_map f l.
Proof.
  revert acc. induction l as [|x l IH]; intros acc; simpl.
  - rewrite app_nil_r. reflexivity.
  - rewrite IH, <- app_assoc. reflexivity.
Qed.

Lemma Forall_imap_intro {A B} (P : A -> Prop) (Q : B -> Prop)
    (f : nat -> A -> B) l :
  (forall i x, P x -> Q (f i x)) -> Forall P l -> Forall Q (imap f l).
Proof.
  intros Hf Hl. revert f Hf.
  induction Hl as [|x l Hx Hl IH]; intros f Hf; simpl; constructor.
  - apply Hf, Hx.
  - apply IH. intros i y. apply Hf.
Qed.

Lemma blank_lstrip s : blank s -> lstrip s = [].
Proof. induction 1 as [|c s Hc Hs IH]; simpl; [|rewrite Hc]; auto. Qed.

Lemma blank_strip s : blank s -> strip s = [].
Proof. intros Hs. unfold strip. rewrite (blank_lstrip s Hs). reflexivity. Qed.

Lemma blank_no_bracket_tag s : blank s -> ~ has_bracket_tag s.
Proof.
  intros Hs (pre & body & post & -> & _).
  apply Forall_app in Hs. destruct Hs as [_ Hs].
  inversion Hs as [|c l Hc _]; subst. vm_compute in Hc. discriminate.
Qed.

Section GenerateFromText.
Context `{PyBuiltins}.
Variable voice_prompt_path : pystr.
Variable tts : TTSModel.
Variable assemble : list nat -> bool.
Variable text_segmenter : TextSegmenter.

Lemma generate_from_text_cases txt :
  let calls :=
    imap (request_of voice_prompt_path) (all_segments_of text_segmenter txt) in
  let audio_files := map output_path (List.filter (written tts) calls) in
  generate_from_text voice_prompt_path tts assemble text_segmenter txt
  = (calls,
     match audio_files with
     | [] => false
     | _ :: _ => assemble audio_files
     end).
Proof.
  unfold generate_from_text, all_segments_of.
  destruct (LongText.parse_emotion_tags (utf8 "calm") txt) as [|s l];
    [reflexivity|].
  rewrite fold_left_app_flat_map, generate_segments_spec. cbn [app].
  cbv zeta.
  destruct (map output_path _); reflexivity.
Qed.

(** X25: [generate_from_text] makes one [infer] call for every chunk, in
    order, whatever the earlier calls did; the files it assembles are
    those the calls left, in increasing order; it returns [False] when
    there is none, and what the assembly returns otherwise. *)
Theorem generate_from_text_run txt :
  let calls :=
    imap (request_of voice_prompt_path) (all_segments_of text_segmenter txt) in
  let audio_files := map output_path (List.filter (written tts) calls) in
  generate_from_text voice_prompt_path tts assemble text_segmenter txt
  = (calls,
     match audio_files with
     | [] => false
     | _ :: _ => assemble audio_files
     end)
  /\ StronglySorted lt audio_files.
Proof.
  intros calls audio_files. split; [apply generate_from_text_cases|].
  subst audio_files calls.
  generalize (all_segments_of text_segmenter txt). intros l.
  assert (Hgen : forall i,
             StronglySorted lt
               (map output_path
                  (List.filter (written tts)
                     (imap (fun k => request_of voice_prompt_path (i + k)) l)))
             /\ Forall (fun j => i <= j)
                  (map output_path
                     (List.filter (written tts)
                        (imap (fun k => request_of voice_prompt_path (i + k))
                           l)))).
  { induction l as [|s l IH]; intros i; cbn [imap List.filter map].
    - split; constructor.
    - assert (Himap :
        imap ((fun k => request_of voice_prompt_path (i + k)) ∘ S) l
        = imap (fun k => request_of voice_prompt_path (S i + k)) l).
      { apply imap_ext. intros k x _. simpl. f_equal. lia. }
      rewrite Himap. destruct (IH (S i)) as [Hs Hge].
      assert (Hge' : Forall (fun j => i <= j)
                (map output_path
                   (List.filter (written tts)
                      (imap (fun k => request_of voice_prompt_path (S i + k))
                         l)))).
      { eapply Forall_impl; [exact Hge|]. simpl. intros; lia. }
      destruct (written tts _); cbn [map]; [|split; assumption].
      split.
      + constructor; [exact Hs|]. cbn [request_of output_path].
        eapply Forall_impl; [exact Hge|]. simpl. intros; lia.
      + constructor; [cbn; lia | exact Hge']. }
  exact (proj1 (Hgen 0)).
Qed.

(** X26: a text that is one tag, with at most white space after it,
    has no segment: [generate_from_text] makes no [infer] call and returns
    [False]. *)
Theorem lone_tag_no_call body rest :
  body <> [] -> Forall (fun c => c <> 93%N) body -> blank rest ->
  generate_from_text voice_prompt_path tts assemble text_segmenter
    ([91%N] ++ body ++ [93%N] ++ rest)
  = ([], false).
Proof.
  intros Hbody Hall Hrest. unfold generate_from_text.
  rewrite (parse_leading_tag (utf8 "calm") body rest Hbody Hall
             (blank_no_bracket_tag rest Hrest)).
  rewrite (blank_strip rest Hrest). reflexivity.
Qed.

(** X27: every [infer] call of [generate_from_text] carries an alpha
    within [0.0, 1.0] and an emotion vector that is 1.0 at one slot and
    0.0 elsewhere; its text is not empty when the input holds a tag or is
    not blank. *)
Theorem generate_from_text_requests txt :
  Forall (fun request =>
            unit_interval (emo_alpha request)
            /\ (exists i, i < 8 /\ emo_vector request = one_hot i)
            /\ (has_bracket_tag txt \/ strip txt <> [] ->
                infer_text request <> []))
    (fst (generate_from_text voice_prompt_path tts assemble text_segmenter
            txt)).
Proof.
  rewrite generate_from_text_cases. cbn [fst].
  apply (Forall_imap_intro
           (fun chunk => unit_interval (alpha chunk)
                         /\ (has_bracket_tag txt \/ strip txt <> [] ->
                             text chunk <> []))).
  - intros i chunk [Ha Ht]. cbn [request_of emo_alpha emo_vector infer_text].
    split; [exact Ha|]. split; [|exact Ht].
    apply emotion_to_vector_one_hot.
  - unfold all_segments_of.
    assert (Hsegs : Forall (fun seg =>
                      unit_interval (LongText.alpha seg)
                      /\ (has_bracket_tag txt \/ strip txt <> [] ->
                          LongText.text seg <> []))
                      (LongText.parse_emotion_tags (utf8 "calm") txt)).
    { apply Forall_forall. intros seg Hseg. split.
      - exact (proj1 (Forall_forall _ _)
                 (parse_emotion_tags_alpha (utf8 "calm") txt) seg Hseg).
      - intros Hcase.
        exact (proj1 (Forall_forall _ _)
                 (parse_emotion_tags_nonempty (utf8 "calm") txt Hcase)
                 seg Hseg). }
    induction Hsegs as [|seg segs [Ha Ht] _ IH]; cbn [flat_map];
      [constructor|].
    apply Forall_app. split; [|exact IH].
    eapply Forall_impl; [apply segment_text_fields|]. simpl.
    intros chunk (_ & -> & _ & Hne). split; [exact Ha|].
    intros Hcase. apply Hne, Ht, Hcase.
Qed.

(** X28: a text without a tag is synthesized as calm with alpha 1.0: the
    calls of [generate_from_text] are those for the chunks of the trimmed
    text under these two values. The generator's own default alpha plays
    no part. *)
Theorem untagged_text_calls txt :
  ~ has_bracket_tag txt ->
  fst (generate_from_text voice_prompt_path tts assemble text_segmenter txt)
  = imap (request_of voice_prompt_path)
      (segment_text text_segmenter (strip txt) (utf8 "calm") 1).
Proof.
  intros Hno. rewrite generate_from_text_cases. cbn [fst].
  unfold all_segments_of, LongText.parse_emotion_tags.
  apply finditer_bracket_nil in Hno. rewrite Hno.
  cbn [flat_map LongText.text LongText.emotion LongText.alpha].
  rewrite app_nil_r. reflexivity.
Qed.
End GenerateFromText.


Lemma segment_text_partition_witness :
  exists groups,
    concat groups = kept_sentences (utf8 "One. Two! Three? Four.")
    /\ Forall (fun group => group <> []) groups
    /\ map text (segment_text (mkTextSegmenter 12 50)
                   (utf8 "One. Two! Three? Four.") (utf8 "happy") 0.5)
       = map (join (utf8 " ")) groups.
Proof. apply segment_text_partition. vm_compute. reflexivity. Defined.

Lemma lone_tag_no_call_witness :
  @generate_from_text ascii_builtins (utf8 "voice.wav") (fun _ => Written)
    (fun _ => true) (mkTextSegmenter 200 50)
    ([91%N] ++ utf8 "happy" ++ [93%N] ++ utf8 "  ")
  = ([], false).
Proof.
  apply lone_tag_no_call.
  - vm_compute. discriminate.
  - vm_compute. repeat (constructor; [discriminate|]). constructor.
  - vm_compute. repeat (constructor; [reflexivity|]). constructor.
Defined.

(** A blank text without a tag still reaches the model: one call, with an
    empty text. *)
Lemma untagged_text_calls_witness :
  fst (@generate_from_text ascii_builtins (utf8 "voice.wav")
         (fun _ => Written) (fun _ => true) (mkTextSegmenter 200 50)
         (utf8 "  "))
  = [mkInferRequest (utf8 "voice.wav") [] 0 (one_hot 7) 1].
Proof.
  rewrite untagged_text_calls.
  - vm_compute. reflexivity.
  - apply finditer_bracket_nil. vm_compute. reflexivity.
Defined.

(** ** The script processor *)

Section DirectScript.
Context `{PyBuiltins}.
Import MultiCharacter N8NProcessor.
Variable characters : gmap pystr CharacterConfig.
Variable concatenate : list nat -> bool.

(** X29: with a generator whose model could not be loaded,
    [process_direct_script] makes no [infer] call and returns [True],
    whatever the script: success is reported although nothing was
    synthesized. *)
Theorem direct_script_without_model script_text :
  process_direct_script (Some (characters, None)) concatenate script_text
  = ([], true).
Proof.
  unfold process_direct_script, generate_audio.
  rewrite dispatch_without_model. reflexivity.
Qed.

(** X30: with the model loaded and [narrator] not registered,
    [process_direct_script] returns [False] for every script that has a
    chunk attributed to [narrator]: the [KeyError] is caught there. *)
Theorem direct_script_missing_narrator tts script_text :
  characters !! narrator = None ->
  Exists (fun chunk => character chunk = narrator)
    (segment_dialogue (mkTextSegmenter 200 30)
       (parse_text_with_characters characters script_text)) ->
  snd (process_direct_script (Some (characters, Some tts)) concatenate
         script_text)
  = false.
Proof.
  intros Hnarrator Hchunk. unfold process_direct_script, generate_audio.
  cbn [snd outcome].
  pose proof (dispatch_outcome characters (Some tts)
                (segment_dialogue (mkTextSegmenter 200 30)
                   (parse_text_with_characters characters script_text))
                0 []) as Hrun.
  destruct (outcome (dispatch _ _ _ _ _)) as [audio|e]; [|reflexivity].
  destruct Hrun as [Hn|Hall]; [discriminate|].
  apply Exists_exists in Hchunk. destruct Hchunk as (chunk & Hin & Hc).
  rewrite Forall_forall in Hall. destruct (Hall chunk Hin) as [cfg Hcfg].
  rewrite Hc in Hcfg. congruence.
Qed.
End DirectScript.

Lemma direct_script_missing_narrator_witness :
  snd (@N8NProcessor.process_direct_script ascii_builtins
         (Some (sarah_only, Some (fun _ => true))) (fun _ => true)
         (utf8 "Hello world"))
  = false.
Proof.
  apply direct_script_missing_narrator.
  - vm_compute. reflexivity.
  - vm_compute. apply Exists_cons_hd. reflexivity.
Defined.
